(** * Homomorphic Battleship: a shallow embedding of [game_modified.py]

    The development follows the Python module class by class:
    - [Ship] and [Player] are records, their methods are functions that take
      the object and return the updated object;
    - the [random] module is an explicit generator state that every drawing
      function threads through;
    - exceptions and unbounded loops are results of type [res];
    - the calls into [phe.paillier] go through the interface [paillier.Scheme],
      which states what the game relies on: decryption inverts encryption and
      multiplying a ciphertext by a scalar multiplies the plaintext;
    - [input()] reads from the list of the lines still to come, the text
      built-ins applied to a line are the interface [builtins.Text], and the
      two displays return the strings they print. *)

From Stdlib Require Import ZArith Znumtheory Zpow_facts Zmod Lia Ascii.
From stdpp Require Import base decidable option list list_numbers gmap strings pretty.

Local Open Scope Z_scope.

(** ** Exceptions and results *)

(** The Python exceptions the modelled code can raise. *)
Inductive exn : Type :=
  | KeyError
  | IndexError
  | ValueError
  | AttributeError
  | OverflowError.

(** The result of running a piece of code: a value, a raised exception, or
    [OutOfFuel] when a [while] loop has not finished within the number of
    iterations the model was given. *)
Inductive res (A : Type) : Type :=
  | Ok (a : A)
  | Raise (e : exn)
  | OutOfFuel.

Arguments Ok {A} a.
Arguments Raise {A} e.
Arguments OutOfFuel {A}.

#[global] Instance res_ret : MRet res := fun A a => Ok a.

#[global] Instance res_bind : MBind res := fun A B f m =>
  match m with
  | Ok a => f a
  | Raise e => Raise e
  | OutOfFuel => OutOfFuel
  end.

(** [d[k]] on a dict and [o.attr] on an attribute that may still be [None]. *)
Definition dict_get {A} (o : option A) : res A :=
  match o with Some a => Ok a | None => Raise KeyError end.

Definition attr_of {A} (o : option A) : res A :=
  match o with Some a => Ok a | None => Raise AttributeError end.

(** ** Python lists indexed by integers *)

(** Python accepts the indices [-len .. len - 1]; anything else raises
    [IndexError]. *)
Definition py_index (len : nat) (i : Z) : res nat :=
  if bool_decide (0 <= i < Z.of_nat len) then Ok (Z.to_nat i)
  else if bool_decide (- Z.of_nat len <= i < 0) then Ok (Z.to_nat (i + Z.of_nat len))
  else Raise IndexError.

Definition getitem {A} (l : list A) (i : Z) : res A :=
  n ← py_index (length l) i;
  match l !! n with Some a => Ok a | None => Raise IndexError end.

Definition setitem {A} (l : list A) (i : Z) (v : A) : res (list A) :=
  n ← py_index (length l) i; Ok (<[n := v]> l).

(** [grid[r][c]] and [grid[r][c] = v] on a list of rows. *)
Definition getitem2 {A} (grid : list (list A)) (r c : Z) : res A :=
  row ← getitem grid r; getitem row c.

Definition setitem2 {A} (grid : list (list A)) (r c : Z) (v : A) : res (list (list A)) :=
  row ← getitem grid r; row' ← setitem row c v; setitem grid r row'.

(** ** The [random] module *)

(** The generator is the sequence of raw numbers it is going to produce and a
    cursor into it.  Every call consumes one raw number. *)
Record Random : Type := mkRandom { draws : nat -> Z; cursor : nat }.

Definition next_raw (g : Random) : Z * Random :=
  (draws g (cursor g), mkRandom (draws g) (S (cursor g))).

(** [random.randint(a, b)]: an integer of [a .. b]; an empty range raises
    [ValueError]. *)
Definition randint (a b : Z) (g : Random) : res (Z * Random) :=
  if bool_decide (b < a) then Raise ValueError
  else let (x, g') := next_raw g in Ok (a + x mod (b - a + 1), g').

(** [random.choice(seq)]: an element of a non-empty sequence. *)
Definition choice {A} (seq : list A) (g : Random) : res (A * Random) :=
  let (x, g') := next_raw g in
  match seq !! Z.to_nat (x mod Z.of_nat (length seq)) with
  | Some a => Ok (a, g')
  | None => Raise IndexError
  end.

(** ** The interface of [phe.paillier] *)

Module paillier.

(** What the game uses of the library: key generation, [PublicKey.encrypt],
    [EncryptedNumber.__mul__] with an integer and [PrivateKey.decrypt].  Every
    operation may raise.  The laws are the library's contract for non-negative
    integers that fit the message space of the key ([max_int]); the keys of
    [generate_paillier_keypair()] have the default length, for which the
    message space is far larger than any blinding factor. *)
Class Scheme : Type := {
  PublicKey : Type;
  PrivateKey : Type;
  EncryptedNumber : Type;
  generate_paillier_keypair : Z -> PublicKey * PrivateKey;
  max_int : PublicKey -> Z;
  encrypt : PublicKey -> Z -> Z -> res EncryptedNumber;
  mul : EncryptedNumber -> Z -> res EncryptedNumber;
  decrypt : PrivateKey -> EncryptedNumber -> res Z;
  keypair_capacity : forall seed,
    999999 <= max_int (generate_paillier_keypair seed).1;
  encrypt_total : forall pk m r,
    0 <= m <= max_int pk -> exists ct, encrypt pk m r = Ok ct;
  decrypt_encrypt : forall seed m r ct,
    0 <= m <= max_int (generate_paillier_keypair seed).1 ->
    encrypt (generate_paillier_keypair seed).1 m r = Ok ct ->
    decrypt (generate_paillier_keypair seed).2 ct = Ok m;
  decrypt_mul : forall seed m r ct k,
    0 <= m <= max_int (generate_paillier_keypair seed).1 ->
    encrypt (generate_paillier_keypair seed).1 m r = Ok ct ->
    0 <= k <= max_int (generate_paillier_keypair seed).1 ->
    k * m <= max_int (generate_paillier_keypair seed).1 ->
    exists ct', mul ct k = Ok ct' /\
                decrypt (generate_paillier_keypair seed).2 ct' = Ok (k * m)
}.

End paillier.

(** ** class Ship *)

Module Ship.

Record t : Type := mk {
  name : string;
  size : Z;
  coordinates : list (Z * Z);
  hits : gset (Z * Z)
}.

(** [Ship(name, size)] *)
Definition init (name : string) (size : Z) : t := mk name size [] ∅.

Definition set_coordinates (self : t) (cs : list (Z * Z)) : t :=
  mk (name self) (size self) cs (hits self).

(** [self.hits.add(coord)] *)
Definition add_hit (self : t) (coord : Z * Z) : t :=
  mk (name self) (size self) (coordinates self) ({[coord]} ∪ hits self).

(** [len(self.hits) == self.size] *)
Definition is_sunk (self : t) : bool :=
  bool_decide (Z.of_nat (base.size (hits self)) = size self).

(** [place]: the loop appends one cell per index of [range(self.size)];
    returns the object with its new coordinate list, and that list. *)
Definition place (self : t) (start_row start_col : Z) (horizontal : bool)
  : t * list (Z * Z) :=
  let coords :=
    foldl (fun acc i =>
             if horizontal then acc ++ [(start_row, start_col + i)]
             else acc ++ [(start_row + i, start_col)])
          [] (seqZ 0 (size self)) in
  (set_coordinates self coords, coords).

End Ship.

(** ** class Player *)

Module Player.
Section scheme.
Context {phe : paillier.Scheme}.

Record t : Type := mk {
  name : string;
  board : list (list Z);
  guess_board : list (list string);
  ships : list Ship.t;
  encrypted_board : gmap (Z * Z) paillier.EncryptedNumber;
  public_key : option paillier.PublicKey;
  private_key : option paillier.PrivateKey;
  hits_received : Z;
  total_ship_cells : Z
}.

(** The fleet every player starts with. *)
Definition fleet : list Ship.t :=
  [ Ship.init "Carrier" 5; Ship.init "Battleship" 4; Ship.init "Cruiser" 3;
    Ship.init "Submarine" 2; Ship.init "Destroyer" 2 ].

(** [Player(name)] *)
Definition init (name : string) : t :=
  mk name (replicate 10 (replicate 10 0)) (replicate 10 (replicate 10 " "%string))
     fleet ∅ None None 0 (foldr Z.add 0 (Ship.size <$> fleet)).

Definition set_board (self : t) (b : list (list Z)) : t :=
  mk (name self) b (guess_board self) (ships self) (encrypted_board self)
     (public_key self) (private_key self) (hits_received self) (total_ship_cells self).

Definition set_guess_board (self : t) (gb : list (list string)) : t :=
  mk (name self) (board self) gb (ships self) (encrypted_board self)
     (public_key self) (private_key self) (hits_received self) (total_ship_cells self).

Definition set_ships (self : t) (ss : list Ship.t) : t :=
  mk (name self) (board self) (guess_board self) ss (encrypted_board self)
     (public_key self) (private_key self) (hits_received self) (total_ship_cells self).

Definition set_encrypted_board (self : t)
    (eb : gmap (Z * Z) paillier.EncryptedNumber) : t :=
  mk (name self) (board self) (guess_board self) (ships self) eb
     (public_key self) (private_key self) (hits_received self) (total_ship_cells self).

Definition set_keys (self : t) (pk : paillier.PublicKey) (sk : paillier.PrivateKey) : t :=
  mk (name self) (board self) (guess_board self) (ships self) (encrypted_board self)
     (Some pk) (Some sk) (hits_received self) (total_ship_cells self).

Definition set_hits_received (self : t) (n : Z) : t :=
  mk (name self) (board self) (guess_board self) (ships self) (encrypted_board self)
     (public_key self) (private_key self) n (total_ship_cells self).

(** [generate_keys]: the key pair comes from one raw draw of entropy. *)
Definition generate_keys (self : t) (g : Random) : t * Random :=
  let (seed, g) := next_raw g in
  let (pk, sk) := paillier.generate_paillier_keypair seed in
  (set_keys self pk sk, g).

(** [all(self.board[r][c] == 0 for r, c in coords)]: stops at the first cell
    that is not water. *)
Fixpoint all_water (board : list (list Z)) (coords : list (Z * Z)) : res bool :=
  match coords with
  | [] => Ok true
  | (r, c) :: rest =>
      v ← getitem2 board r c;
      if bool_decide (v = 0) then all_water board rest else Ok false
  end.

(** [for r, c in coords: self.board[r][c] = 1] *)
Fixpoint mark_cells (board : list (list Z)) (coords : list (Z * Z))
  : res (list (list Z)) :=
  match coords with
  | [] => Ok board
  | (r, c) :: rest => b ← setitem2 board r c 1; mark_cells b rest
  end.

(** Lines 55-61 of [place_ship_random]: the orientation and the start cell
    of one attempt, for a ship of [size] cells. *)
Definition draw_placement (size : Z) (g : Random) : res (bool * Z * Z * Random) :=
  '(horizontal, g) ← choice [true; false] g;
  if horizontal : bool then
    '(row, g) ← randint 0 9 g;
    '(col, g) ← randint 0 (10 - size) g;
    Ok (horizontal, row, col, g)
  else
    '(row, g) ← randint 0 (10 - size) g;
    '(col, g) ← randint 0 9 g;
    Ok (horizontal, row, col, g).

(** [place_ship_random(self, ship)].  [ship] is the position of the Ship object
    in [self.ships] (the method is only ever called on those).  Each unit of
    [fuel] is one iteration of [while not placed]. *)
Fixpoint place_ship_random (fuel : nat) (self : t) (ship : nat) (g : Random)
  : res (t * Random) :=
  match fuel with
  | O => OutOfFuel
  | S fuel =>
      s ← getitem (ships self) (Z.of_nat ship);
      '(horizontal, row, col, g) ← draw_placement (Ship.size s) g;
      let '(s, coords) := Ship.place s row col horizontal in
      let self := set_ships self (<[ship := s]> (ships self)) in
      free ← all_water (board self) coords;
      if free : bool then
        b ← mark_cells (board self) coords;
        Ok (set_board self b, g)
      else place_ship_random fuel self ship g
  end.

(** [for ship in self.ships: self.place_ship_random(ship)] *)
Fixpoint place_all (fuel : nat) (self : t) (todo : list nat) (g : Random)
  : res (t * Random) :=
  match todo with
  | [] => Ok (self, g)
  | ship :: todo =>
      '(self, g) ← place_ship_random fuel self ship g;
      place_all fuel self todo g
  end.

(** [setup_board]; the prints are not modelled.  Every call of
    [place_ship_random] gets [fuel] iterations. *)
Definition setup_board (fuel : nat) (self : t) (g : Random) : res (t * Random) :=
  place_all fuel self (seq 0 (length (ships self))) g.

(** The body of the two loops of [encrypt_board] for one cell; the library
    draws the obfuscator of the ciphertext. *)
Definition encrypt_cell (self : t) (row col : Z) (g : Random) : res (t * Random) :=
  pk ← attr_of (public_key self);
  v ← getitem2 (board self) row col;
  let (r, g) := next_raw g in
  ct ← paillier.encrypt pk v r;
  Ok (set_encrypted_board self (<[(row, col) := ct]> (encrypted_board self)), g).

Fixpoint encrypt_cells (self : t) (cells : list (Z * Z)) (g : Random)
  : res (t * Random) :=
  match cells with
  | [] => Ok (self, g)
  | (row, col) :: cells =>
      '(self, g) ← encrypt_cell self row col g;
      encrypt_cells self cells g
  end.

(** The cells in the order [for row in range(10): for col in range(10)]. *)
Definition cells : list (Z * Z) :=
  row ← seqZ 0 10; col ← seqZ 0 10; [(row, col)].

(** [encrypt_board] *)
Definition encrypt_board (self : t) (g : Random) : res (t * Random) :=
  encrypt_cells self cells g.

(** Lines 109-116 of [check_hit_homomorphic]: look the ciphertext up, draw the
    blinding factor, multiply, decrypt.  Returns the blinding factor with the
    decrypted value. *)
Definition blinded_value (self : t) (guess_row guess_col : Z) (g : Random)
  : res (Z * Z * Random) :=
  encrypted_position ← dict_get (encrypted_board self !! (guess_row, guess_col));
  '(blinding_factor, g) ← randint 1 999999 g;
  encrypted_result ← paillier.mul encrypted_position blinding_factor;
  sk ← attr_of (private_key self);
  decrypted_val ← paillier.decrypt sk encrypted_result;
  Ok (blinding_factor, decrypted_val, g).

(** The [for ship in self.ships] loop of the hit branch: the first ship that
    owns the cell records the hit; the loop then returns "sunk" or breaks. *)
Fixpoint mark_hit (ships : list Ship.t) (coord : Z * Z)
  : list Ship.t * (string * option string) :=
  match ships with
  | [] => ([], ("hit"%string, None))
  | ship :: rest =>
      if bool_decide (coord ∈ Ship.coordinates ship) then
        let ship := Ship.add_hit ship coord in
        if Ship.is_sunk ship
        then (ship :: rest, ("sunk"%string, Some (Ship.name ship)))
        else (ship :: rest, ("hit"%string, None))
      else
        let (rest, r) := mark_hit rest coord in (ship :: rest, r)
  end.

(** [check_hit_homomorphic(self, guess_row, guess_col, opponent)].  Both
    objects the method receives are returned: [self] first, then [opponent]. *)
Definition check_hit_homomorphic (self : t) (guess_row guess_col : Z)
    (opponent : t) (g : Random)
  : res ((string * option string) * t * t * Random) :=
  '(_, decrypted_val, g) ← blinded_value self guess_row guess_col g;
  let is_hit := negb (bool_decide (decrypted_val = 0)) in
  if is_hit then
    let self := set_hits_received self (hits_received self + 1) in
    let (ss, r) := mark_hit (ships self) (guess_row, guess_col) in
    Ok (r, set_ships self ss, opponent, g)
  else Ok (("miss"%string, None), self, opponent, g).

(** [has_lost] *)
Definition has_lost (self : t) : bool :=
  bool_decide (total_ship_cells self <= hits_received self).

(** [display_own_board]: the strings it hands to [print], in order.  The
    first starts with the line break of the f-string. *)
Definition display_own_board (self : t) : list string :=
  [ (String "010"%char EmptyString +:+ name self +:+ "'s Board:")%string ]
  ++ [ ("   " +:+ String.concat " " (pretty <$> seqZ 0 10))%string ]
  ++ imap (fun (i : nat) row =>
             let display :=
               (fun cell => if bool_decide (cell = 1) then "S" else "~")%string <$> row in
             (pretty i +:+ "  " +:+ String.concat " " display)%string)
          (board self).

(** [display_guess_board] *)
Definition display_guess_board (self : t) : list string :=
  [ (String "010"%char EmptyString +:+ name self
     +:+ "'s Tracking Board (Your Guesses):")%string ]
  ++ [ ("   " +:+ String.concat " " (pretty <$> seqZ 0 10))%string ]
  ++ imap (fun (i : nat) row => (pretty i +:+ "  " +:+ String.concat " " row)%string)
          (guess_board self).

End scheme.
End Player.

(** ** get_player_guess *)

(** The built-ins the function calls on the line that [input()] returned:
    [str.strip], [str.split] without arguments, and [int] on a string, which
    either gives the integer or raises [ValueError] ([None]). *)
Module builtins.

Class Text : Type := {
  strip : string -> string;
  split : string -> list string;
  int : string -> option Z
}.

End builtins.

Section input.
Context {text : builtins.Text}.

(** One pass of [while True] on a line: the pair that is returned, or [None]
    when the pass ends without returning (the [continue] after a wrong number
    of parts, the [else] branch of the range check, or the handler of
    [ValueError]) and the loop starts over. *)
Definition read_guess (line : string) : option (Z * Z) :=
  let guess := builtins.strip line in
  let parts := builtins.split guess in
  if bool_decide (length parts ≠ 2%nat) then None
  else
    row ← parts !! 0%nat ≫= builtins.int;
    col ← parts !! 1%nat ≫= builtins.int;
    if bool_decide ((0 <= row <= 9) /\ (0 <= col <= 9)) then Some (row, col) else None.

(** [get_player_guess()].  [stdin] lists the lines [input()] is going to
    return.  The result is the guess and the lines that are left; [None] is
    the [EOFError] that [input()] raises when there is no line, which the
    function does not catch. *)
Fixpoint get_player_guess (stdin : list string) : option (Z * Z * list string) :=
  match stdin with
  | [] => None
  | line :: stdin =>
      match read_guess line with
      | Some (row, col) => Some (row, col, stdin)
      | None => get_player_guess stdin
      end
  end.

End input.

(** ** main *)

Module Main.
Section scheme.
Context {phe : paillier.Scheme}.

(** The two Player objects [main] creates; the variables [current_player] and
    [opponent] hold references to them. *)
Inductive ref : Type := Player1 | Player2.

#[global] Instance ref_eq_dec : EqDecision ref.
Proof. solve_decision. Defined.

Record state : Type := mk {
  player1 : Player.t;
  player2 : Player.t;
  turn : Z;
  game_over : bool;
  current_player : ref;
  opponent : ref
}.

Definition deref (s : state) (r : ref) : Player.t :=
  match r with Player1 => player1 s | Player2 => player2 s end.

Definition assign (s : state) (r : ref) (p : Player.t) : state :=
  match r with
  | Player1 => mk p (player2 s) (turn s) (game_over s) (current_player s) (opponent s)
  | Player2 => mk (player1 s) p (turn s) (game_over s) (current_player s) (opponent s)
  end.

Definition set_turn (s : state) (n : Z) : state :=
  mk (player1 s) (player2 s) n (game_over s) (current_player s) (opponent s).

Definition set_game_over (s : state) (b : bool) : state :=
  mk (player1 s) (player2 s) (turn s) b (current_player s) (opponent s).

(** [current_player, opponent = opponent, current_player] *)
Definition switch_players (s : state) : state :=
  mk (player1 s) (player2 s) (turn s) (game_over s) (opponent s) (current_player s).

(** The setup phase of [main], up to the first iteration of the game loop. *)
Definition setup (fuel : nat) (g : Random) : res (state * Random) :=
  let player1 := Player.init "Alice" in
  let player2 := Player.init "Bob" in
  let (player1, g) := Player.generate_keys player1 g in
  let (player2, g) := Player.generate_keys player2 g in
  '(player1, g) ← Player.setup_board fuel player1 g;
  '(player2, g) ← Player.setup_board fuel player2 g;
  '(player1, g) ← Player.encrypt_board player1 g;
  '(player2, g) ← Player.encrypt_board player2 g;
  Ok (mk player1 player2 0 false Player1 Player2, g).

(** The mark written on the guess board for a result of the protocol. *)
Definition mark_of (result : string) : string :=
  if bool_decide (result = "hit"%string) then "X"%string
  else if bool_decide (result = "sunk"%string) then "X"%string
  else "O"%string.

(** One iteration of [while not game_over], for the guess that
    [get_player_guess] returned.  Displays and prompts are not modelled.  The
    method call receives the object behind [opponent] as [self] and the one
    behind [current_player] as its last argument; [self] is stored last, as
    the method mutates only that object. *)
Definition loop_body (s : state) (guess : Z * Z) (g : Random) : res (state * Random) :=
  let (guess_row, guess_col) := guess in
  let s := set_turn s (turn s + 1) in
  seen ← getitem2 (Player.guess_board (deref s (current_player s))) guess_row guess_col;
  if bool_decide (seen ≠ " "%string) then Ok (s, g)
  else
    '(result, ship_name, defender, attacker, g) ←
      Player.check_hit_homomorphic (deref s (opponent s)) guess_row guess_col
                                   (deref s (current_player s)) g;
    let s := assign (assign s (current_player s) attacker) (opponent s) defender in
    let me := deref s (current_player s) in
    gb ← setitem2 (Player.guess_board me) guess_row guess_col (mark_of result);
    let s := assign s (current_player s) (Player.set_guess_board me gb) in
    if Player.has_lost (deref s (opponent s)) then Ok (set_game_over s true, g)
    else Ok (switch_players s, g).

(** The game loop over the guesses the players enter, as long as there are
    any. *)
Fixpoint game_loop (s : state) (guesses : list (Z * Z)) (g : Random)
  : res (state * Random) :=
  match guesses with
  | [] => Ok (s, g)
  | guess :: guesses =>
      if game_over s then Ok (s, g)
      else '(s, g) ← loop_body s guess g; game_loop s guesses g
  end.

Context {text : builtins.Text}.

(** One iteration of [while not game_over] with its two calls of [input()]:
    the one inside [get_player_guess] and the prompt before the next turn.
    The second component of the result is the input that is left, [None]
    when [input()] raised [EOFError]. *)
Definition loop_iteration (s : state) (stdin : list string) (g : Random)
  : res (state * option (list string) * Random) :=
  let s := set_turn s (turn s + 1) in
  match get_player_guess stdin with
  | None => Ok (s, None, g)
  | Some (guess_row, guess_col, stdin) =>
      seen ← getitem2 (Player.guess_board (deref s (current_player s))) guess_row guess_col;
      if bool_decide (seen ≠ " "%string) then Ok (s, Some stdin, g)
      else
        '(result, ship_name, defender, attacker, g) ←
          Player.check_hit_homomorphic (deref s (opponent s)) guess_row guess_col
                                       (deref s (current_player s)) g;
        let s := assign (assign s (current_player s) attacker) (opponent s) defender in
        let me := deref s (current_player s) in
        gb ← setitem2 (Player.guess_board me) guess_row guess_col (mark_of result);
        let s := assign s (current_player s) (Player.set_guess_board me gb) in
        if Player.has_lost (deref s (opponent s)) then Ok (set_game_over s true, Some stdin, g)
        else
          let s := switch_players s in
          match stdin with
          | [] => Ok (s, None, g)
          | _ :: stdin => Ok (s, Some stdin, g)
          end
  end.

(** [while not game_over]; each unit of [fuel] is one iteration. *)
Fixpoint main_loop (fuel : nat) (s : state) (stdin : list string) (g : Random)
  : res (state * option (list string) * Random) :=
  match fuel with
  | O => OutOfFuel
  | S fuel =>
      if game_over s then Ok (s, Some stdin, g)
      else
        '(s, stdin, g) ← loop_iteration s stdin g;
        match stdin with
        | None => Ok (s, None, g)
        | Some stdin => main_loop fuel s stdin g
        end
  end.

(** [main()]: the setup phase, then the game loop.  [placing] bounds the
    iterations of each call of [place_ship_random], [turns] those of the game
    loop. *)
Definition main (placing turns : nat) (stdin : list string) (g : Random)
  : res (state * option (list string) * Random) :=
  '(s, g) ← setup placing g; main_loop turns s stdin g.

End scheme.
End Main.

(** ** Paillier's cryptosystem on integers

    An implementation of the interface, laid out as the library's
    [PaillierPublicKey], [PaillierPrivateKey] and [EncryptedNumber] for
    integer plaintexts (exponent 0), with the generator [n + 1] and decryption
    by the Chinese remainder theorem.  Keys are drawn from a fixed table of
    small primes instead of a prime search. *)

Module PaillierZ.

Record PublicKey : Type := mkPublicKey { n : Z }.

Record PrivateKey : Type := mkPrivateKey { public_key : PublicKey; p : Z; q : Z }.

Record EncryptedNumber : Type := mkEncryptedNumber { key : PublicKey; ciphertext : Z }.

#[global] Instance PublicKey_eq_dec : EqDecision PublicKey.
Proof. solve_decision. Defined.

Definition nsquare (pk : PublicKey) : Z := n pk * n pk.
Definition max_int (pk : PublicKey) : Z := n pk / 3 - 1.

Definition powmod (a e m : Z) : Z := Zpow_mod a e m.
Definition mulmod (a b m : Z) : Z := (a * b) mod m.
Definition invert (a m : Z) : Z := Z.invmod a m.

(** A number of [1 .. n - 1] for the obfuscator.  A draw that shares a factor
    with [n] (it would give the private key away) is replaced by 1. *)
Definition get_random_lt_n (pk : PublicKey) (raw : Z) : Z :=
  let r := 1 + raw mod (n pk - 1) in
  if bool_decide (Z.gcd r (n pk) = 1) then r else 1.

(** [EncodedNumber.encode] for an integer. *)
Definition encode (pk : PublicKey) (scalar : Z) : res Z :=
  if bool_decide (max_int pk < Z.abs scalar) then Raise ValueError
  else Ok (scalar mod n pk).

(** [EncodedNumber.decode] at exponent 0. *)
Definition decode (pk : PublicKey) (encoding : Z) : res Z :=
  if bool_decide (n pk <= encoding) then Raise ValueError
  else if bool_decide (encoding <= max_int pk) then Ok encoding
  else if bool_decide (n pk - max_int pk <= encoding) then Ok (encoding - n pk)
  else Raise OverflowError.

Definition raw_encrypt (pk : PublicKey) (plaintext r : Z) : Z :=
  let nude_ciphertext :=
    if bool_decide (n pk - max_int pk <= plaintext < n pk)
    then invert ((n pk * (n pk - plaintext) + 1) mod nsquare pk) (nsquare pk)
    else (n pk * plaintext + 1) mod nsquare pk in
  mulmod nude_ciphertext (powmod r (n pk) (nsquare pk)) (nsquare pk).

Definition encrypt (pk : PublicKey) (value raw : Z) : res EncryptedNumber :=
  encoding ← encode pk value;
  Ok (mkEncryptedNumber pk (raw_encrypt pk encoding (get_random_lt_n pk raw))).

Definition raw_mul (c : EncryptedNumber) (plaintext : Z) : res Z :=
  let pk := key c in
  if bool_decide (plaintext < 0 ∨ n pk <= plaintext) then Raise ValueError
  else if bool_decide (n pk - max_int pk <= plaintext) then
    Ok (powmod (invert (ciphertext c) (nsquare pk)) (n pk - plaintext) (nsquare pk))
  else Ok (powmod (ciphertext c) plaintext (nsquare pk)).

(** [EncryptedNumber.__mul__] with an integer. *)
Definition mul (c : EncryptedNumber) (scalar : Z) : res EncryptedNumber :=
  encoding ← encode (key c) scalar;
  product ← raw_mul c encoding;
  Ok (mkEncryptedNumber (key c) product).

Definition l_function (x p : Z) : Z := (x - 1) / p.

Definition h_function (sk : PrivateKey) (x xsquare : Z) : Z :=
  invert (l_function (powmod (n (public_key sk) + 1) (x - 1) xsquare) x) x.

Definition crt (sk : PrivateKey) (mp mq : Z) : Z :=
  let u := mulmod (mq - mp) (invert (p sk) (q sk)) (q sk) in
  mp + u * p sk.

Definition raw_decrypt (sk : PrivateKey) (c : Z) : Z :=
  let psquare := p sk * p sk in
  let qsquare := q sk * q sk in
  let decrypt_to_p :=
    mulmod (l_function (powmod c (p sk - 1) psquare) (p sk))
           (h_function sk (p sk) psquare) (p sk) in
  let decrypt_to_q :=
    mulmod (l_function (powmod c (q sk - 1) qsquare) (q sk))
           (h_function sk (q sk) qsquare) (q sk) in
  crt sk decrypt_to_p decrypt_to_q.

Definition decrypt (sk : PrivateKey) (c : EncryptedNumber) : res Z :=
  if bool_decide (public_key sk ≠ key c) then Raise ValueError
  else decode (public_key sk) (raw_decrypt sk (ciphertext c)).

(** The primes the keys are made of. *)
Definition primes (seed : Z) : Z * Z :=
  if Z.even seed then (1999, 2003) else (2011, 2017).

Definition generate_paillier_keypair (seed : Z) : PublicKey * PrivateKey :=
  let (p, q) := primes seed in
  let pk := mkPublicKey (p * q) in
  (pk, mkPrivateKey pk p q).

(** A key pair made of two different primes. *)
Definition valid_keypair (pk : PublicKey) (sk : PrivateKey) : Prop :=
  public_key sk = pk /\ Z.prime (p sk) /\ Z.prime (q sk) /\
  p sk <> q sk /\ n pk = p sk * q sk.

(** [c] is a ciphertext of [a]: the number [(1 + n a) u^n] modulo [n^2], for
    some [u] that is invertible modulo [n]. *)
Definition encrypts (pk : PublicKey) (c a : Z) : Prop :=
  exists u, Z.gcd u (n pk) = 1 /\
    c mod nsquare pk = ((1 + n pk * a) * u ^ n pk) mod nsquare pk.

(** Trial division, to check the primes of the table. *)
Definition no_divisor (x : Z) : bool :=
  forallb (fun d => negb (x mod d =? 0)) (seqZ 2 (x - 2)).

End PaillierZ.

(** ** The text built-ins on ASCII text

    What [strip], [split] and [int] do on a line of ASCII characters: white
    space is the characters 9 to 13 and 28 to 32, and an integer literal is
    an optional sign followed by digits, with single underscores allowed
    between digits. *)

Module AsciiText.

Definition is_space (c : ascii) : bool :=
  let n := nat_of_ascii c in
  (Nat.leb 9 n && Nat.leb n 13) || (Nat.leb 28 n && Nat.leb n 32).

Fixpoint lstrip (s : string) : string :=
  match s with
  | String c rest => if is_space c then lstrip rest else s
  | EmptyString => EmptyString
  end.

Definition strip (s : string) : string :=
  String.rev (lstrip (String.rev (lstrip s))).

(** The words of [s]; [cur] is the word being read, last character first. *)
Fixpoint split_go (cur : option string) (s : string) : list string :=
  match s with
  | EmptyString => option_list (String.rev <$> cur)
  | String c rest =>
      if is_space c then option_list (String.rev <$> cur) ++ split_go None rest
      else split_go (Some (String c (default EmptyString cur))) rest
  end.

Definition split (s : string) : list string := split_go None s.

(** The digits of a literal; [acc] is the value read so far, and [sep] tells
    whether an underscore may come next. *)
Fixpoint digits (acc : Z) (sep : bool) (s : string) : option Z :=
  match s with
  | EmptyString => if sep then Some acc else None
  | String c rest =>
      match Ascii.is_nat c with
      | Some d => digits (10 * acc + Z.of_nat d) true rest
      | None =>
          if sep && bool_decide (c = "_"%char) then digits acc false rest else None
      end
  end.

Definition int (s : string) : option Z :=
  match strip s with
  | String "-" rest => Z.opp <$> digits 0 false rest
  | String "+" rest => digits 0 false rest
  | rest => digits 0 false rest
  end.

#[global] Instance AsciiText_text : builtins.Text :=
  {| builtins.strip := strip; builtins.split := split; builtins.int := int |}.

End AsciiText.

(** * Predicates of the specification *)

(** A coordinate of the 10 x 10 board. *)
Definition in_grid (rc : Z * Z) : Prop := 0 <= rc.1 <= 9 /\ 0 <= rc.2 <= 9.

(** Ten rows of ten entries. *)
Definition grid10 {A} (b : list (list A)) : Prop :=
  length b = 10%nat /\ Forall (fun row => length row = 10%nat) b.

(** The entry of a grid at a coordinate that is not negative. *)
Definition cell {A} (b : list (list A)) (rc : Z * Z) : option A :=
  row ← b !! Z.to_nat rc.1; row !! Z.to_nat rc.2.

(** The cells of the board that are marked 1. *)
Definition occupied (b : list (list Z)) : list (Z * Z) :=
  filter (fun rc => cell b rc = Some 1) Player.cells.

(** The cell [i] steps from the start cell, along the ship. *)
Definition span (row col : Z) (horizontal : bool) (i : Z) : Z * Z :=
  if horizontal then (row, col + i) else (row + i, col).

(** The cells of the placement drawn at [g], and the generator after it. *)
Definition attempt (size : Z) (g : Random) : list (Z * Z) * Random :=
  match Player.draw_placement size g with
  | Ok (horizontal, row, col, g') => (span row col horizontal <$> seqZ 0 size, g')
  | _ => ([], g)
  end.

(** Each of the next [fuel] placements drawn from [g] touches a cell of [b]
    that is not water. *)
Fixpoint blocked (fuel : nat) (b : list (list Z)) (size : Z) (g : Random) : Prop :=
  match fuel with
  | O => True
  | S fuel =>
      Exists (fun rc => cell b rc ≠ Some 0) (attempt size g).1 /\
      blocked fuel b size (attempt size g).2
  end.

Section predicates.
Context {phe : paillier.Scheme}.

(** The ships before position [k] lie on the board. *)
Record layout (k : nat) (p : Player.t) : Prop := {
  layout_grid : grid10 (Player.board p);
  layout_names : Ship.name <$> Player.ships p = Ship.name <$> Player.fleet;
  layout_sizes : Ship.size <$> Player.ships p = Ship.size <$> Player.fleet;
  layout_coords : forall i s, (i < k)%nat -> Player.ships p !! i = Some s ->
    NoDup (Ship.coordinates s) /\
    length (Ship.coordinates s) = Z.to_nat (Ship.size s) /\
    Forall in_grid (Ship.coordinates s);
  layout_bits : forall rc, in_grid rc ->
    cell (Player.board p) rc = Some 0 \/ cell (Player.board p) rc = Some 1;
  layout_occupied : forall rc, in_grid rc ->
    (cell (Player.board p) rc = Some 1 <->
     exists i s, (i < k)%nat /\ Player.ships p !! i = Some s /\ rc ∈ Ship.coordinates s);
  layout_disjoint : forall i j s t rc,
    (i < k)%nat -> (j < k)%nat ->
    Player.ships p !! i = Some s -> Player.ships p !! j = Some t ->
    rc ∈ Ship.coordinates s -> rc ∈ Ship.coordinates t -> i = j;
  layout_count :
    length (occupied (Player.board p))
    = Z.to_nat (foldr Z.add 0 (take k (Ship.size <$> Player.ships p)))
}.

(** The fields placement leaves alone. *)
Definition same_rest (p p' : Player.t) : Prop :=
  Player.name p' = Player.name p /\
  Player.guess_board p' = Player.guess_board p /\
  Player.encrypted_board p' = Player.encrypted_board p /\
  Player.public_key p' = Player.public_key p /\
  Player.private_key p' = Player.private_key p /\
  Player.hits_received p' = Player.hits_received p /\
  Player.total_ship_cells p' = Player.total_ship_cells p /\
  Ship.hits <$> Player.ships p' = Ship.hits <$> Player.ships p.

(** The keys of [p] are the pair generated from [seed]. *)
Definition keys_from (seed : Z) (p : Player.t) : Prop :=
  Player.public_key p = Some (paillier.generate_paillier_keypair seed).1 /\
  Player.private_key p = Some (paillier.generate_paillier_keypair seed).2.

(** The dictionary holds, for the cell, an encryption of its bit. *)
Definition cell_encrypted (seed : Z) (p : Player.t) (rc : Z * Z) : Prop :=
  exists b nonce ct,
    cell (Player.board p) rc = Some b /\
    Player.encrypted_board p !! rc = Some ct /\
    paillier.encrypt (paillier.generate_paillier_keypair seed).1 b nonce = Ok ct.

(** The state of a player during the game loop. *)
Record ready (seed : Z) (p : Player.t) : Prop := {
  ready_layout : layout 5 p;
  ready_keys : keys_from seed p;
  ready_encrypted : forall rc, in_grid rc -> cell_encrypted seed p rc;
  ready_hits : forall i s rc,
    Player.ships p !! i = Some s -> rc ∈ Ship.hits s -> rc ∈ Ship.coordinates s;
  ready_total : Player.total_ship_cells p = 16
}.

(** What a hit does to the defender: one more hit received, and the cell
    added to the hits of the ship at position [i]. *)
Definition record_hit (p : Player.t) (i : nat) (s : Ship.t) (rc : Z * Z) : Player.t :=
  Player.set_ships (Player.set_hits_received p (Player.hits_received p + 1))
                   (<[i := Ship.add_hit s rc]> (Player.ships p)).

(** The states of the game loop: the state after the setup phase, and every
    state an iteration reaches from one in which the game is not over, for a
    guess inside the board and any state of the random generator. *)
Inductive reachable : Main.state -> Prop :=
  | reach_setup fuel g s g' :
      Main.setup fuel g = Ok (s, g') -> reachable s
  | reach_turn s guess g s' g' :
      reachable s -> Main.game_over s = false -> in_grid guess ->
      Main.loop_body s guess g = Ok (s', g') -> reachable s'.

(** What holds of every state of the game loop. *)
Record in_game (s : Main.state) : Prop := {
  game_ready : forall r, exists seed, ready seed (Main.deref s r);
  game_roles : Main.current_player s ≠ Main.opponent s;
  game_hits : forall r, Player.hits_received (Main.deref s r) <= 16;
  game_running : forall r,
    Main.game_over s = false -> Player.hits_received (Main.deref s r) < 16
}.

(** C5 as the specification states it: two runs of the protocol on the same
    cell with different blinding factors decrypt to different values. *)
Definition blinded_values_differ (p : Player.t) (r c : Z) : Prop :=
  forall g1 g2 k1 k2 v1 v2 g1' g2',
    Player.blinded_value p r c g1 = Ok (k1, v1, g1') ->
    Player.blinded_value p r c g2 = Ok (k2, v2, g2') ->
    k1 ≠ k2 -> v1 ≠ v2.

End predicates.

(** ** Predicates for the game as a whole *)

Section tracking.
Context {phe : paillier.Scheme}.

(** The other of the two players. *)
Definition other (r : Main.ref) : Main.ref :=
  match r with Main.Player1 => Main.Player2 | Main.Player2 => Main.Player1 end.

(** The number of hits recorded on the ships of a player. *)
Definition hit_cells (p : Player.t) : Z :=
  foldr Z.add 0 ((fun hits : gset (Z * Z) => Z.of_nat (size hits))
                 <$> (Ship.hits <$> Player.ships p)).

(** The cells of the board at which a guess board holds the mark [m]. *)
Definition marked (m : string) (gb : list (list string)) : list (Z * Z) :=
  filter (fun rc => cell gb rc = Some m) Player.cells.

(** The guess board of player [a] against what the other player has
    recorded: every entry is blank, "X" or "O"; the entries marked "X" are
    the cells in the hit sets of the other player's ships; the entries marked
    "O" are water on the other player's board; the other player's counter is
    the number of recorded hits; and the encrypted board of [a] has an entry
    for the cells of the board and for nothing else. *)
Record tracking (s : Main.state) (a : Main.ref) : Prop := {
  track_grid : grid10 (Player.guess_board (Main.deref s a));
  track_marks : forall rc, in_grid rc ->
    cell (Player.guess_board (Main.deref s a)) rc = Some " "%string \/
    cell (Player.guess_board (Main.deref s a)) rc = Some "X"%string \/
    cell (Player.guess_board (Main.deref s a)) rc = Some "O"%string;
  track_hits : forall rc, in_grid rc ->
    (cell (Player.guess_board (Main.deref s a)) rc = Some "X"%string <->
     exists i t, Player.ships (Main.deref s (other a)) !! i = Some t /\ rc ∈ Ship.hits t);
  track_misses : forall rc, in_grid rc ->
    cell (Player.guess_board (Main.deref s a)) rc = Some "O"%string ->
    cell (Player.board (Main.deref s (other a))) rc = Some 0;
  track_count : Player.hits_received (Main.deref s (other a))
                = hit_cells (Main.deref s (other a));
  track_marked : Player.hits_received (Main.deref s (other a))
                 = Z.of_nat (length (marked "X" (Player.guess_board (Main.deref s a))));
  track_keys : forall rc,
    is_Some (Player.encrypted_board (Main.deref s a) !! rc) <-> in_grid rc
}.

End tracking.

(** The string of one character. *)
Definition char_string (m : ascii) : string := String m EmptyString.

(** * Correctness of the integer Paillier scheme *)

Section paillier_correct.

Lemma pow_one_plus (n a e : Z) :
  0 <= e -> exists k, (1 + n * a) ^ e = 1 + n * (a * e) + n * n * k.
Proof.
  intros He. pattern e. apply natlike_ind; [| |exact He].
  - exists 0. rewrite Z.pow_0_r. ring.
  - intros x Hx [k IH]. rewrite Z.pow_succ_r by exact Hx. rewrite IH.
    exists (a * a * x + k * (1 + n * a)). ring.
Qed.

Lemma euler_square (p r : Z) :
  Z.prime p -> r mod p <> 0 -> exists k, r ^ ((p - 1) * p) = 1 + p * p * k.
Proof.
  intros Hp Hr. pose proof (Z.prime_ge_2 _ Hp) as Hp2.
  pose proof (Z.fermat_nz p r Hp Hr) as Hf.
  pose proof (Z.div_mod (r ^ (p - 1)) p ltac:(lia)) as Hdm. rewrite Hf in Hdm.
  rewrite Z.pow_mul_r by lia. rewrite Hdm.
  replace (p * (r ^ (p - 1) / p) + 1) with (1 + p * (r ^ (p - 1) / p)) by ring.
  destruct (pow_one_plus p (r ^ (p - 1) / p) p ltac:(lia)) as [k ->].
  exists (r ^ (p - 1) / p + k). ring.
Qed.

Lemma l_function_form (p x t K : Z) :
  1 < p -> x = 1 + p * t + p * p * K ->
  PaillierZ.l_function (x mod (p * p)) p = t mod p.
Proof.
  intros Hp ->. unfold PaillierZ.l_function.
  pose proof (Z.mod_pos_bound t p ltac:(lia)) as Hb.
  assert ((1 + p * t + p * p * K) mod (p * p) = 1 + p * (t mod p)) as ->.
  { symmetry. apply (Z.mod_unique_pos _ _ (K + t / p)); [nia|].
    rewrite (Z.div_mod t p) at 1 by lia. ring. }
  replace (1 + p * (t mod p) - 1) with (t mod p * p) by ring.
  apply Z.div_mul. lia.
Qed.


Lemma mod_square_factor (p q c x : Z) :
  c mod (p * q * (p * q)) = x mod (p * q * (p * q)) ->
  c mod (p * p) = x mod (p * p).
Proof.
  intros H.
  destruct (Z.eq_dec (p * q) 0) as [Hz|Hz].
  { rewrite Hz in H. cbn in H. rewrite !Z.mod_0_r in H. by subst. }
  rewrite (Z.div_mod c (p * q * (p * q))) by lia.
  rewrite (Z.div_mod x (p * q * (p * q))) by lia.
  rewrite H.
  replace (p * q * (p * q) * (c / (p * q * (p * q))))
    with ((q * q * (c / (p * q * (p * q)))) * (p * p)) by ring.
  replace (p * q * (p * q) * (x / (p * q * (p * q))))
    with ((q * q * (x / (p * q * (p * q)))) * (p * p)) by ring.
  rewrite !(Z.add_comm (_ * (p * p))), !Z_mod_plus_full. done.
Qed.

(** The heart of decryption: raising a ciphertext of [a] to [p - 1] modulo
    [p * p] leaves [1 + p * (q * a * (p - 1))]. *)
Lemma l_function_ciphertext (p q c a u : Z) :
  Z.prime p -> 0 <= q -> u mod p <> 0 ->
  c mod (p * q * (p * q)) = ((1 + p * q * a) * u ^ (p * q)) mod (p * q * (p * q)) ->
  PaillierZ.l_function (PaillierZ.powmod c (p - 1) (p * p)) p = (q * a * (p - 1)) mod p.
Proof.
  intros Hp Hq Hu Hc. pose proof (Z.prime_ge_2 _ Hp) as Hp2.
  unfold PaillierZ.powmod. rewrite Zpow_mod_correct by nia.
  rewrite <- Z.mod_pow_l, (mod_square_factor _ _ _ _ Hc), Z.mod_pow_l.
  destruct (pow_one_plus (p * q) a (p - 1) ltac:(lia)) as [k1 E1].
  destruct (euler_square p u Hp Hu) as [k2 E2].
  destruct (pow_one_plus (p * p) k2 q Hq) as [k3 E3].
  apply (l_function_form p _ _
           (q * q * k1 * (1 + p * p * (k2 * q) + p * p * (p * p) * k3)
            + (1 + p * q * (a * (p - 1))) * (k2 * q + p * p * k3))); [lia|].
  rewrite Z.pow_mul_l, E1, <- Z.pow_mul_r by nia.
  replace (p * q * (p - 1)) with ((p - 1) * p * q) by ring.
  rewrite Z.pow_mul_r, E2, E3 by nia. ring.
Qed.


(** [decrypt_to_p]: the plaintext modulo [p]. *)
Lemma decrypt_to_prime (p q c a u : Z) :
  Z.prime p -> 0 <= q -> q mod p <> 0 -> u mod p <> 0 ->
  c mod (p * q * (p * q)) = ((1 + p * q * a) * u ^ (p * q)) mod (p * q * (p * q)) ->
  PaillierZ.mulmod
    (PaillierZ.l_function (PaillierZ.powmod c (p - 1) (p * p)) p)
    (PaillierZ.invert
       (PaillierZ.l_function (PaillierZ.powmod (p * q + 1) (p - 1) (p * p)) p) p) p
  = a mod p.
Proof.
  intros Hp Hq Hqp Hu Hc. pose proof (Z.prime_ge_2 _ Hp) as Hp2.
  rewrite (l_function_ciphertext p q c a u) by done.
  rewrite (l_function_ciphertext p q (p * q + 1) 1 1); [|done..| |].
  2: { rewrite Z.mod_1_l; lia. }
  2: { rewrite Z.pow_1_l by nia. f_equal. ring. }
  unfold PaillierZ.mulmod, PaillierZ.invert.
  set (x := q * 1 * (p - 1)).
  assert (x mod p <> 0) as Hx.
  { intros Hx0. apply Z.mod_divide in Hx0; [|lia]. unfold x in Hx0.
    rewrite Z.mul_1_r in Hx0.
    apply (Z.divide_prime_mul _ _ _ Hp) in Hx0 as [Hd|Hd].
    - apply Hqp. apply Z.mod_divide; [lia|done].
    - apply Z.divide_pos_le in Hd; lia. }
  pose proof (Z.invmod_prime (x mod p) p Hp) as Hinv.
  rewrite Z.mod_mod in Hinv by lia. specialize (Hinv Hx).
  rewrite Z.mul_mod_idemp_r in Hinv by lia.
  rewrite Z.mul_mod_idemp_l by lia.
  replace (q * a * (p - 1) * Z.invmod (x mod p) p)
    with (a * (Z.invmod (x mod p) p * x)) by (unfold x; ring).
  rewrite <- Z.mul_mod_idemp_r, Hinv, Z.mul_1_r by lia. done.
Qed.

(** [crt] rebuilds a number below [p * q] from its two residues. *)
Lemma crt_correct (p q a : Z) :
  0 < p -> Z.prime q -> p mod q <> 0 -> 0 <= a < p * q ->
  a mod p + ((a mod q - a mod p) * Z.invmod p q) mod q * p = a.
Proof.
  intros Hp Hq Hpq Ha. pose proof (Z.prime_ge_2 _ Hq) as Hq2.
  pose proof (Z.invmod_prime p q Hq Hpq) as Hinv.
  assert (0 <= a / p < q) as Hs.
  { split; [apply Z.div_pos; lia|]. apply Z.div_lt_upper_bound; lia. }
  assert (((a mod q - a mod p) * Z.invmod p q) mod q = a / p) as ->.
  { rewrite <- (Z.mul_mod_idemp_l (a mod q - a mod p)) by lia.
    rewrite (Zminus_mod_idemp_l a), Z.mul_mod_idemp_l by lia.
    replace (a - a mod p) with (p * (a / p)) by (pose proof (Z.div_mod a p ltac:(lia)); lia).
    replace (p * (a / p) * Z.invmod p q) with (a / p * (Z.invmod p q * p)) by ring.
    rewrite <- Z.mul_mod_idemp_r, Hinv, Z.mul_1_r by lia.
    apply Z.mod_small. done. }
  pose proof (Z.div_mod a p ltac:(lia)). lia.
Qed.


Lemma unit_mod_factor (u p q : Z) :
  1 < p -> Z.gcd u (p * q) = 1 -> u mod p <> 0.
Proof.
  intros Hp Hg Hu. apply Z.mod_divide in Hu; [|lia].
  assert ((p | 1)) as Hd.
  { rewrite <- Hg. apply Z.gcd_greatest; [done|]. apply Z.divide_factor_l. }
  apply Z.divide_pos_le in Hd; lia.
Qed.

Lemma distinct_primes_mod (p q : Z) :
  Z.prime p -> Z.prime q -> p <> q -> q mod p <> 0.
Proof.
  intros Hp Hq Hne Hm. pose proof (Z.prime_ge_2 _ Hp). pose proof (Z.prime_ge_2 _ Hq).
  apply Z.mod_divide in Hm; [|lia].
  apply (Z.divide_prime_r _ _ Hq) in Hm. lia.
Qed.

Lemma raw_decrypt_correct pk sk c a :
  PaillierZ.valid_keypair pk sk -> PaillierZ.encrypts pk c a -> 0 <= a < PaillierZ.n pk ->
  PaillierZ.raw_decrypt sk c = a.
Proof.
  intros (Hpk & Hp & Hq & Hne & Hn) (u & Hu & Hc) Ha.
  pose proof (Z.prime_ge_2 _ Hp). pose proof (Z.prime_ge_2 _ Hq).
  unfold PaillierZ.nsquare in Hc. rewrite Hn in Hu, Hc, Ha.
  unfold PaillierZ.raw_decrypt, PaillierZ.crt, PaillierZ.h_function.
  rewrite Hpk, Hn.
  rewrite (decrypt_to_prime _ _ c a u); [|done|lia| | |done].
  2: by apply distinct_primes_mod.
  2: by apply (unit_mod_factor u _ (PaillierZ.q sk)); [lia|].
  replace (PaillierZ.p sk * PaillierZ.q sk) with (PaillierZ.q sk * PaillierZ.p sk) in * by ring.
  rewrite (decrypt_to_prime _ _ c a u); [|done|lia| | |done].
  2: by apply distinct_primes_mod.
  2: by apply (unit_mod_factor u _ (PaillierZ.p sk)); [lia|].
  unfold PaillierZ.mulmod, PaillierZ.invert.
  apply crt_correct; [lia|done| |lia].
  by apply distinct_primes_mod.
Qed.

Lemma max_int_bound pk : 0 <= PaillierZ.max_int pk -> 2 * PaillierZ.max_int pk < PaillierZ.n pk.
Proof.
  unfold PaillierZ.max_int. intros H.
  pose proof (Z.mul_div_le (PaillierZ.n pk) 3 ltac:(lia)). lia.
Qed.

Lemma encode_small pk m :
  0 <= m <= PaillierZ.max_int pk -> PaillierZ.encode pk m = Ok m.
Proof.
  intros Hm. pose proof (max_int_bound pk ltac:(lia)).
  unfold PaillierZ.encode. rewrite bool_decide_eq_false_2 by lia.
  rewrite Z.mod_small by lia. done.
Qed.

Lemma decode_small pk m :
  0 <= m <= PaillierZ.max_int pk -> PaillierZ.decode pk m = Ok m.
Proof.
  intros Hm. pose proof (max_int_bound pk ltac:(lia)).
  unfold PaillierZ.decode. rewrite bool_decide_eq_false_2 by lia.
  rewrite bool_decide_eq_true_2 by lia. done.
Qed.

Lemma get_random_lt_n_unit pk raw :
  Z.gcd (PaillierZ.get_random_lt_n pk raw) (PaillierZ.n pk) = 1.
Proof.
  unfold PaillierZ.get_random_lt_n. case_bool_decide; [done|apply Z.gcd_1_l].
Qed.

Lemma encrypt_encrypts pk m raw :
  0 <= m <= PaillierZ.max_int pk ->
  exists c, PaillierZ.encrypt pk m raw = Ok (PaillierZ.mkEncryptedNumber pk c) /\
            PaillierZ.encrypts pk c m.
Proof.
  intros Hm. pose proof (max_int_bound pk ltac:(lia)) as Hn.
  unfold PaillierZ.encrypt. rewrite encode_small by done. cbn.
  eexists; split; [done|].
  exists (PaillierZ.get_random_lt_n pk raw). split; [apply get_random_lt_n_unit|].
  assert (PaillierZ.nsquare pk <> 0) by (unfold PaillierZ.nsquare; nia).
  unfold PaillierZ.raw_encrypt. rewrite bool_decide_eq_false_2 by lia.
  unfold PaillierZ.mulmod, PaillierZ.powmod.
  rewrite Zpow_mod_correct, Z.mod_mod, <- Z.mul_mod by done.
  f_equal. ring.
Qed.

Lemma mul_encrypts pk c a k :
  PaillierZ.encrypts pk c a -> 0 <= k <= PaillierZ.max_int pk ->
  exists c', PaillierZ.mul (PaillierZ.mkEncryptedNumber pk c) k
             = Ok (PaillierZ.mkEncryptedNumber pk c') /\
             PaillierZ.encrypts pk c' (k * a).
Proof.
  intros (u & Hu & Hc) Hk. pose proof (max_int_bound pk ltac:(lia)) as Hn.
  assert (PaillierZ.nsquare pk <> 0) as Hsq by (unfold PaillierZ.nsquare; nia).
  unfold PaillierZ.mul, PaillierZ.raw_mul. cbn. rewrite encode_small by done. cbn.
  rewrite bool_decide_eq_false_2 by lia. rewrite bool_decide_eq_false_2 by lia. cbn.
  eexists; split; [done|].
  exists (u ^ k). split; [apply Z.coprime_pow_l; [lia|done]|].
  unfold PaillierZ.powmod. rewrite Zpow_mod_correct, Z.mod_mod by done.
  rewrite <- Z.mod_pow_l, Hc, Z.mod_pow_l.
  destruct (pow_one_plus (PaillierZ.n pk) a k ltac:(lia)) as [K E].
  rewrite Z.pow_mul_l, E, <- !Z.pow_mul_r by lia.
  rewrite (Z.mul_comm k (PaillierZ.n pk)).
  replace ((1 + PaillierZ.n pk * (a * k) + PaillierZ.n pk * PaillierZ.n pk * K)
           * u ^ (PaillierZ.n pk * k))
    with ((1 + PaillierZ.n pk * (k * a)) * u ^ (PaillierZ.n pk * k)
          + K * u ^ (PaillierZ.n pk * k) * PaillierZ.nsquare pk)
    by (unfold PaillierZ.nsquare; ring).
  apply Z_mod_plus_full.
Qed.

Lemma prime_by_trial (x : Z) :
  1 < x -> PaillierZ.no_divisor x = true -> Z.prime x.
Proof.
  intros Hx Hc. split; [done|]. intros d Hd Hdiv.
  unfold PaillierZ.no_divisor in Hc. rewrite forallb_forall in Hc.
  specialize (Hc d). rewrite <- list_elem_of_In, elem_of_seqZ in Hc.
  specialize (Hc ltac:(lia)).
  apply Z.mod_divide in Hdiv; [|lia]. rewrite Hdiv in Hc. done.
Qed.

Lemma generated_valid seed :
  PaillierZ.valid_keypair (PaillierZ.generate_paillier_keypair seed).1
                          (PaillierZ.generate_paillier_keypair seed).2.
Proof.
  unfold PaillierZ.generate_paillier_keypair, PaillierZ.primes.
  destruct (Z.even seed); cbn;
    repeat split; try apply prime_by_trial; by vm_compute.
Qed.

Lemma generated_capacity seed :
  999999 <= PaillierZ.max_int (PaillierZ.generate_paillier_keypair seed).1.
Proof.
  unfold PaillierZ.generate_paillier_keypair, PaillierZ.primes.
  destruct (Z.even seed); by vm_compute.
Qed.

Lemma PaillierZ_encrypt_total pk m r :
  0 <= m <= PaillierZ.max_int pk -> exists ct, PaillierZ.encrypt pk m r = Ok ct.
Proof. intros Hm. destruct (encrypt_encrypts pk m r Hm) as (c & E & _). eauto. Qed.

Lemma decrypt_encrypts pk sk c a :
  PaillierZ.valid_keypair pk sk -> PaillierZ.encrypts pk c a ->
  0 <= a <= PaillierZ.max_int pk ->
  PaillierZ.decrypt sk (PaillierZ.mkEncryptedNumber pk c) = Ok a.
Proof.
  intros Hv He Ha. pose proof (max_int_bound pk ltac:(lia)) as Hn.
  assert (PaillierZ.public_key sk = pk) as Hpk by apply Hv.
  unfold PaillierZ.decrypt. cbn.
  rewrite bool_decide_eq_false_2 by (rewrite Hpk; intros Hne; by apply Hne).
  assert (0 <= a < PaillierZ.n pk) as Hrange by lia.
  rewrite (raw_decrypt_correct pk sk c a Hv He Hrange), Hpk. by apply decode_small.
Qed.

Lemma PaillierZ_decrypt_encrypt seed m r ct :
  0 <= m <= PaillierZ.max_int (PaillierZ.generate_paillier_keypair seed).1 ->
  PaillierZ.encrypt (PaillierZ.generate_paillier_keypair seed).1 m r = Ok ct ->
  PaillierZ.decrypt (PaillierZ.generate_paillier_keypair seed).2 ct = Ok m.
Proof.
  intros Hm E. destruct (encrypt_encrypts _ m r Hm) as (c & E' & He).
  rewrite E' in E. injection E as <-.
  apply decrypt_encrypts; [apply generated_valid|done..].
Qed.

Lemma PaillierZ_decrypt_mul seed m r ct k :
  0 <= m <= PaillierZ.max_int (PaillierZ.generate_paillier_keypair seed).1 ->
  PaillierZ.encrypt (PaillierZ.generate_paillier_keypair seed).1 m r = Ok ct ->
  0 <= k <= PaillierZ.max_int (PaillierZ.generate_paillier_keypair seed).1 ->
  k * m <= PaillierZ.max_int (PaillierZ.generate_paillier_keypair seed).1 ->
  exists ct', PaillierZ.mul ct k = Ok ct' /\
              PaillierZ.decrypt (PaillierZ.generate_paillier_keypair seed).2 ct' = Ok (k * m).
Proof.
  intros Hm E Hk Hkm. destruct (encrypt_encrypts _ m r Hm) as (c & E' & He).
  rewrite E' in E. injection E as <-.
  destruct (mul_encrypts _ c m k He Hk) as (c' & Em & He').
  eexists; split; [done|].
  apply decrypt_encrypts; [apply generated_valid|done|nia].
Qed.

End paillier_correct.

(** The integer Paillier scheme implements the interface. *)
#[global] Instance PaillierZ_scheme : paillier.Scheme := {|
  paillier.PublicKey := PaillierZ.PublicKey;
  paillier.PrivateKey := PaillierZ.PrivateKey;
  paillier.EncryptedNumber := PaillierZ.EncryptedNumber;
  paillier.generate_paillier_keypair := PaillierZ.generate_paillier_keypair;
  paillier.max_int := PaillierZ.max_int;
  paillier.encrypt := PaillierZ.encrypt;
  paillier.mul := PaillierZ.mul;
  paillier.decrypt := PaillierZ.decrypt;
  paillier.keypair_capacity := generated_capacity;
  paillier.encrypt_total := PaillierZ_encrypt_total;
  paillier.decrypt_encrypt := PaillierZ_decrypt_encrypt;
  paillier.decrypt_mul := PaillierZ_decrypt_mul
|}.

(** * The placement of the fleet, the protocol and the game loop *)

Lemma bind_Ok {B C} (m : res B) (f : B -> res C) (c : C) :
  m ≫= f = Ok c <-> exists x, m = Ok x /\ f x = Ok c.
Proof.
  destruct m as [x| |]; cbn; (split; [intros H|intros (y & H & H')]); try done.
  - by exists x.
  - by injection H as ->.
Qed.

Lemma bind_Ok_l {B C} (x : B) (f : B -> res C) : Ok x ≫= f = f x.
Proof. done. Qed.

Lemma getitem_lookup {A} (l : list A) (i : Z) a :
  0 <= i -> l !! Z.to_nat i = Some a -> getitem l i = Ok a.
Proof.
  intros Hi Hl. pose proof (lookup_lt_Some _ _ _ Hl).
  unfold getitem, py_index. rewrite bool_decide_eq_true_2 by lia. cbn. by rewrite Hl.
Qed.

Lemma setitem_insert {A} (l : list A) (i : Z) v :
  0 <= i < Z.of_nat (length l) -> setitem l i v = Ok (<[Z.to_nat i := v]> l).
Proof.
  intros Hi. unfold setitem, py_index. by rewrite bool_decide_eq_true_2 by lia.
Qed.

Lemma py_index_nonneg len (i : Z) n :
  py_index len i = Ok n -> 0 <= i -> n = Z.to_nat i /\ (n < len)%nat.
Proof.
  unfold py_index. intros H Hi. case_bool_decide as H1.
  - injection H as <-. lia.
  - rewrite bool_decide_eq_false_2 in H by lia. done.
Qed.

Lemma getitem_Ok_lookup {A} (l : list A) (i : Z) a :
  getitem l i = Ok a -> 0 <= i -> l !! Z.to_nat i = Some a.
Proof.
  unfold getitem. intros (n & Hn & H)%bind_Ok Hi.
  apply py_index_nonneg in Hn as [-> _]; [|done].
  destruct (l !! Z.to_nat i); [by injection H as ->|done].
Qed.

Section grids.
Context {A : Type}.
Implicit Types (b : list (list A)) (l : list A).

Lemma grid10_row b (r : Z) :
  grid10 b -> 0 <= r <= 9 -> exists row, b !! Z.to_nat r = Some row /\ length row = 10%nat.
Proof.
  intros [Hl Hrows] Hr.
  destruct (lookup_lt_is_Some_2 b (Z.to_nat r) ltac:(lia)) as [row Hrow].
  exists row. split; [done|]. by apply (Forall_lookup_1 _ _ _ _ Hrows Hrow).
Qed.

Lemma cell_is_Some b rc : grid10 b -> in_grid rc -> is_Some (cell b rc).
Proof.
  intros Hg [Hr Hc]. destruct (grid10_row b rc.1 Hg Hr) as (row & Hrow & Hlen).
  unfold cell. rewrite Hrow. cbn. apply lookup_lt_is_Some_2. lia.
Qed.

Lemma getitem2_cell b (r c : Z) v :
  0 <= r -> 0 <= c -> cell b (r, c) = Some v -> getitem2 b r c = Ok v.
Proof.
  unfold cell, getitem2. cbn. intros Hr Hc H.
  destruct (b !! Z.to_nat r) as [row|] eqn:Hrow; [|done]. cbn in H.
  rewrite (getitem_lookup _ _ _ Hr Hrow). cbn. by apply getitem_lookup.
Qed.

Lemma setitem2_grid b (r c : Z) v :
  grid10 b -> in_grid (r, c) ->
  exists b', setitem2 b r c v = Ok b' /\ grid10 b' /\
    forall rc, in_grid rc -> cell b' rc = if decide (rc = (r, c)) then Some v else cell b rc.
Proof.
  intros Hg [Hr Hc]. cbn in Hr, Hc.
  destruct (grid10_row b r Hg Hr) as (row & Hrow & Hlen).
  exists (<[Z.to_nat r := <[Z.to_nat c := v]> row]> b).
  destruct Hg as [Hl Hrows]. split; [|split].
  - unfold setitem2. rewrite (getitem_lookup _ _ _ (proj1 Hr) Hrow). cbn.
    rewrite setitem_insert by lia. cbn. apply setitem_insert. lia.
  - split; [by rewrite length_insert|].
    apply Forall_insert; [done|]. by rewrite length_insert.
  - intros [r' c'] [Hr' Hc']. cbn in Hr', Hc'. unfold cell. cbn.
    destruct (decide ((r', c') = (r, c))) as [[= -> ->]|Hne].
    + rewrite list_lookup_insert_eq by lia. cbn. apply list_lookup_insert_eq. lia.
    + destruct (decide (r' = r)) as [->|Hr''].
      * rewrite list_lookup_insert_eq by lia. cbn. rewrite Hrow. cbn.
        apply list_lookup_insert_ne. intros ?. apply Hne. f_equal. lia.
      * rewrite list_lookup_insert_ne by lia. done.
Qed.

End grids.

Lemma getitem2_Ok_cell {A} (b : list (list A)) (r c : Z) v :
  getitem2 b r c = Ok v -> 0 <= r -> 0 <= c -> cell b (r, c) = Some v.
Proof.
  unfold getitem2, cell. intros (row & Hrow & Hv)%bind_Ok Hr Hc. cbn.
  rewrite (getitem_Ok_lookup _ _ _ Hrow Hr). cbn. by apply getitem_Ok_lookup.
Qed.

Lemma setitem2_Ok_cell {A} (b b' : list (list A)) (r c : Z) v :
  setitem2 b r c v = Ok b' -> 0 <= r -> 0 <= c ->
  forall rc, 0 <= rc.1 -> 0 <= rc.2 ->
    cell b' rc = if decide (rc = (r, c)) then Some v else cell b rc.
Proof.
  unfold setitem2, setitem. intros (row & Hrow & H)%bind_Ok Hr Hc.
  apply bind_Ok in H as (row' & Hrow' & H).
  apply bind_Ok in Hrow' as (nc & Hnc & [= <-]).
  apply bind_Ok in H as (nr & Hnr & [= <-]).
  apply py_index_nonneg in Hnc as [-> Hclen]; [|done].
  apply py_index_nonneg in Hnr as [-> Hrlen]; [|done].
  apply getitem_Ok_lookup in Hrow; [|done].
  intros [r' c'] Hr' Hc'. cbn in Hr', Hc'. unfold cell. cbn.
  destruct (decide ((r', c') = (r, c))) as [[= -> ->]|Hne].
  - rewrite list_lookup_insert_eq by done. cbn. by apply list_lookup_insert_eq.
  - destruct (decide (r' = r)) as [->|Hr''].
    + rewrite list_lookup_insert_eq by done. cbn. rewrite Hrow. cbn.
      apply list_lookup_insert_ne. intros ?. apply Hne. f_equal. lia.
    + by rewrite list_lookup_insert_ne by lia.
Qed.

Lemma filter_agree {X} (P Q : X -> Prop) `{!∀ x, Decision (P x)} `{!∀ x, Decision (Q x)}
    (l : list X) :
  (forall y, y ∈ l -> (P y <-> Q y)) -> filter P l = filter Q l.
Proof.
  induction l as [|y l IH]; intros Hall; [done|].
  rewrite !filter_cons. rewrite IH by (intros; apply Hall; by right).
  destruct (decide (P y)) as [HP|HP], (decide (Q y)) as [HQ|HQ]; try done.
  - destruct HQ. apply Hall; [by left|done].
  - destruct HP. apply Hall; [by left|done].
Qed.

Lemma filter_length_flip {X} `{!EqDecision X} (P Q : X -> Prop)
    `{!∀ x, Decision (P x)} `{!∀ x, Decision (Q x)} (l : list X) (x : X) :
  NoDup l -> x ∈ l -> ~ P x -> Q x ->
  (forall y, y ∈ l -> y ≠ x -> (P y <-> Q y)) ->
  length (filter Q l) = S (length (filter P l)).
Proof.
  intros Hnd Hx HP HQ Hrest. induction Hnd as [|y l Hy Hnd IH]; [by inversion Hx|].
  rewrite !filter_cons.
  destruct (decide (y = x)) as [->|Hne].
  - rewrite decide_True by done. rewrite decide_False by done. cbn. f_equal.
    f_equal. apply filter_agree. intros z Hz. symmetry.
    apply Hrest; [by right|by intros ->].
  - assert (x ∈ l) as Hxl by (by inversion Hx; subst).
    specialize (IH Hxl ltac:(intros; apply Hrest; [by right|done])).
    assert (P y <-> Q y) as Hy' by (apply Hrest; [by left|done]).
    destruct (decide (P y)) as [Hpy|Hpy], (decide (Q y)) as [Hqy|Hqy]; cbn.
    + by rewrite IH.
    + destruct Hqy. by apply Hy'.
    + destruct Hpy. by apply Hy'.
    + done.
Qed.

Lemma elem_of_cells rc : rc ∈ Player.cells <-> in_grid rc.
Proof.
  unfold Player.cells, in_grid. destruct rc as [r c]. cbn. split.
  - intros (row & Hin & Hrow)%list_elem_of_bind.
    apply list_elem_of_bind in Hin as (col & Hin & Hcol).
    apply list_elem_of_singleton in Hin as [= -> ->].
    apply elem_of_seqZ in Hrow, Hcol. lia.
  - intros [Hr Hc]. apply list_elem_of_bind. exists r. split; [|apply elem_of_seqZ; lia].
    apply list_elem_of_bind. exists c. split; [|apply elem_of_seqZ; lia].
    by apply list_elem_of_singleton.
Qed.

Lemma NoDup_cells : NoDup Player.cells.
Proof. apply (bool_decide_unpack _). by vm_compute. Qed.

Lemma all_water_spec b cs :
  grid10 b -> Forall in_grid cs ->
  exists free, Player.all_water b cs = Ok free /\
    (free = true <-> forall rc, rc ∈ cs -> cell b rc = Some 0).
Proof.
  intros Hg. induction 1 as [|[r c] cs Hrc Hcs IH].
  - exists true. split; [done|]. split; [|done]. intros _ rc Hin. by inversion Hin.
  - destruct (cell_is_Some b (r, c) Hg Hrc) as [v Hv]. cbn.
    rewrite (getitem2_cell b r c v) by (done || apply Hrc). cbn.
    case_bool_decide as Hv0.
    + subst v. destruct IH as (free & -> & Hfree). exists free. split; [done|].
      rewrite Hfree. split.
      * intros H rc [->|Hin]%elem_of_cons; [done|by apply H].
      * intros H rc Hin. apply H. by right.
    + exists false. split; [done|]. split; [done|]. intros H.
      specialize (H (r, c) ltac:(by left)). congruence.
Qed.

Lemma mark_cells_spec b cs :
  grid10 b -> Forall in_grid cs -> NoDup cs ->
  (forall rc, rc ∈ cs -> cell b rc = Some 0) ->
  exists b', Player.mark_cells b cs = Ok b' /\ grid10 b' /\
    (forall rc, in_grid rc ->
       cell b' rc = if decide (rc ∈ cs) then Some 1 else cell b rc) /\
    length (occupied b') = (length (occupied b) + length cs)%nat.
Proof.
  intros Hg Hcs. revert b Hg. induction Hcs as [|[r c] cs Hrc Hcs IH]; intros b Hg Hnd Hw.
  - exists b. split; [done|]. split; [done|]. split; [|cbn; lia].
    intros rc _. rewrite decide_False; [done|]. by intros ?%elem_of_nil.
  - apply NoDup_cons in Hnd as [Hnotin Hnd].
    destruct (setitem2_grid b r c 1 Hg Hrc) as (b1 & Hset & Hg1 & Hcell1).
    destruct (IH b1 Hg1 Hnd) as (b' & Hmark & Hg' & Hcell' & Hcount).
    { intros rc Hin. rewrite Hcell1 by (by eapply Forall_forall in Hcs).
      rewrite decide_False by (by intros ->). apply Hw. by right. }
    exists b'. split; [cbn; by rewrite Hset|]. split; [done|]. split.
    + intros rc Hrc'. rewrite Hcell' by done.
      destruct (decide (rc ∈ cs)) as [Hin|Hin].
      * rewrite decide_True; [done|by right].
      * rewrite Hcell1 by done. destruct (decide (rc = (r, c))) as [->|Hne].
        -- rewrite decide_True; [done|by left].
        -- rewrite decide_False; [done|]. by intros [?|?]%elem_of_cons.
    + rewrite Hcount. cbn. unfold occupied.
      rewrite (filter_length_flip (fun rc => cell b rc = Some 1)
                 (fun rc => cell b1 rc = Some 1) Player.cells (r, c)); [lia|..].
      * apply NoDup_cells.
      * by apply elem_of_cells.
      * rewrite (Hw (r, c)) by (by left). done.
      * rewrite Hcell1 by done. by rewrite decide_True.
      * intros rc Hin%elem_of_cells Hne. rewrite Hcell1 by done.
        by rewrite decide_False.
Qed.

Lemma place_spec s row col horizontal :
  Ship.place s row col horizontal
  = (Ship.set_coordinates s (span row col horizontal <$> seqZ 0 (Ship.size s)),
     span row col horizontal <$> seqZ 0 (Ship.size s)).
Proof.
  unfold Ship.place.
  assert (forall l acc,
    foldl (fun acc i => if horizontal then acc ++ [(row, col + i)]
                        else acc ++ [(row + i, col)]) acc l
    = acc ++ (span row col horizontal <$> l)) as Hfold.
  { induction l as [|i l IH]; intros acc; cbn; [by rewrite app_nil_r|].
    rewrite IH. unfold span. destruct horizontal; by rewrite <- app_assoc. }
  by rewrite Hfold.
Qed.

Lemma span_length row col horizontal size :
  length (span row col horizontal <$> seqZ 0 size) = Z.to_nat size.
Proof. by rewrite length_fmap, length_seqZ. Qed.

Lemma span_NoDup row col horizontal size :
  NoDup (span row col horizontal <$> seqZ 0 size).
Proof.
  apply NoDup_fmap_2_strong; [|apply NoDup_seqZ].
  intros i j _ _. unfold span. destruct horizontal; intros [= ?]; lia.
Qed.

Lemma span_in_grid row col horizontal size :
  0 <= row -> 0 <= col ->
  (if horizontal : bool then row <= 9 /\ col + size <= 10
   else row + size <= 10 /\ col <= 9) ->
  Forall in_grid (span row col horizontal <$> seqZ 0 size).
Proof.
  intros Hr Hc Hh. apply Forall_fmap, Forall_forall. intros i Hi%elem_of_seqZ.
  unfold span, in_grid. destruct horizontal; cbn; lia.
Qed.

Lemma randint_spec a b g :
  a <= b ->
  exists v, randint a b g = Ok (v, mkRandom (draws g) (S (cursor g))) /\ a <= v <= b.
Proof.
  intros Hab. unfold randint, next_raw. rewrite bool_decide_eq_false_2 by lia.
  eexists; split; [done|]. pose proof (Z.mod_pos_bound (draws g (cursor g)) (b - a + 1)). lia.
Qed.

(** Every number of the range is drawn from some state of the generator. *)
Lemma randint_onto a b v :
  a <= v <= b -> randint a b (mkRandom (fun _ => v - a) 0) = Ok (v, mkRandom (fun _ => v - a) 1).
Proof.
  intros Hv. unfold randint, next_raw. rewrite bool_decide_eq_false_2 by lia. cbn.
  rewrite Z.mod_small by lia. do 2 f_equal. lia.
Qed.

Lemma draw_placement_spec size g :
  1 <= size <= 10 ->
  exists horizontal row col,
    Player.draw_placement size g
    = Ok (horizontal, row, col, mkRandom (draws g) (3 + cursor g)) /\
    0 <= row /\ 0 <= col /\
    (if horizontal : bool then row <= 9 /\ col + size <= 10
     else row + size <= 10 /\ col <= 9).
Proof.
  intros Hs. unfold Player.draw_placement, choice, next_raw. cbn [length].
  pose proof (Z.mod_pos_bound (draws g (cursor g)) (Z.of_nat 2) ltac:(lia)) as Hb.
  assert (Z.to_nat (draws g (cursor g) `mod` Z.of_nat 2) = 0%nat \/
          Z.to_nat (draws g (cursor g) `mod` Z.of_nat 2) = 1%nat) as [->| ->] by lia; cbn.
  - destruct (randint_spec 0 9 (mkRandom (draws g) (S (cursor g))) ltac:(lia))
      as (row & -> & Hrow). cbn.
    destruct (randint_spec 0 (10 - size) (mkRandom (draws g) (S (S (cursor g)))) ltac:(lia))
      as (col & -> & Hcol). cbn.
    exists true, row, col. split; [done|]. lia.
  - destruct (randint_spec 0 (10 - size) (mkRandom (draws g) (S (cursor g))) ltac:(lia))
      as (row & -> & Hrow). cbn.
    destruct (randint_spec 0 9 (mkRandom (draws g) (S (S (cursor g)))) ltac:(lia))
      as (col & -> & Hcol). cbn.
    exists false, row, col. split; [done|]. lia.
Qed.

Section placement.
Context {phe : paillier.Scheme}.
Implicit Types (p : Player.t) (s : Ship.t).

Lemma same_rest_refl p : same_rest p p.
Proof. by repeat split. Qed.

Lemma same_rest_trans p1 p2 p3 : same_rest p1 p2 -> same_rest p2 p3 -> same_rest p1 p3.
Proof. unfold same_rest. intros H1 H2. intuition congruence. Qed.

Lemma fleet_size p k s :
  Ship.size <$> Player.ships p = Ship.size <$> Player.fleet ->
  Player.ships p !! k = Some s -> 1 <= Ship.size s <= 10 /\ (k < 5)%nat.
Proof.
  intros Hsz Hk.
  assert ((Ship.size <$> Player.ships p) !! k = Some (Ship.size s)) as H
    by (by rewrite list_lookup_fmap, Hk).
  rewrite Hsz in H. cbn in H.
  do 5 (destruct k as [|k]; [injection H as <-; lia|]). done.
Qed.

Lemma retry_ships p k s cs :
  Player.ships p !! k = Some s ->
  let ss := <[k := Ship.set_coordinates s cs]> (Player.ships p) in
  Ship.name <$> ss = Ship.name <$> Player.ships p /\
  Ship.size <$> ss = Ship.size <$> Player.ships p /\
  Ship.hits <$> ss = Ship.hits <$> Player.ships p /\
  (forall i, i ≠ k -> ss !! i = Player.ships p !! i) /\
  ss !! k = Some (Ship.set_coordinates s cs).
Proof.
  intros Hk ss. unfold ss. rewrite !list_fmap_insert. cbn.
  rewrite !list_insert_id by (by rewrite list_lookup_fmap, Hk).
  repeat split; try done.
  - intros i Hi. by apply list_lookup_insert_ne.
  - apply list_lookup_insert_eq. by eapply lookup_lt_Some.
Qed.

(** A failed attempt only rewrites the coordinates of the ship being placed. *)
Lemma layout_retry k p s cs :
  layout k p -> Player.ships p !! k = Some s ->
  layout k (Player.set_ships p (<[k := Ship.set_coordinates s cs]> (Player.ships p))).
Proof.
  intros [Hg Hn Hs Hc Hb Ho Hd Hcnt] Hk.
  destruct (retry_ships p k s cs Hk) as (Hn' & Hs' & _ & Hother & _).
  split; cbn.
  - done.
  - by rewrite Hn'.
  - by rewrite Hs'.
  - intros i t Hi Ht. rewrite Hother in Ht by lia. by eapply Hc.
  - done.
  - intros rc Hrc. rewrite (Ho rc Hrc). split; intros (i & t & Hi & Ht & Hin);
      exists i, t; (split; [done|]); (split; [|done]).
    + by rewrite Hother by lia.
    + by rewrite Hother in Ht by lia.
  - intros i j t u rc Hi Hj Ht Hu. rewrite Hother in Ht, Hu by lia. by eapply Hd.
  - by rewrite Hs'.
Qed.

(** A successful attempt: the cells were water and are now marked. *)
Lemma layout_place k p s cs b' :
  layout k p -> Player.ships p !! k = Some s ->
  NoDup cs -> length cs = Z.to_nat (Ship.size s) -> Forall in_grid cs ->
  (forall rc, rc ∈ cs -> cell (Player.board p) rc = Some 0) ->
  grid10 b' ->
  (forall rc, in_grid rc ->
     cell b' rc = if decide (rc ∈ cs) then Some 1 else cell (Player.board p) rc) ->
  length (occupied b') = (length (occupied (Player.board p)) + length cs)%nat ->
  layout (S k)
    (Player.set_board
       (Player.set_ships p (<[k := Ship.set_coordinates s cs]> (Player.ships p))) b').
Proof.
  intros [Hg Hn Hs Hc Hb Ho Hd Hcnt] Hk Hnd Hlen Hin Hwater Hg' Hcell' Hcount.
  destruct (retry_ships p k s cs Hk) as (Hn' & Hs' & _ & Hother & Hnew).
  destruct (fleet_size p k s Hs Hk) as [Hsize _].
  assert (forall rc i t, (i < k)%nat -> Player.ships p !! i = Some t ->
            rc ∈ Ship.coordinates t -> rc ∉ cs) as Hfresh.
  { intros rc i t Hi Ht Hrc Hrc'.
    assert (in_grid rc) as Hgr.
    { destruct (Hc i t Hi Ht) as (_ & _ & Hall). by eapply Forall_forall in Hall. }
    pose proof (Hwater rc Hrc') as Hw.
    assert (cell (Player.board p) rc = Some 1) as H1 by (apply Ho; [done|]; eauto).
    congruence. }
  split; cbn.
  - done.
  - by rewrite Hn'.
  - by rewrite Hs'.
  - intros i t Hi Ht. destruct (decide (i = k)) as [->|Hne].
    + rewrite Hnew in Ht. injection Ht as <-. cbn. done.
    + rewrite Hother in Ht by done. apply (Hc i); [lia|done].
  - intros rc Hrc. rewrite Hcell' by done. destruct (decide (rc ∈ cs)); [by right|by apply Hb].
  - intros rc Hrc. rewrite Hcell' by done. destruct (decide (rc ∈ cs)) as [Hcs|Hcs].
    + split; [|done]. intros _. exists k, (Ship.set_coordinates s cs). by repeat split; [lia|..].
    + rewrite (Ho rc Hrc). split.
      * intros (i & t & Hi & Ht & Hrc'). exists i, t. split; [lia|].
        by rewrite Hother by lia.
      * intros (i & t & Hi & Ht & Hrc'). destruct (decide (i = k)) as [->|Hne].
        -- rewrite Hnew in Ht. injection Ht as <-. done.
        -- rewrite Hother in Ht by done. exists i, t. split; [lia|done].
  - intros i j t u rc Hi Hj Ht Hu Hrt Hru.
    destruct (decide (i = k)) as [->|Hik], (decide (j = k)) as [->|Hjk]; [done|..].
    + rewrite Hnew in Ht. injection Ht as <-. rewrite Hother in Hu by done.
      destruct (Hfresh rc j u ltac:(lia) Hu Hru). done.
    + rewrite Hnew in Hu. injection Hu as <-. rewrite Hother in Ht by done.
      destruct (Hfresh rc i t ltac:(lia) Ht Hrt). done.
    + rewrite Hother in Ht, Hu by done. apply (Hd i j t u rc); (lia || done).
  - rewrite Hcount, Hcnt, Hlen, Hs'.
    rewrite (take_S_r _ _ (Ship.size s)) by (by rewrite list_lookup_fmap, Hk).
    rewrite foldr_app. cbn.
    assert (forall l a, foldr Z.add a l = foldr Z.add 0 l + a) as Hsum.
    { induction l as [|x l IH]; intros a; cbn; [lia|]. rewrite IH. lia. }
    rewrite (Hsum _ (Ship.size s + 0)).
    assert (0 <= foldr Z.add 0 (take k (Ship.size <$> Player.ships p))) as Hpos.
    { rewrite Hs. clear. do 6 (destruct k as [|k]; [by vm_compute|]). by vm_compute. }
    lia.
Qed.

Lemma place_ship_random_run fuel : forall p k s g,
  layout k p -> Player.ships p !! k = Some s ->
  (blocked fuel (Player.board p) (Ship.size s) g /\
   Player.place_ship_random fuel p k g = OutOfFuel) \/
  (~ blocked fuel (Player.board p) (Ship.size s) g /\
   exists p' g', Player.place_ship_random fuel p k g = Ok (p', g') /\
                 layout (S k) p' /\ same_rest p p').
Proof.
  induction fuel as [|fuel IH]; intros p k s g Hlay Hk; [by left|].
  destruct (fleet_size p k s (layout_sizes _ _ Hlay) Hk) as [Hsize Hk5].
  destruct (draw_placement_spec (Ship.size s) g Hsize)
    as (h & row & col & Hdraw & Hrow & Hcol & Hfit).
  set (cs := span row col h <$> seqZ 0 (Ship.size s)).
  set (p1 := Player.set_ships p (<[k := Ship.set_coordinates s cs]> (Player.ships p))).
  assert (Forall in_grid cs) as Hin by (by apply span_in_grid).
  destruct (all_water_spec (Player.board p) cs (layout_grid _ _ Hlay) Hin)
    as (free & Hfree & Hfree_iff).
  assert (same_rest p p1) as Hrest.
  { destruct (retry_ships p k s cs Hk) as (_ & _ & Hh & _). by repeat split. }
  assert (Player.place_ship_random (S fuel) p k g
          = if free then b ← Player.mark_cells (Player.board p) cs;
                         Ok (Player.set_board p1 b, mkRandom (draws g) (3 + cursor g))
            else Player.place_ship_random fuel p1 k (mkRandom (draws g) (3 + cursor g)))
    as ->.
  { cbn [Player.place_ship_random].
    rewrite (getitem_lookup _ _ s) by (lia || by rewrite Nat2Z.id).
    rewrite bind_Ok_l, Hdraw, bind_Ok_l. cbv beta iota. rewrite place_spec.
    fold cs p1. change (Player.board p1) with (Player.board p).
    by rewrite Hfree, bind_Ok_l. }
  assert (attempt (Ship.size s) g = (cs, mkRandom (draws g) (3 + cursor g))) as Hatt
    by (unfold attempt; by rewrite Hdraw).
  cbn [blocked]. rewrite Hatt. cbn [fst snd].
  destruct free.
  - right. split.
    + intros [(rc & Hrc & Hne)%Exists_exists _]. apply Hne. by apply Hfree_iff.
    + destruct (mark_cells_spec (Player.board p) cs (layout_grid _ _ Hlay) Hin)
        as (b' & -> & Hg' & Hcell' & Hcount).
      { apply span_NoDup. }
      { by apply Hfree_iff. }
      eexists _, _. split; [done|]. split.
      * apply layout_place; try done.
        -- apply span_NoDup.
        -- apply span_length.
        -- by apply Hfree_iff.
      * destruct Hrest as (?&?&?&?&?&?&?&?). by repeat split.
  - assert (Exists (fun rc => cell (Player.board p) rc ≠ Some 0) cs) as Hblock.
    { apply not_Forall_Exists; [apply _|]. intros Hall.
      assert (false = true); [|done]. apply Hfree_iff. by apply Forall_forall. }
    destruct (retry_ships p k s cs Hk) as (_ & _ & _ & _ & Hk1).
    destruct (IH p1 k _ (mkRandom (draws g) (3 + cursor g))
                (layout_retry k p s cs Hlay Hk) Hk1) as [[Hb Hout]|[Hb Hok]].
    + left. by repeat split.
    + right. split; [by intros [_ ?]|].
      destruct Hok as (p' & g' & Hrun & Hlay' & Hrest').
      exists p', g'. split; [done|]. split; [done|]. by eapply same_rest_trans.
Qed.

Lemma layout_lookup k p i :
  layout k p -> (i < 5)%nat -> is_Some (Player.ships p !! i).
Proof.
  intros Hlay Hi. apply lookup_lt_is_Some_2.
  pose proof (f_equal length (layout_names _ _ Hlay)) as Hlen.
  rewrite !length_fmap in Hlen. rewrite Hlen. cbn. lia.
Qed.

Lemma place_ship_random_index fuel p k g out :
  Player.place_ship_random fuel p k g = Ok out -> (k < length (Player.ships p))%nat.
Proof.
  destruct fuel as [|fuel]; [done|]. cbn [Player.place_ship_random].
  intros (s & Hs & _)%bind_Ok. apply getitem_Ok_lookup in Hs; [|lia].
  rewrite Nat2Z.id in Hs. by eapply lookup_lt_Some.
Qed.

Lemma layout_length k p : layout k p -> length (Player.ships p) = 5%nat.
Proof.
  intros Hlay. pose proof (f_equal length (layout_names _ _ Hlay)) as Hlen.
  by rewrite !length_fmap in Hlen.
Qed.

Lemma place_all_layout fuel n : forall k p g p' g',
  layout k p ->
  Player.place_all fuel p (seq k n) g = Ok (p', g') ->
  layout (k + n) p' /\ same_rest p p'.
Proof.
  induction n as [|n IH]; intros k p g p' g' Hlay Hrun.
  - injection Hrun as <- <-. rewrite Nat.add_0_r.
    split; [done|apply same_rest_refl].
  - cbn in Hrun. apply bind_Ok in Hrun as ([p1 g1] & Hone & Hrun).
    pose proof (place_ship_random_index _ _ _ _ _ Hone) as Hk5.
    rewrite (layout_length _ _ Hlay) in Hk5.
    destruct (layout_lookup k p k Hlay Hk5) as [s Hk].
    destruct (place_ship_random_run fuel p k s g Hlay Hk)
      as [[_ Hout]|(_ & p1' & g1' & Hok & Hlay1 & Hrest1)]; [congruence|].
    rewrite Hok in Hone. injection Hone as -> ->.
    destruct (IH (S k) p1 g1 p' g' Hlay1 Hrun) as [Hlay' Hrest'].
    replace (k + S n)%nat with (S k + n)%nat by lia.
    split; [done|]. by eapply same_rest_trans.
Qed.

Lemma cell_replicate {X} (x : X) rc :
  in_grid rc -> cell (replicate 10 (replicate 10 x)) rc = Some x.
Proof.
  intros [Hr Hc]. unfold cell. rewrite lookup_replicate_2 by lia.
  change (replicate 10 x !! Z.to_nat rc.2 = Some x). apply lookup_replicate_2. lia.
Qed.

Lemma layout_fresh p :
  Player.board p = replicate 10 (replicate 10 0) -> Player.ships p = Player.fleet ->
  layout 0 p.
Proof.
  intros Hb Hs. split; rewrite ?Hb, ?Hs; try done.
  - split; [done|]. by apply Forall_replicate.
  - intros i s Hi. lia.
  - intros rc Hrc. left. by apply cell_replicate.
  - intros rc Hrc. rewrite cell_replicate by done. split; [done|].
    intros (i & _ & Hi & _). lia.
  - intros i j s t rc Hi. lia.
Qed.

Lemma setup_board_layout fuel p g p' g' :
  Player.board p = replicate 10 (replicate 10 0) -> Player.ships p = Player.fleet ->
  Player.setup_board fuel p g = Ok (p', g') ->
  layout 5 p' /\ same_rest p p'.
Proof.
  intros Hb Hs Hrun. unfold Player.setup_board in Hrun. rewrite Hs in Hrun.
  apply (place_all_layout fuel 5 0 p g p' g'); [by apply layout_fresh|done].
Qed.

End placement.

Section encryption.
Context {phe : paillier.Scheme}.
Implicit Types (p : Player.t) (s : Ship.t).

Lemma bit_in_message_space seed (b : Z) :
  b = 0 \/ b = 1 -> 0 <= b <= paillier.max_int (paillier.generate_paillier_keypair seed).1.
Proof. pose proof (paillier.keypair_capacity seed). lia. Qed.

Lemma layout_bit k p rc :
  layout k p -> in_grid rc ->
  exists b, cell (Player.board p) rc = Some b /\ (b = 0 \/ b = 1).
Proof. intros Hlay Hrc. destruct (layout_bits _ _ Hlay _ Hrc); eauto. Qed.

Lemma encrypt_cell_spec seed p row col g :
  keys_from seed p -> layout 5 p -> in_grid (row, col) ->
  exists b ct,
    cell (Player.board p) (row, col) = Some b /\
    paillier.encrypt (paillier.generate_paillier_keypair seed).1 b (draws g (cursor g)) = Ok ct /\
    Player.encrypt_cell p row col g
    = Ok (Player.set_encrypted_board p (<[(row, col) := ct]> (Player.encrypted_board p)),
          mkRandom (draws g) (S (cursor g))).
Proof.
  intros [Hpk _] Hlay Hrc. destruct (layout_bit _ _ _ Hlay Hrc) as (b & Hb & Hbit).
  destruct (paillier.encrypt_total (paillier.generate_paillier_keypair seed).1 b
              (draws g (cursor g)) (bit_in_message_space seed b Hbit)) as [ct Hct].
  exists b, ct. split; [done|]. split; [done|].
  unfold Player.encrypt_cell. rewrite Hpk. cbn [attr_of]. rewrite bind_Ok_l.
  rewrite (getitem2_cell _ row col b) by (done || apply Hrc).
  rewrite bind_Ok_l. cbn [next_raw]. by rewrite Hct, bind_Ok_l.
Qed.

Lemma encrypt_cells_spec seed cs : forall p g,
  keys_from seed p -> layout 5 p -> Forall in_grid cs ->
  exists eb g',
    Player.encrypt_cells p cs g = Ok (Player.set_encrypted_board p eb, g') /\
    forall rc, rc ∈ cs \/ cell_encrypted seed p rc ->
               cell_encrypted seed (Player.set_encrypted_board p eb) rc.
Proof.
  induction cs as [|[row col] cs IH]; intros p g Hkeys Hlay Hcs.
  - exists (Player.encrypted_board p), g. split; [by destruct p|].
    intros rc [Hin|H]; [by inversion Hin|by destruct p].
  - apply Forall_cons in Hcs as [Hrc Hcs].
    destruct (encrypt_cell_spec seed p row col g Hkeys Hlay Hrc) as (b & ct & Hb & Hct & Hone).
    set (p1 := Player.set_encrypted_board p (<[(row, col) := ct]> (Player.encrypted_board p))) in *.
    destruct (IH p1 (mkRandom (draws g) (S (cursor g))) Hkeys) as (eb & g' & Hrun & Hall);
      [by destruct Hlay|done|].
    exists eb, g'. split.
    { cbn [Player.encrypt_cells]. rewrite Hone, bind_Ok_l. exact Hrun. }
    intros rc Hrc'. apply (Hall rc).
    destruct (decide (rc = (row, col))) as [->|Hne].
    + right. exists b, (draws g (cursor g)), ct. repeat split; try done.
      apply lookup_insert_eq.
    + destruct Hrc' as [[?|?]%elem_of_cons|(b' & nonce & ct' & ? & ? & ?)]; [done|by left|].
      right. exists b', nonce, ct'. repeat split; try done.
      cbn. by rewrite lookup_insert_ne.
Qed.

Lemma encrypt_board_ready seed p g :
  keys_from seed p -> layout 5 p ->
  (forall s, s ∈ Player.ships p -> Ship.hits s = ∅) ->
  Player.total_ship_cells p = 16 ->
  exists p' g', Player.encrypt_board p g = Ok (p', g') /\ ready seed p' /\
    Player.hits_received p' = Player.hits_received p /\
    Player.guess_board p' = Player.guess_board p.
Proof.
  intros Hkeys Hlay Hhits Htotal.
  destruct (encrypt_cells_spec seed Player.cells p g Hkeys Hlay) as (eb & g' & Hrun & Hall).
  { apply Forall_forall. intros rc. apply elem_of_cells. }
  exists (Player.set_encrypted_board p eb), g'. split; [done|]. split; [|done].
  split; try done.
  - by destruct Hlay.
  - intros rc Hrc. apply Hall. left. by apply elem_of_cells.
  - intros i s rc Hs Hrc. cbn in Hs. apply list_elem_of_lookup_2 in Hs.
    rewrite (Hhits s Hs) in Hrc. by apply elem_of_empty in Hrc.
Qed.

(** The protocol value: the blinding factor times the bit of the cell. *)
Lemma blinded_value_spec seed p (r c : Z) g :
  ready seed p -> in_grid (r, c) ->
  exists k b,
    randint 1 999999 g = Ok (k, mkRandom (draws g) (S (cursor g))) /\
    1 <= k <= 999999 /\
    cell (Player.board p) (r, c) = Some b /\ (b = 0 \/ b = 1) /\
    Player.blinded_value p r c g = Ok (k, k * b, mkRandom (draws g) (S (cursor g))).
Proof.
  intros Hready Hrc.
  destruct (ready_encrypted _ _ Hready _ Hrc) as (b & nonce & ct & Hb & Hct & Henc).
  destruct (layout_bit _ _ _ (ready_layout _ _ Hready) Hrc) as (b' & Hb' & Hbit).
  assert (b' = b) as -> by congruence.
  destruct (randint_spec 1 999999 g ltac:(lia)) as (k & Hk & Hrange).
  pose proof (paillier.keypair_capacity seed) as Hcap.
  destruct (paillier.decrypt_mul seed b nonce ct k) as (ct' & Hmul & Hdec);
    [lia|done|lia|nia|].
  exists k, b. repeat split; try done; try lia.
  unfold Player.blinded_value. rewrite Hct. cbn [dict_get]. rewrite bind_Ok_l, Hk, bind_Ok_l.
  cbv beta iota. rewrite Hmul, bind_Ok_l, (proj2 (ready_keys _ _ Hready)). cbn [attr_of].
  by rewrite bind_Ok_l, Hdec, bind_Ok_l.
Qed.

Lemma mark_hit_none (ss : list Ship.t) rc :
  (forall t, t ∈ ss -> rc ∉ Ship.coordinates t) ->
  Player.mark_hit ss rc = (ss, ("hit"%string, None)).
Proof.
  induction ss as [|t ss IH]; intros Hno; [done|]. cbn.
  rewrite bool_decide_eq_false_2 by (apply Hno; by left).
  rewrite IH; [done|]. intros u Hu. apply Hno. by right.
Qed.

Lemma mark_hit_owner (ss : list Ship.t) rc : forall i s,
  ss !! i = Some s -> rc ∈ Ship.coordinates s ->
  (forall j t, (j < i)%nat -> ss !! j = Some t -> rc ∉ Ship.coordinates t) ->
  Player.mark_hit ss rc
  = (<[i := Ship.add_hit s rc]> ss,
     if Ship.is_sunk (Ship.add_hit s rc)
     then ("sunk"%string, Some (Ship.name s)) else ("hit"%string, None)).
Proof.
  induction ss as [|t ss IH]; intros i s Hi Hin Hfirst; [done|]. cbn.
  destruct i as [|i].
  - injection Hi as ->. rewrite bool_decide_eq_true_2 by done.
    by destruct (Ship.is_sunk (Ship.add_hit s rc)).
  - rewrite bool_decide_eq_false_2 by (apply (Hfirst 0%nat); [lia|done]).
    rewrite (IH i s Hi Hin); [done|].
    intros j u Hj Hu. apply (Hfirst (S j)); [lia|done].
Qed.

Lemma hit_lookup (ss : list Ship.t) i s rc j t' :
  ss !! i = Some s -> <[i := Ship.add_hit s rc]> ss !! j = Some t' ->
  exists t, ss !! j = Some t /\
    Ship.name t' = Ship.name t /\ Ship.size t' = Ship.size t /\
    Ship.coordinates t' = Ship.coordinates t /\
    (Ship.hits t' = Ship.hits t \/ (j = i /\ t = s /\ Ship.hits t' = {[rc]} ∪ Ship.hits s)).
Proof.
  intros Hi Hj. destruct (decide (j = i)) as [->|Hne].
  - rewrite list_lookup_insert_eq in Hj by (by eapply lookup_lt_Some).
    injection Hj as <-. exists s. repeat split; try done. by right.
  - rewrite list_lookup_insert_ne in Hj by done. exists t'. repeat split; try done. by left.
Qed.

Lemma hit_lookup_rev (ss : list Ship.t) i s rc j t :
  ss !! i = Some s -> ss !! j = Some t ->
  exists t', <[i := Ship.add_hit s rc]> ss !! j = Some t' /\
    Ship.coordinates t' = Ship.coordinates t.
Proof.
  intros Hi Hj. destruct (decide (j = i)) as [->|Hne].
  - rewrite list_lookup_insert_eq by (by eapply lookup_lt_Some).
    exists (Ship.add_hit s rc). split; [done|]. cbn. congruence.
  - rewrite list_lookup_insert_ne by done. by exists t.
Qed.

Lemma layout_record_hit k p i s rc :
  layout k p -> Player.ships p !! i = Some s -> layout k (record_hit p i s rc).
Proof.
  intros [Hg Hn Hs Hc Hb Ho Hd Hcnt] Hi.
  assert (Ship.name <$> <[i := Ship.add_hit s rc]> (Player.ships p)
          = Ship.name <$> Player.ships p) as Hn'.
  { rewrite list_fmap_insert. apply list_insert_id. by rewrite list_lookup_fmap, Hi. }
  assert (Ship.size <$> <[i := Ship.add_hit s rc]> (Player.ships p)
          = Ship.size <$> Player.ships p) as Hs'.
  { rewrite list_fmap_insert. apply list_insert_id. by rewrite list_lookup_fmap, Hi. }
  split; cbn.
  - done.
  - by rewrite Hn'.
  - by rewrite Hs'.
  - intros j t' Hj Ht'. destruct (hit_lookup _ _ _ _ _ _ Hi Ht') as (t & Ht & _ & -> & -> & _).
    by eapply Hc.
  - done.
  - intros rc' Hrc'. rewrite (Ho rc' Hrc'). split.
    + intros (j & t & Hj & Ht & Hin).
      destruct (hit_lookup_rev _ _ _ rc _ _ Hi Ht) as (t' & Ht' & Hco).
      exists j, t'. by rewrite Hco.
    + intros (j & t' & Hj & Ht' & Hin).
      destruct (hit_lookup _ _ _ _ _ _ Hi Ht') as (t & Ht & _ & _ & Hco & _).
      exists j, t. by rewrite <- Hco.
  - intros j1 j2 t1 t2 rc' Hj1 Hj2 Ht1 Ht2 Hin1 Hin2.
    destruct (hit_lookup _ _ _ _ _ _ Hi Ht1) as (u1 & Hu1 & _ & _ & Hco1 & _).
    destruct (hit_lookup _ _ _ _ _ _ Hi Ht2) as (u2 & Hu2 & _ & _ & Hco2 & _).
    rewrite Hco1 in Hin1. rewrite Hco2 in Hin2. by eapply (Hd j1 j2).
  - by rewrite Hs'.
Qed.

Lemma ready_record_hit seed p i s rc :
  ready seed p -> Player.ships p !! i = Some s -> rc ∈ Ship.coordinates s ->
  ready seed (record_hit p i s rc).
Proof.
  intros [Hlay Hkeys Henc Hhits Htot] Hi Hin. split.
  - by apply layout_record_hit.
  - done.
  - done.
  - intros j t' rc' Ht' Hrc'. cbn in Ht'.
    destruct (hit_lookup _ _ _ _ _ _ Hi Ht') as (t & Ht & _ & _ & -> & [Hh|(-> & -> & Hh)]).
    + rewrite Hh in Hrc'. by eapply Hhits.
    + rewrite Hh in Hrc'. apply elem_of_union in Hrc' as [->%elem_of_singleton|Hold]; [done|].
      by eapply Hhits.
  - done.
Qed.

(** The outcome of a query on a player that is ready. *)
Lemma check_hit_spec seed p (r c : Z) opponent g :
  ready seed p -> in_grid (r, c) ->
  exists k b,
    Player.blinded_value p r c g = Ok (k, k * b, mkRandom (draws g) (S (cursor g))) /\
    1 <= k <= 999999 /\ cell (Player.board p) (r, c) = Some b /\
    ((b = 0 /\
      Player.check_hit_homomorphic p r c opponent g
      = Ok (("miss"%string, None), p, opponent, mkRandom (draws g) (S (cursor g)))) \/
     (b = 1 /\ exists i s,
        Player.ships p !! i = Some s /\ (r, c) ∈ Ship.coordinates s /\
        (forall j t, Player.ships p !! j = Some t -> (r, c) ∈ Ship.coordinates t -> j = i) /\
        Player.check_hit_homomorphic p r c opponent g
        = Ok (if Ship.is_sunk (Ship.add_hit s (r, c))
              then ("sunk"%string, Some (Ship.name s)) else ("hit"%string, None),
              record_hit p i s (r, c), opponent, mkRandom (draws g) (S (cursor g))))).
Proof.
  intros Hready Hrc.
  destruct (blinded_value_spec seed p r c g Hready Hrc) as (k & b & _ & Hk & Hb & Hbit & Hval).
  exists k, b. split; [done|]. split; [done|]. split; [done|].
  unfold Player.check_hit_homomorphic. rewrite Hval, bind_Ok_l. cbv beta iota.
  destruct Hbit as [-> | ->].
  - left. split; [done|]. rewrite bool_decide_eq_true_2 by lia. done.
  - right. split; [done|]. rewrite bool_decide_eq_false_2 by lia. cbn [negb].
    pose proof (ready_layout _ _ Hready) as Hlay.
    destruct (proj1 (layout_occupied _ _ Hlay _ Hrc) Hb) as (i & s & Hi & Hs & Hin).
    assert (forall j t, Player.ships p !! j = Some t -> (r, c) ∈ Ship.coordinates t -> j = i)
      as Huniq.
    { intros j t Ht Hint. apply (layout_disjoint _ _ Hlay j i t s (r, c)); try done.
      apply lookup_lt_Some in Ht.
      pose proof (f_equal length (layout_names _ _ Hlay)) as Hlen.
      rewrite !length_fmap in Hlen. cbn in Hlen. lia. }
    exists i, s. repeat split; try done.
    cbn [Player.ships Player.set_hits_received].
    rewrite (mark_hit_owner _ _ i s Hs Hin).
    + by destruct (Ship.is_sunk (Ship.add_hit s (r, c))).
    + intros j t Hj Ht Hint. specialize (Huniq j t Ht Hint). lia.
Qed.

End encryption.

Section game.
Context {phe : paillier.Scheme}.
Implicit Types (p : Player.t) (s : Main.state).

Lemma generate_keys_spec p g :
  exists seed,
    Player.generate_keys p g
    = (Player.set_keys p (paillier.generate_paillier_keypair seed).1
                         (paillier.generate_paillier_keypair seed).2,
       mkRandom (draws g) (S (cursor g))).
Proof.
  exists (draws g (cursor g)). unfold Player.generate_keys, next_raw.
  by destruct (paillier.generate_paillier_keypair (draws g (cursor g))).
Qed.

(** A player that has its keys, after [setup_board] and [encrypt_board]. *)
Lemma player_setup_ready fuel name seed g1 g2 g2' g3 p1 p2 :
  let p0 := Player.set_keys (Player.init name)
              (paillier.generate_paillier_keypair seed).1
              (paillier.generate_paillier_keypair seed).2 in
  Player.setup_board fuel p0 g1 = Ok (p1, g2) ->
  Player.encrypt_board p1 g2' = Ok (p2, g3) ->
  ready seed p2 /\ Player.hits_received p2 = 0.
Proof.
  intros p0 Hsetup Henc.
  destruct (setup_board_layout fuel p0 g1 p1 g2 eq_refl eq_refl Hsetup)
    as [Hlay (_ & _ & _ & Hpk & Hsk & Hhr & Htot & Hhits)].
  destruct (encrypt_board_ready seed p1 g2') as (p2' & g3' & Henc' & Hready & Hhr' & _).
  - split; [by rewrite Hpk|by rewrite Hsk].
  - done.
  - intros s Hs. apply list_elem_of_lookup in Hs as [i Hi].
    assert ((Ship.hits <$> Player.ships p1) !! i = Some (Ship.hits s)) as H
      by (by rewrite list_lookup_fmap, Hi).
    rewrite Hhits in H. cbn in H.
    do 5 (destruct i as [|i]; [by injection H as <-|]). done.
  - by rewrite Htot.
  - rewrite Henc in Henc'. injection Henc' as <- <-. split; [done|]. by rewrite Hhr', Hhr.
Qed.

Lemma setup_in_game fuel g s g' : Main.setup fuel g = Ok (s, g') -> in_game s.
Proof.
  unfold Main.setup. intros H.
  destruct (generate_keys_spec (Player.init "Alice") g) as [seed1 H1].
  rewrite H1 in H. clear H1.
  destruct (generate_keys_spec (Player.init "Bob") (mkRandom (draws g) (S (cursor g))))
    as [seed2 H2]. rewrite H2 in H. clear H2.
  apply bind_Ok in H as ([p1 g1] & Hs1 & H).
  apply bind_Ok in H as ([p2 g2] & Hs2 & H).
  apply bind_Ok in H as ([q1 g3] & He1 & H).
  apply bind_Ok in H as ([q2 g4] & He2 & H).
  injection H as <- <-.
  destruct (player_setup_ready _ _ _ _ _ _ _ _ _ Hs1 He1) as [Hr1 Hh1].
  destruct (player_setup_ready _ _ _ _ _ _ _ _ _ Hs2 He2) as [Hr2 Hh2].
  split; cbn.
  - intros [|]; cbn; eauto.
  - done.
  - intros [|]; cbn; lia.
  - intros [|] _; cbn; lia.
Qed.

Lemma ready_set_guess_board seed p gb :
  ready seed p -> ready seed (Player.set_guess_board p gb).
Proof. intros [[] ? ? ? ?]. by split. Qed.

Lemma deref_set_turn s n r : Main.deref (Main.set_turn s n) r = Main.deref s r.
Proof. by destruct r. Qed.

Lemma assign_current s r p :
  Main.current_player (Main.assign s r p) = Main.current_player s.
Proof. by destruct r. Qed.

Lemma assign_opponent s r p : Main.opponent (Main.assign s r p) = Main.opponent s.
Proof. by destruct r. Qed.

Lemma assign_game_over s r p : Main.game_over (Main.assign s r p) = Main.game_over s.
Proof. by destruct r. Qed.

Lemma assign_turn s r p : Main.turn (Main.assign s r p) = Main.turn s.
Proof. by destruct r. Qed.

Lemma deref_assign s r p r' :
  Main.deref (Main.assign s r p) r' = if decide (r' = r) then p else Main.deref s r'.
Proof. by destruct r, r'. Qed.

(** The two ways an iteration of the game loop ends normally: the guess was
    made before, or the protocol ran and the mark was written. *)
Lemma loop_body_cases s (r c : Z) g s' g' :
  Main.loop_body s (r, c) g = Ok (s', g') ->
  let s0 := Main.set_turn s (Main.turn s + 1) in
  let me := Main.deref s (Main.current_player s) in
  exists seen, getitem2 (Player.guess_board me) r c = Ok seen /\
    ((seen ≠ " "%string /\ s' = s0 /\ g' = g) \/
     (seen = " "%string /\
      exists result ship_name defender attacker gb,
        Player.check_hit_homomorphic (Main.deref s (Main.opponent s)) r c me g
        = Ok (result, ship_name, defender, attacker, g') /\
        let s1 := Main.assign (Main.assign s0 (Main.current_player s) attacker)
                              (Main.opponent s) defender in
        setitem2 (Player.guess_board (Main.deref s1 (Main.current_player s))) r c
                 (Main.mark_of result) = Ok gb /\
        let s2 := Main.assign s1 (Main.current_player s)
                    (Player.set_guess_board (Main.deref s1 (Main.current_player s)) gb) in
        s' = if Player.has_lost (Main.deref s2 (Main.opponent s))
             then Main.set_game_over s2 true else Main.switch_players s2)).
Proof.
  unfold Main.loop_body. intros H.
  apply bind_Ok in H as (seen & Hseen & H).
  cbn [Main.current_player Main.opponent Main.set_turn] in *.
  rewrite !deref_set_turn in *.
  exists seen. split; [done|].
  case_bool_decide as Hblank.
  - left. by injection H as <- <-.
  - right. split; [by destruct (decide (seen = " "%string))|].
    apply bind_Ok in H as ([[[[result ship_name] defender] attacker] g1] & Hcheck & H).
    apply bind_Ok in H as (gb & Hset & H).
    rewrite ?assign_current, ?assign_opponent in *.
    cbn [Main.current_player Main.opponent Main.set_turn] in *.
    exists result, ship_name, defender, attacker, gb.
    destruct (Player.has_lost _) eqn:Hlost in H; injection H as <- <-.
    all: split; [done|]; split; [done|]. all: cbn zeta; by rewrite Hlost.
Qed.

End game.

Section steps.
Context {phe : paillier.Scheme}.
Implicit Types (p : Player.t) (s : Main.state).

(** An iteration of the game loop, from a state of the game. *)
Lemma loop_body_step s (r c : Z) g s' g' :
  in_game s -> in_grid (r, c) -> Main.loop_body s (r, c) g = Ok (s', g') ->
  let cur := Main.current_player s in
  let opp := Main.opponent s in
  (cell (Player.guess_board (Main.deref s cur)) (r, c) ≠ Some " "%string /\
   s' = Main.set_turn s (Main.turn s + 1) /\ g' = g) \/
  (cell (Player.guess_board (Main.deref s cur)) (r, c) = Some " "%string /\
   exists result defender gb,
     Player.check_hit_homomorphic (Main.deref s opp) r c (Main.deref s cur) g
     = Ok (result, defender, Main.deref s cur, g') /\
     (forall rc, 0 <= rc.1 -> 0 <= rc.2 ->
        cell gb rc = if decide (rc = (r, c)) then Some (Main.mark_of result.1)
                     else cell (Player.guess_board (Main.deref s cur)) rc) /\
     Main.deref s' cur = Player.set_guess_board (Main.deref s cur) gb /\
     Main.deref s' opp = defender /\
     Main.turn s' = Main.turn s + 1 /\
     Main.game_over s' = (if Player.has_lost defender then true else Main.game_over s) /\
     Main.current_player s' = (if Player.has_lost defender then cur else opp) /\
     Main.opponent s' = (if Player.has_lost defender then opp else cur)).
Proof.
  intros Hgame Hrc Hrun cur opp.
  destruct (loop_body_cases s r c g s' g' Hrun) as (seen & Hseen & Hcases).
  apply getitem2_Ok_cell in Hseen; [|apply Hrc..]. fold cur in Hseen, Hcases.
  destruct Hcases as [(Hne & -> & ->)|(-> & result & ship_name & defender & attacker & gb
                                        & Hcheck & Hset & Hs')].
  { left. split; [|done]. rewrite Hseen. by intros [= ?]. }
  right. split; [done|]. fold opp in Hcheck, Hset, Hs'.
  pose proof (game_roles _ Hgame) as Hroles. fold cur opp in Hroles.
  destruct (game_ready _ Hgame opp) as [seed Hready].
  destruct (check_hit_spec seed _ r c (Main.deref s cur) g Hready Hrc)
    as (k & b & _ & _ & _ & Hres).
  assert (attacker = Main.deref s cur) as ->.
  { destruct Hres as [(_ & E)|(_ & i & t & _ & _ & _ & E)];
      rewrite E in Hcheck; by injection Hcheck. }
  assert (forall rc, 0 <= rc.1 -> 0 <= rc.2 ->
            cell gb rc = if decide (rc = (r, c)) then Some (Main.mark_of result)
                         else cell (Player.guess_board (Main.deref s cur)) rc) as Hgb.
  { apply (setitem2_Ok_cell _ gb r c); [|apply Hrc..].
    rewrite <- Hset. f_equal. f_equal.
    rewrite !deref_assign, deref_set_turn.
    rewrite decide_False by done. by rewrite decide_True. }
  exists (result, ship_name), defender, gb. split; [done|]. split; [done|].
  clear Hset Hgb Hres Hcheck Hseen Hready Hgame Hrun.
  subst cur opp. cbv zeta in Hs'. destruct s as [p1 p2 n over cur opp].
  cbn in Hroles, Hs' |- *.
  destruct cur, opp; try done; cbn in Hs' |- *;
    destruct (Player.has_lost defender); by subst s'.
Qed.

(** A query keeps the defender ready and adds at most one hit. *)
Lemma check_hit_ready seed p (r c : Z) opponent g result p' opponent' g' :
  ready seed p -> in_grid (r, c) ->
  Player.check_hit_homomorphic p r c opponent g = Ok (result, p', opponent', g') ->
  ready seed p' /\
  (Player.hits_received p' = Player.hits_received p \/
   Player.hits_received p' = Player.hits_received p + 1).
Proof.
  intros Hready Hrc Hrun.
  destruct (check_hit_spec seed p r c opponent g Hready Hrc)
    as (k & b & _ & _ & _ & [(_ & E)|(_ & i & t & Hi & Hin & _ & E)]);
    rewrite E in Hrun; injection Hrun as <- <- <- <-.
  - split; [done|by left].
  - split; [by apply ready_record_hit|by right].
Qed.

Lemma loop_body_in_game s guess g s' g' :
  in_game s -> Main.game_over s = false -> in_grid guess ->
  Main.loop_body s guess g = Ok (s', g') -> in_game s'.
Proof.
  intros Hgame Hover Hguess Hrun. destruct guess as [r c].
  pose proof (game_roles _ Hgame) as Hroles.
  destruct (loop_body_step s r c g s' g' Hgame Hguess Hrun)
    as [(_ & -> & _)|(_ & result & defender & gb & Hcheck & _ & Hme & Hyou & _ & Hover'
                      & Hcur & Hopp)].
  { destruct Hgame as [Hr Hro Hh Hrun']. split; try done.
    all: intros ref; rewrite ?deref_set_turn; auto. }
  destruct (game_ready _ Hgame (Main.opponent s)) as [seed Hready].
  destruct (check_hit_ready _ _ _ _ _ _ _ _ _ _ Hready Hguess Hcheck) as [Hready' Hhits].
  pose proof (game_running _ Hgame (Main.opponent s) Hover) as Hlt.
  assert (forall ref, ref = Main.current_player s \/ ref = Main.opponent s) as Href.
  { intros ref. destruct ref, (Main.current_player s), (Main.opponent s); auto; done. }
  split.
  - intros ref. destruct (Href ref) as [-> | ->].
    + rewrite Hme. destruct (game_ready _ Hgame (Main.current_player s)) as [seed' ?].
      exists seed'. by apply ready_set_guess_board.
    + rewrite Hyou. eauto.
  - rewrite Hcur, Hopp. by destruct (Player.has_lost defender).
  - intros ref. destruct (Href ref) as [-> | ->].
    + rewrite Hme. cbn. apply (game_hits _ Hgame).
    + rewrite Hyou. lia.
  - intros ref. rewrite Hover'. unfold Player.has_lost.
    rewrite (ready_total _ _ Hready'). case_bool_decide as Hlost; [done|]. intros _.
    destruct (Href ref) as [-> | ->].
    + rewrite Hme. cbn. by apply (game_running _ Hgame).
    + rewrite Hyou. lia.
Qed.

Lemma reachable_in_game s : reachable s -> in_game s.
Proof.
  induction 1 as [fuel g s g' Hsetup|s guess g s' g' _ IH Hover Hguess Hrun].
  - by eapply setup_in_game.
  - by eapply loop_body_in_game.
Qed.

End steps.

Section attempts.
Context {phe : paillier.Scheme}.
Implicit Types (p : Player.t) (s : Ship.t).

(** One attempt of [place_ship_random] on a board of ten rows of ten: either
    the drawn cells are water and the ship is placed, or one of them is not
    and the loop goes on with the next draw. *)
Lemma place_ship_random_attempt fuel p k s g :
  grid10 (Player.board p) -> Player.ships p !! k = Some s -> 1 <= Ship.size s <= 10 ->
  exists h row col,
    let cs := span row col h <$> seqZ 0 (Ship.size s) in
    let p1 := Player.set_ships p (<[k := Ship.set_coordinates s cs]> (Player.ships p)) in
    let g1 := mkRandom (draws g) (3 + cursor g) in
    0 <= row /\ 0 <= col /\
    (if h : bool then row <= 9 /\ col + Ship.size s <= 10
     else row + Ship.size s <= 10 /\ col <= 9) /\
    attempt (Ship.size s) g = (cs, g1) /\ Forall in_grid cs /\
    (((forall rc, rc ∈ cs -> cell (Player.board p) rc = Some 0) /\
      exists b', grid10 b' /\
        (forall rc, in_grid rc ->
           cell b' rc = if decide (rc ∈ cs) then Some 1 else cell (Player.board p) rc) /\
        Player.place_ship_random (S fuel) p k g = Ok (Player.set_board p1 b', g1)) \/
     (Exists (fun rc => cell (Player.board p) rc ≠ Some 0) cs /\
      Player.place_ship_random (S fuel) p k g = Player.place_ship_random fuel p1 k g1)).
Proof.
  intros Hg Hk Hsize.
  destruct (draw_placement_spec (Ship.size s) g Hsize)
    as (h & row & col & Hdraw & Hrow & Hcol & Hfit).
  exists h, row, col. intros cs p1 g1.
  assert (Forall in_grid cs) as Hin by (by apply span_in_grid).
  destruct (all_water_spec (Player.board p) cs Hg Hin) as (free & Hfree & Hfree_iff).
  assert (Player.place_ship_random (S fuel) p k g
          = if free then b ← Player.mark_cells (Player.board p) cs;
                         Ok (Player.set_board p1 b, g1)
            else Player.place_ship_random fuel p1 k g1) as ->.
  { cbn [Player.place_ship_random].
    rewrite (getitem_lookup _ _ s) by (lia || by rewrite Nat2Z.id).
    rewrite bind_Ok_l, Hdraw, bind_Ok_l. cbv beta iota. rewrite place_spec.
    fold cs p1 g1. change (Player.board p1) with (Player.board p).
    by rewrite Hfree, bind_Ok_l. }
  do 3 (split; [done|]).
  split; [unfold attempt; by rewrite Hdraw|]. split; [done|].
  destruct free.
  - left. assert (forall rc, rc ∈ cs -> cell (Player.board p) rc = Some 0) as Hw
      by (by apply Hfree_iff).
    split; [done|].
    destruct (mark_cells_spec (Player.board p) cs Hg Hin (span_NoDup _ _ _ _) Hw)
      as (b' & -> & Hg' & Hcell' & _).
    by exists b'.
  - right. split; [|done]. apply not_Forall_Exists; [apply _|]. intros Hall.
    assert (false = true); [|done]. apply Hfree_iff. by apply Forall_forall.
Qed.

(** The loop on a board of ten rows of ten, for a ship of 1 to 10 cells: it
    is still running after [fuel] attempts when each of them was blocked, and
    it has returned otherwise. *)
Lemma place_ship_random_outcome fuel : forall p k s g,
  grid10 (Player.board p) -> Player.ships p !! k = Some s -> 1 <= Ship.size s <= 10 ->
  (blocked fuel (Player.board p) (Ship.size s) g /\
   Player.place_ship_random fuel p k g = OutOfFuel) \/
  (~ blocked fuel (Player.board p) (Ship.size s) g /\
   exists p' g', Player.place_ship_random fuel p k g = Ok (p', g')).
Proof.
  induction fuel as [|fuel IH]; intros p k s g Hg Hk Hsize; [by left|].
  destruct (place_ship_random_attempt fuel p k s g Hg Hk Hsize)
    as (h & row & col & _ & _ & _ & Hatt & Hin & [(Hw & b' & _ & _ & E)|(Hex & E)]);
    rewrite E; cbn [blocked]; rewrite Hatt; cbn [fst snd].
  - right. split; [|eauto].
    intros [(rc & Hrc & Hne)%Exists_exists _]. apply Hne. by apply Hw.
  - set (cs := span row col h <$> seqZ 0 (Ship.size s)) in *.
    destruct (IH (Player.set_ships p (<[k := Ship.set_coordinates s cs]> (Player.ships p)))
                k (Ship.set_coordinates s cs) (mkRandom (draws g) (3 + cursor g)))
      as [[Hb Hout]|[Hb Hok]]; [done| |done| |].
    + cbn. apply list_lookup_insert_eq. by eapply lookup_lt_Some.
    + left. by repeat split.
    + right. split; [by intros [_ ?]|done].
Qed.

(** On a board on which every run of cells that fits the ship touches a cell
    that is not water, every attempt is blocked, whatever is drawn. *)
Lemma no_room_blocked (b : list (list Z)) (size : Z) fuel : forall g,
  1 <= size <= 10 ->
  (forall (h : bool) row col, 0 <= row -> 0 <= col ->
     (if h then row <= 9 /\ col + size <= 10 else row + size <= 10 /\ col <= 9) ->
     exists i, 0 <= i < size /\ cell b (span row col h i) ≠ Some 0) ->
  blocked fuel b size g.
Proof.
  induction fuel as [|fuel IH]; intros g Hsize Hfull; [done|]. cbn [blocked].
  destruct (draw_placement_spec size g Hsize)
    as (h & row & col & Hdraw & Hrow & Hcol & Hfit).
  unfold attempt. rewrite Hdraw. cbn [fst snd]. split; [|by apply IH].
  destruct (Hfull h row col Hrow Hcol Hfit) as (i & Hi & Hne).
  apply Exists_exists. exists (span row col h i). split; [|done].
  apply list_elem_of_fmap. exists i. split; [done|]. apply elem_of_seqZ. lia.
Qed.

End attempts.

Section claims.
Context {phe : paillier.Scheme}.
Implicit Types (p : Player.t) (s : Main.state).

(** The game loop, run on guesses inside the board, stays in the states of
    the game. *)
Lemma game_loop_reachable guesses : forall s g s' g',
  reachable s -> Forall in_grid guesses ->
  Main.game_loop s guesses g = Ok (s', g') -> reachable s'.
Proof.
  induction guesses as [|guess guesses IH]; intros s g s' g' Hs Hall Hrun; cbn in Hrun.
  - by injection Hrun as <- <-.
  - destruct (Main.game_over s) eqn:Hover; [by injection Hrun as <- <-|].
    apply bind_Ok in Hrun as ([s1 g1] & Hstep & Hrun).
    apply Forall_cons in Hall as [Hguess Hall].
    apply (IH s1 g1 s' g'); [|done..]. by eapply reach_turn.
Qed.

Lemma reachable_ready s ref : reachable s -> exists seed, ready seed (Main.deref s ref).
Proof. intros Hs. apply (game_ready _ (reachable_in_game s Hs)). Qed.

(** The shape of what a query returns, whatever the state. *)
Lemma check_hit_shape p (r c : Z) opponent g result p' opponent' g' :
  Player.check_hit_homomorphic p r c opponent g = Ok (result, p', opponent', g') ->
  opponent' = opponent /\
  ((result = ("miss"%string, None) /\ p' = p) \/
   (result.1 ≠ "miss"%string /\
    exists ss, p' = Player.set_ships
                      (Player.set_hits_received p (Player.hits_received p + 1)) ss)).
Proof.
  unfold Player.check_hit_homomorphic. intros ([[k v] g1] & _ & H)%bind_Ok.
  destruct (negb (bool_decide (v = 0))).
  - destruct (Player.mark_hit _ _) as [ss res] eqn:Hmark. injection H as <- <- <- <-.
    split; [done|]. right. split; [|by exists ss].
    clear -Hmark. revert ss res Hmark. cbn.
    induction (Player.ships p) as [|t ts IH]; intros ss res Hmark; cbn in Hmark.
    + by injection Hmark as <- <-.
    + case_bool_decide.
      * destruct (Ship.is_sunk _); by injection Hmark as <- <-.
      * destruct (Player.mark_hit ts (r, c)) as [ss' res'] eqn:E.
        injection Hmark as <- <-. by eapply IH.
  - injection H as <- <- <- <-. split; [done|]. by left.
Qed.

(** C1: for every cell of the defender's board and every blinding factor the
    generator yields (a number of 1 .. 999999), the decrypted blinded value is
    the factor times the bit of the cell, it is zero exactly when the bit is
    zero, and the query is reported as a hit ("hit" or "sunk") exactly when
    the plaintext board has a 1 at the cell, as a miss exactly when it has a 0. *)
Theorem hit_check_matches_board s ref (r c : Z) opponent g k g' :
  reachable s -> in_grid (r, c) -> randint 1 999999 g = Ok (k, g') ->
  1 <= k <= 999999 /\
  exists b result self',
    cell (Player.board (Main.deref s ref)) (r, c) = Some b /\ (b = 0 \/ b = 1) /\
    Player.blinded_value (Main.deref s ref) r c g = Ok (k, k * b, g') /\
    (k * b = 0 <-> b = 0) /\
    Player.check_hit_homomorphic (Main.deref s ref) r c opponent g
    = Ok (result, self', opponent, g') /\
    (result.1 = "miss"%string <-> b = 0) /\
    (result.1 = "hit"%string \/ result.1 = "sunk"%string <-> b = 1).
Proof.
  intros Hs Hrc Hk. destruct (reachable_ready s ref Hs) as [seed Hready].
  destruct (blinded_value_spec seed _ r c g Hready Hrc)
    as (k0 & b & Hk0 & Hrange & Hb & Hbit & Hval).
  rewrite Hk in Hk0. injection Hk0 as -> ->. split; [done|].
  destruct (check_hit_spec seed _ r c opponent g Hready Hrc)
    as (k1 & b1 & Hval1 & _ & Hb1 & Hres).
  assert (b1 = b) as -> by congruence.
  destruct Hres as [(-> & E)|(-> & i & t & _ & _ & _ & E)]; rewrite E.
  - eexists 0, _, _. repeat split; try done; try lia. by intros [|].
  - eexists 1, _, _. repeat split; try done; try lia.
    + by destruct (Ship.is_sunk _).
    + destruct (Ship.is_sunk _); cbn; auto.
Qed.

(** C2: in the state after the setup phase and in every later state of the
    game, each entry of a player's encrypted board decrypts, under that
    player's private key, to the plaintext board's value at the cell; and a run
    of the hit check returns the defender with the same encrypted board, the
    same plaintext board and the same keys. *)
Theorem encrypted_board_decrypts_to_board s ref rc :
  reachable s -> in_grid rc ->
  (exists sk ct b,
     Player.private_key (Main.deref s ref) = Some sk /\
     Player.encrypted_board (Main.deref s ref) !! rc = Some ct /\
     cell (Player.board (Main.deref s ref)) rc = Some b /\
     paillier.decrypt sk ct = Ok b) /\
  (forall r c opponent g result self' opponent' g',
     Player.check_hit_homomorphic (Main.deref s ref) r c opponent g
     = Ok (result, self', opponent', g') ->
     Player.encrypted_board self' = Player.encrypted_board (Main.deref s ref) /\
     Player.board self' = Player.board (Main.deref s ref) /\
     Player.public_key self' = Player.public_key (Main.deref s ref) /\
     Player.private_key self' = Player.private_key (Main.deref s ref)).
Proof.
  intros Hs Hrc. destruct (reachable_ready s ref Hs) as [seed Hready]. split.
  - destruct (ready_encrypted _ _ Hready rc Hrc) as (b & nonce & ct & Hb & Hct & Henc).
    destruct (layout_bit _ _ _ (ready_layout _ _ Hready) Hrc) as (b' & Hb' & Hbit).
    assert (b' = b) as -> by congruence.
    exists (paillier.generate_paillier_keypair seed).2, ct, b.
    split; [apply (ready_keys _ _ Hready)|]. split; [done|]. split; [done|].
    apply (paillier.decrypt_encrypt seed b nonce); [|done].
    by apply bit_in_message_space.
  - intros r c opponent g result self' opponent' g' Hrun.
    destruct (check_hit_shape _ _ _ _ _ _ _ _ _ Hrun) as [_ [(_ & ->)|(_ & ss & ->)]]; done.
Qed.

(** C3: when [setup_board] returns, on a player whose board is all water and
    whose ships are the fleet, no two ships share a cell, the coordinate list
    of every ship has as many cells as the ship's size, every coordinate is
    inside [0,9] x [0,9], and 16 cells of the board are marked 1. *)
Theorem setup_board_placement_valid fuel p g p' g' :
  Player.board p = replicate 10 (replicate 10 0) -> Player.ships p = Player.fleet ->
  Player.setup_board fuel p g = Ok (p', g') ->
  (forall i j t u rc,
     Player.ships p' !! i = Some t -> Player.ships p' !! j = Some u ->
     rc ∈ Ship.coordinates t -> rc ∈ Ship.coordinates u -> i = j) /\
  (forall t, t ∈ Player.ships p' ->
     Z.of_nat (length (Ship.coordinates t)) = Ship.size t /\
     Forall in_grid (Ship.coordinates t)) /\
  Ship.size <$> Player.ships p' = [5; 4; 3; 2; 2] /\
  length (occupied (Player.board p')) = 16%nat.
Proof.
  intros Hb Hships Hrun.
  destruct (setup_board_layout fuel p g p' g' Hb Hships Hrun) as [Hlay _].
  assert (forall i t, Player.ships p' !! i = Some t -> (i < 5)%nat) as Hlt.
  { intros i t Hi. by destruct (fleet_size p' i t (layout_sizes _ _ Hlay) Hi). }
  split; [|split; [|split]].
  - intros i j t u rc Hi Hj. apply (layout_disjoint _ _ Hlay); eauto.
  - intros t [i Hi]%list_elem_of_lookup.
    destruct (layout_coords _ _ Hlay i t (Hlt _ _ Hi) Hi) as (_ & Hlen & Hin).
    destruct (fleet_size p' i t (layout_sizes _ _ Hlay) Hi) as [Hsize _].
    split; [lia|done].
  - apply (layout_sizes _ _ Hlay).
  - rewrite (layout_count _ _ Hlay), (layout_sizes _ _ Hlay). by vm_compute.
Qed.

(** C4: a query whose decrypted value is not zero (a hit) adds the cell to
    the hits of the one ship whose coordinates contain it, adds exactly 1 to
    [hits_received], and returns ("sunk", name of that ship) when the ship's
    hits have then reached its size and ("hit", None) otherwise; a query whose
    decrypted value is zero (a miss) returns ("miss", None) and the defender
    as it was. *)
Theorem check_hit_outcome s ref (r c : Z) opponent g :
  reachable s -> in_grid (r, c) ->
  exists k v g',
    Player.blinded_value (Main.deref s ref) r c g = Ok (k, v, g') /\
    (v ≠ 0 ->
     exists i ship self',
       Player.ships (Main.deref s ref) !! i = Some ship /\
       (r, c) ∈ Ship.coordinates ship /\
       (forall j t, Player.ships (Main.deref s ref) !! j = Some t ->
                    (r, c) ∈ Ship.coordinates t -> j = i) /\
       Player.check_hit_homomorphic (Main.deref s ref) r c opponent g
       = Ok (if bool_decide (Z.of_nat (size ({[(r, c)]} ∪ Ship.hits ship)) = Ship.size ship)
             then ("sunk"%string, Some (Ship.name ship)) else ("hit"%string, None),
             self', opponent, g') /\
       Player.hits_received self' = Player.hits_received (Main.deref s ref) + 1 /\
       Player.ships self'
       = <[i := Ship.add_hit ship (r, c)]> (Player.ships (Main.deref s ref)) /\
       Ship.hits (Ship.add_hit ship (r, c)) = {[(r, c)]} ∪ Ship.hits ship) /\
    (v = 0 ->
     Player.check_hit_homomorphic (Main.deref s ref) r c opponent g
     = Ok (("miss"%string, None), Main.deref s ref, opponent, g')).
Proof.
  intros Hs Hrc. destruct (reachable_ready s ref Hs) as [seed Hready].
  destruct (check_hit_spec seed _ r c opponent g Hready Hrc)
    as (k & b & Hval & Hk & Hb & Hres).
  exists k, (k * b), (mkRandom (draws g) (S (cursor g))). split; [done|].
  destruct Hres as [(-> & E)|(-> & i & t & Hi & Hin & Huniq & E)].
  - split; [lia|done].
  - split; [|lia]. intros _. exists i, t, (record_hit (Main.deref s ref) i t (r, c)).
    by repeat split.
Qed.

(** The hits of a ship are cells of the ship, so there are at most as many
    as the ship has cells. *)
Lemma hits_bounded seed p i t :
  ready seed p -> Player.ships p !! i = Some t ->
  Z.of_nat (size (Ship.hits t)) <= Ship.size t.
Proof.
  intros Hready Hi.
  destruct (fleet_size p i t (layout_sizes _ _ (ready_layout _ _ Hready)) Hi) as [Hsize Hlt].
  destruct (layout_coords _ _ (ready_layout _ _ Hready) i t Hlt Hi) as (Hnd & Hlen & _).
  assert (Ship.hits t ⊆ list_to_set (Ship.coordinates t)) as Hsub.
  { intros rc Hrc. apply elem_of_list_to_set. by eapply (ready_hits _ _ Hready). }
  apply subseteq_size in Hsub. rewrite size_list_to_set in Hsub by done. lia.
Qed.

(** C6: in every state of the game the hits of each ship are among its
    coordinates, and [is_sunk] holds exactly when the number of hits equals
    the size; a query turns a ship that was not sunk into a sunk one exactly
    when it targets a cell of that ship that was not hit before and the ship
    had all but one of its cells hit, and a sunk ship stays sunk. *)
Theorem ship_hits_and_sinking s ref i ship :
  reachable s -> Player.ships (Main.deref s ref) !! i = Some ship ->
  (forall rc, rc ∈ Ship.hits ship -> rc ∈ Ship.coordinates ship) /\
  (Ship.is_sunk ship = true <-> Z.of_nat (size (Ship.hits ship)) = Ship.size ship) /\
  (forall r c opponent g result self' opponent' g' ship',
     in_grid (r, c) ->
     Player.check_hit_homomorphic (Main.deref s ref) r c opponent g
     = Ok (result, self', opponent', g') ->
     Player.ships self' !! i = Some ship' ->
     (Ship.is_sunk ship = true -> Ship.is_sunk ship' = true) /\
     ((Ship.is_sunk ship = false /\ Ship.is_sunk ship' = true) <->
      ((r, c) ∈ Ship.coordinates ship /\ ((r, c) ∉ Ship.hits ship) /\
       Z.of_nat (size (Ship.hits ship)) + 1 = Ship.size ship)) /\
     (Ship.is_sunk ship = false -> Ship.is_sunk ship' = true ->
      result = ("sunk"%string, Some (Ship.name ship)) /\
      Ship.hits ship' = {[(r, c)]} ∪ Ship.hits ship)).
Proof.
  intros Hs Hi. destruct (reachable_ready s ref Hs) as [seed Hready].
  set (p := Main.deref s ref) in *.
  split; [intros rc; by apply (ready_hits _ _ Hready i)|].
  split; [unfold Ship.is_sunk; by rewrite bool_decide_eq_true|].
  intros r c opponent g result self' opponent' g' ship' Hrc Hrun Hi'.
  pose proof (hits_bounded seed p i ship Hready Hi) as Hbound.
  destruct (check_hit_ready seed p r c opponent g _ _ _ _ Hready Hrc Hrun) as [Hready' _].
  pose proof (hits_bounded seed self' i ship' Hready' Hi') as Hbound'.
  destruct (check_hit_spec seed p r c opponent g Hready Hrc)
    as (k & b & _ & _ & Hb & [(-> & E)|(-> & i0 & t & Hi0 & Hin & Huniq & E)]);
    rewrite E in Hrun; injection Hrun as <- <- <- <-.
  - (* a miss: nothing changes, and the cell belongs to no ship *)
    rewrite Hi in Hi'. injection Hi' as <-.
    split; [done|]. split; [|by intros ->].
    split; [by intros [-> ?]|]. intros (Hin & _ & _).
    assert (cell (Player.board p) (r, c) = Some 1); [|congruence].
    apply (layout_occupied _ _ (ready_layout _ _ Hready)); [done|].
    destruct (fleet_size p i ship (layout_sizes _ _ (ready_layout _ _ Hready)) Hi).
    eauto.
  - cbn in Hi'. destruct (decide (i = i0)) as [->|Hne].
    + (* the ship that owns the cell *)
      rewrite Hi in Hi0. injection Hi0 as <-.
      rewrite list_lookup_insert_eq in Hi' by (by eapply lookup_lt_Some).
      injection Hi' as <-.
      unfold Ship.is_sunk in *. cbn in Hbound' |- *.
      rewrite !bool_decide_eq_true, !bool_decide_eq_false.
      destruct (decide ((r, c) ∈ Ship.hits ship)) as [Hold|Hnew].
      * assert ({[(r, c)]} ∪ Ship.hits ship = Ship.hits ship) as ->
          by (by apply subseteq_union_1_L, singleton_subseteq_l).
        split; [done|]. split; [|by intros ?]. split; [by intros [? ?]|tauto].
      * rewrite size_union, size_singleton in Hbound' |- *
          by (by apply disjoint_singleton_l).
        split; [lia|]. split.
        -- split; [intros [? ?]; repeat split; try done; lia|intros (_ & _ & ?); lia].
        -- intros _ Hfull. by rewrite bool_decide_eq_true_2.
    + (* another ship *)
      rewrite list_lookup_insert_ne in Hi' by done.
      rewrite Hi in Hi'. injection Hi' as <-.
      split; [done|]. split; [|by intros ->].
      split; [by intros [-> ?]|].
      intros (Hin' & _ & _). destruct Hne. by eapply Huniq.
Qed.

(** C5, amended: two runs of the protocol on the same cell with different
    blinding factors decrypt to different values exactly when the cell holds
    a ship (on water both values are 0), and the two queries return the same
    result and the same defender. *)
Theorem blinding_independence s ref (r c : Z) g1 g2 k1 k2 v1 v2 g1' g2' opponent :
  reachable s -> in_grid (r, c) ->
  Player.blinded_value (Main.deref s ref) r c g1 = Ok (k1, v1, g1') ->
  Player.blinded_value (Main.deref s ref) r c g2 = Ok (k2, v2, g2') ->
  k1 ≠ k2 ->
  (v1 ≠ v2 <-> cell (Player.board (Main.deref s ref)) (r, c) = Some 1) /\
  (cell (Player.board (Main.deref s ref)) (r, c) = Some 0 -> v1 = 0 /\ v2 = 0) /\
  exists result self',
    Player.check_hit_homomorphic (Main.deref s ref) r c opponent g1
    = Ok (result, self', opponent, g1') /\
    Player.check_hit_homomorphic (Main.deref s ref) r c opponent g2
    = Ok (result, self', opponent, g2').
Proof.
  intros Hs Hrc H1 H2 Hk. destruct (reachable_ready s ref Hs) as [seed Hready].
  destruct (check_hit_spec seed _ r c opponent g1 Hready Hrc)
    as (k1' & b & Hval1 & _ & Hb & Hres1).
  destruct (check_hit_spec seed _ r c opponent g2 Hready Hrc)
    as (k2' & b' & Hval2 & _ & Hb' & Hres2).
  assert (b' = b) as -> by congruence.
  rewrite H1 in Hval1. injection Hval1 as <- -> ->.
  rewrite H2 in Hval2. injection Hval2 as <- -> ->.
  rewrite Hb.
  destruct Hres1 as [(-> & E1)|(-> & i & t & Hi & Hin & _ & E1)];
    destruct Hres2 as [(? & E2)|(? & i' & t' & Hi' & _ & Huniq & E2)]; try lia.
  - split; [split; [lia|by intros [=]]|]. split; [lia|]. eauto.
  - assert (i = i') as -> by (by eapply Huniq).
    assert (t' = t) as -> by congruence.
    split; [split; [done|lia]|]. split; [by intros [=]|]. eauto.
Qed.

(** C7: [has_lost] holds exactly when [hits_received] is at least 16, the
    total number of ship cells; in the states of the game that is exactly when
    [hits_received] equals 16, and the query after which [has_lost] holds for
    the first time leaves [hits_received] at 16. *)
Theorem has_lost_threshold s ref :
  reachable s ->
  Player.total_ship_cells (Main.deref s ref) = 16 /\
  (Player.has_lost (Main.deref s ref) = true <->
   16 <= Player.hits_received (Main.deref s ref)) /\
  (Player.has_lost (Main.deref s ref) = true <->
   Player.hits_received (Main.deref s ref) = 16) /\
  (forall r c opponent g result self' opponent' g',
     Player.check_hit_homomorphic (Main.deref s ref) r c opponent g
     = Ok (result, self', opponent', g') ->
     Player.has_lost (Main.deref s ref) = false -> Player.has_lost self' = true ->
     Player.hits_received self' = 16).
Proof.
  intros Hs. pose proof (reachable_in_game s Hs) as Hgame.
  destruct (game_ready _ Hgame ref) as [seed Hready].
  pose proof (ready_total _ _ Hready) as Htot.
  pose proof (game_hits _ Hgame ref) as Hle.
  unfold Player.has_lost. rewrite Htot, bool_decide_eq_true.
  split; [done|]. split; [done|]. split; [lia|].
  intros r c opponent g result self' opponent' g' Hrun.
  rewrite bool_decide_eq_false, bool_decide_eq_true.
  destruct (check_hit_shape _ _ _ _ _ _ _ _ _ Hrun) as [_ [(_ & ->)|(_ & ss & ->)]]; cbn.
  - lia.
  - rewrite Htot. lia.
Qed.

(** C10: the object passed as [opponent] comes back from
    [check_hit_homomorphic] as it went in, and the result, the defender and
    the generator after the call are the same whatever object is passed. *)
Theorem check_hit_ignores_opponent (self : Player.t) (r c : Z) (opponent other : Player.t) g :
  Player.check_hit_homomorphic self r c opponent g
  = match Player.check_hit_homomorphic self r c other g with
    | Ok (result, self', _, g') => Ok (result, self', opponent, g')
    | Raise e => Raise e
    | OutOfFuel => OutOfFuel
    end.
Proof.
  unfold Player.check_hit_homomorphic.
  destruct (Player.blinded_value self r c g) as [[[k v] g']| |]; cbn; [|done..].
  destruct (negb (bool_decide (v = 0))); [|done].
  by destruct (Player.mark_hit _ _).
Qed.

Lemma mark_of_cases result :
  Main.mark_of result = "X"%string \/ Main.mark_of result = "O"%string.
Proof. unfold Main.mark_of. repeat case_bool_decide; auto. Qed.

(** An iteration of the game loop changes at most one guess-board entry: the
    attacker's entry at the guessed cell, from blank to "X" or "O". *)
Lemma guess_board_step s (r c : Z) g s' g' ref rc :
  reachable s -> in_grid (r, c) -> in_grid rc ->
  Main.loop_body s (r, c) g = Ok (s', g') ->
  (cell (Player.guess_board (Main.deref s ref)) rc ≠ Some " "%string ->
   cell (Player.guess_board (Main.deref s' ref)) rc
   = cell (Player.guess_board (Main.deref s ref)) rc) /\
  (cell (Player.guess_board (Main.deref s' ref)) rc
   ≠ cell (Player.guess_board (Main.deref s ref)) rc ->
   ref = Main.current_player s /\ rc = (r, c) /\
   cell (Player.guess_board (Main.deref s ref)) rc = Some " "%string /\
   (cell (Player.guess_board (Main.deref s' ref)) rc = Some "X"%string \/
    cell (Player.guess_board (Main.deref s' ref)) rc = Some "O"%string)).
Proof.
  intros Hs Hrc Hrc' Hrun. pose proof (reachable_in_game s Hs) as Hgame.
  destruct (loop_body_step s r c g s' g' Hgame Hrc Hrun)
    as [(_ & -> & _)|(Hblank & result & defender & gb & Hcheck & Hgb & Hme & Hyou & _)].
  { rewrite deref_set_turn. split; [done|]. by intros []. }
  assert (ref = Main.current_player s \/ ref = Main.opponent s) as [-> | ->].
  { pose proof (game_roles _ Hgame).
    destruct ref, (Main.current_player s), (Main.opponent s); auto; done. }
  - rewrite Hme. cbn [Player.guess_board Player.set_guess_board].
    rewrite (Hgb rc) by apply Hrc'.
    destruct (decide (rc = (r, c))) as [->|Hne].
    + split; [by rewrite Hblank|]. intros _. repeat split; try done.
      destruct (mark_of_cases result.1) as [-> | ->]; auto.
    + split; [done|]. by intros [].
  - rewrite Hyou.
    destruct (check_hit_shape _ _ _ _ _ _ _ _ _ Hcheck) as [_ [(_ & ->)|(_ & ss & ->)]];
      (split; [done|]); by intros [].
Qed.

(** C8: a guess at a cell the attacker has already marked goes no further
    than the check of the guess board: the iteration ends with both players
    as they were (no hit recorded, no guess-board entry written), the same
    attacker and defender, the same [game_over] and the generator untouched
    (the protocol did not run: no blinding factor was drawn); only the turn
    counter of the loop has advanced.  An entry is marked by the first guess
    at it: an iteration on a guess at a blank entry of the attacker's guess
    board writes "X" there when the defender's board holds a ship at the
    cell and "O" when it holds water, so that the entry is not blank any
    more.  And in any iteration from a state of the game, an entry that is
    already marked keeps its mark, and the only entry that can change is the
    attacker's blank entry at the guessed cell.  So every entry is set once,
    by the first guess at its cell, and every later guess at the cell is
    turned away. *)
Theorem repeated_guess_rejected s (r c : Z) g seen :
  reachable s -> in_grid (r, c) ->
  cell (Player.guess_board (Main.deref s (Main.current_player s))) (r, c) = Some seen ->
  seen ≠ " "%string ->
  (Main.loop_body s (r, c) g = Ok (Main.set_turn s (Main.turn s + 1), g) /\
   (forall ref, Main.deref (Main.set_turn s (Main.turn s + 1)) ref = Main.deref s ref) /\
   Main.current_player (Main.set_turn s (Main.turn s + 1)) = Main.current_player s /\
   Main.opponent (Main.set_turn s (Main.turn s + 1)) = Main.opponent s /\
   Main.game_over (Main.set_turn s (Main.turn s + 1)) = Main.game_over s) /\
  (forall s0 guess g0 s' g' ref rc,
     reachable s0 -> in_grid guess -> in_grid rc ->
     Main.loop_body s0 guess g0 = Ok (s', g') ->
     (cell (Player.guess_board (Main.deref s0 ref)) rc ≠ Some " "%string ->
      cell (Player.guess_board (Main.deref s' ref)) rc
      = cell (Player.guess_board (Main.deref s0 ref)) rc) /\
     (cell (Player.guess_board (Main.deref s' ref)) rc
      ≠ cell (Player.guess_board (Main.deref s0 ref)) rc ->
      ref = Main.current_player s0 /\ rc = guess /\
      cell (Player.guess_board (Main.deref s0 ref)) rc = Some " "%string /\
      (cell (Player.guess_board (Main.deref s' ref)) rc = Some "X"%string \/
       cell (Player.guess_board (Main.deref s' ref)) rc = Some "O"%string))) /\
  (forall s0 guess g0 s' g',
     reachable s0 -> in_grid guess ->
     cell (Player.guess_board (Main.deref s0 (Main.current_player s0))) guess
     = Some " "%string ->
     Main.loop_body s0 guess g0 = Ok (s', g') ->
     exists b,
       cell (Player.board (Main.deref s0 (Main.opponent s0))) guess = Some b /\
       (b = 0 \/ b = 1) /\
       cell (Player.guess_board (Main.deref s' (Main.current_player s0))) guess
       = Some (if bool_decide (b = 1) then "X"%string else "O"%string) /\
       cell (Player.guess_board (Main.deref s' (Main.current_player s0))) guess
       ≠ Some " "%string).
Proof.
  intros Hs Hrc Hseen Hne. split; [|split].
  - split; [|by repeat split; try intros []].
    unfold Main.loop_body. cbn [Main.current_player Main.set_turn].
    rewrite deref_set_turn, (getitem2_cell _ r c seen) by (done || apply Hrc).
    rewrite bind_Ok_l. by rewrite bool_decide_eq_true_2.
  - intros s0 [r0 c0] g0 s' g' ref rc Hs0 Hguess Hrc' Hrun.
    by apply (guess_board_step s0 r0 c0 g0 s' g').
  - intros s0 [r0 c0] g0 s' g' Hs0 Hguess Hblank Hrun.
    pose proof (reachable_in_game s0 Hs0) as Hgame.
    destruct (loop_body_step s0 r0 c0 g0 s' g' Hgame Hguess Hrun)
      as [(Hmarked & _)|(_ & result & defender & gb & Hcheck & Hgb & Hme & _)];
      [done|].
    destruct (game_ready _ Hgame (Main.opponent s0)) as [seed Hready].
    destruct (check_hit_spec seed _ r0 c0 (Main.deref s0 (Main.current_player s0)) g0
                Hready Hguess) as (k & b & _ & _ & Hb & Hres).
    exists b. split; [done|]. rewrite Hme. cbn [Player.guess_board Player.set_guess_board].
    rewrite (Hgb (r0, c0)) by apply Hguess. rewrite decide_True by done.
    destruct Hres as [(-> & E)|(-> & i & t & _ & _ & _ & E)];
      rewrite E in Hcheck; injection Hcheck as <- _.
    + split; [by left|]. by split.
    + split; [by right|]. cbn [fst]. by destruct (Ship.is_sunk _).
Qed.

(** C9, amended: [place_ship_random] loops without a bound and has no error
    to end in.  For a ship of 1 to 10 cells on a board of ten rows of ten, as
    is every ship of the fleet during [setup_board], it never raises; it is
    still looping after [fuel] attempts exactly when each of the [fuel]
    placements it has drawn touches a cell that is not water, and it returns
    as soon as a drawn placement lies on water; and if no placement can
    succeed, every run of cells that fits the ship touching a cell that is not
    water, it is still looping after any number of attempts, whatever the
    random source draws. *)
Theorem place_ship_random_retries fuel p k ship g :
  grid10 (Player.board p) -> Player.ships p !! k = Some ship ->
  1 <= Ship.size ship <= 10 ->
  (forall e, Player.place_ship_random fuel p k g ≠ Raise e) /\
  (Player.place_ship_random fuel p k g = OutOfFuel <->
   blocked fuel (Player.board p) (Ship.size ship) g) /\
  (~ blocked fuel (Player.board p) (Ship.size ship) g ->
   exists p' g', Player.place_ship_random fuel p k g = Ok (p', g')) /\
  ((forall (h : bool) row col, 0 <= row -> 0 <= col ->
      (if h then row <= 9 /\ col + Ship.size ship <= 10
       else row + Ship.size ship <= 10 /\ col <= 9) ->
      exists i, 0 <= i < Ship.size ship /\
                cell (Player.board p) (span row col h i) ≠ Some 0) ->
   forall fuel' g', Player.place_ship_random fuel' p k g' = OutOfFuel).
Proof.
  intros Hg Hk Hsize. split; [|split; [|split]].
  - destruct (place_ship_random_outcome fuel p k ship g Hg Hk Hsize)
      as [[_ ->]|(_ & p' & g' & ->)]; done.
  - destruct (place_ship_random_outcome fuel p k ship g Hg Hk Hsize)
      as [[Hblocked ->]|(Hnot & p' & g' & ->)]; by split.
  - intros Hnot. destruct (place_ship_random_outcome fuel p k ship g Hg Hk Hsize)
      as [[Hblocked _]|(_ & p' & g' & ->)]; [done|eauto].
  - intros Hfull fuel' g'.
    destruct (place_ship_random_outcome fuel' p k ship g' Hg Hk Hsize)
      as [[_ ->]|(Hnot & _)]; [done|].
    destruct Hnot. by apply no_room_blocked.
Qed.

End claims.

(** * Further properties of the code *)

(** ** Ship.place and Player.place_ship_random *)

Section more_placement.
Context {phe : paillier.Scheme}.
Implicit Types (p : Player.t) (s : Ship.t).

(** X1: [place] returns the list it stores in [coordinates]: as many cells as
    the ship's size (none for a size that is not positive), without
    repetition, the cell at index [i] being [i] steps from the start cell
    along the row (horizontal) or down the column; the name, the size and the
    hits of the ship stay as they are, and what the list held before does not
    matter: placing the placed ship again gives the same result. *)
Theorem place_lists_the_cells self (row col : Z) (horizontal : bool) :
  (Ship.place self row col horizontal).2
  = Ship.coordinates (Ship.place self row col horizontal).1 /\
  length (Ship.place self row col horizontal).2 = Z.to_nat (Ship.size self) /\
  NoDup (Ship.place self row col horizontal).2 /\
  (forall i, 0 <= i < Ship.size self ->
     (Ship.place self row col horizontal).2 !! Z.to_nat i
     = Some (if horizontal then (row, col + i) else (row + i, col))) /\
  Ship.name (Ship.place self row col horizontal).1 = Ship.name self /\
  Ship.size (Ship.place self row col horizontal).1 = Ship.size self /\
  Ship.hits (Ship.place self row col horizontal).1 = Ship.hits self /\
  Ship.place (Ship.place self row col horizontal).1 row col horizontal
  = Ship.place self row col horizontal.
Proof.
  rewrite !place_spec. cbn [fst snd Ship.coordinates Ship.set_coordinates
    Ship.name Ship.size Ship.hits].
  split; [done|]. split; [apply span_length|]. split; [apply span_NoDup|].
  split; [|done].
  intros i Hi. rewrite list_lookup_fmap, lookup_seqZ_lt by lia.
  cbn. unfold span. rewrite Z2Nat.id by lia. by destruct horizontal.
Qed.

(** X2: when [place_ship_random] returns, for a ship of 1 to 10 cells on a
    board of ten rows of ten, the ship holds a straight run of cells inside
    the board, every one of which was water; the board differs from the one
    before exactly in these cells, which now hold 1; the other ships, the
    name, the guess board, the encrypted board, the keys and the counters are
    untouched; and each attempt made has consumed three random draws. *)
Theorem place_ship_random_effect fuel : forall p k s g p' g',
  grid10 (Player.board p) -> Player.ships p !! k = Some s -> 1 <= Ship.size s <= 10 ->
  Player.place_ship_random fuel p k g = Ok (p', g') ->
  exists h row col n,
    let cs := span row col h <$> seqZ 0 (Ship.size s) in
    Player.ships p' = <[k := Ship.set_coordinates s cs]> (Player.ships p) /\
    Forall in_grid cs /\
    (forall rc, rc ∈ cs -> cell (Player.board p) rc = Some 0) /\
    grid10 (Player.board p') /\
    (forall rc, in_grid rc ->
       cell (Player.board p') rc
       = if decide (rc ∈ cs) then Some 1 else cell (Player.board p) rc) /\
    (1 <= n <= fuel)%nat /\ g' = mkRandom (draws g) (3 * n + cursor g) /\
    Player.name p' = Player.name p /\
    Player.guess_board p' = Player.guess_board p /\
    Player.encrypted_board p' = Player.encrypted_board p /\
    Player.public_key p' = Player.public_key p /\
    Player.private_key p' = Player.private_key p /\
    Player.hits_received p' = Player.hits_received p /\
    Player.total_ship_cells p' = Player.total_ship_cells p.
Proof.
  induction fuel as [|fuel IH]; intros p k s g p' g' Hg Hk Hsize Hrun; [done|].
  destruct (place_ship_random_attempt fuel p k s g Hg Hk Hsize)
    as (h & row & col & _ & _ & _ & _ & Hin & [(Hw & b' & Hg' & Hcell & E)|(_ & E)]);
    rewrite E in Hrun.
  - injection Hrun as <- <-. exists h, row, col, 1%nat. cbv zeta.
    do 5 (split; [done|]). split; [lia|]. done.
  - set (cs := span row col h <$> seqZ 0 (Ship.size s)) in *.
    apply (IH _ k (Ship.set_coordinates s cs)) in Hrun as
      (h' & row' & col' & n & Hships & Hin' & Hw' & Hg' & Hcell' & Hn & -> & Hrest);
      [|done|cbn; apply list_lookup_insert_eq; by eapply lookup_lt_Some|done].
    exists h', row', col', (S n). cbv zeta in *.
    cbn [Ship.size Ship.set_coordinates Ship.name Ship.hits Player.ships Player.set_ships
         Player.board Player.name Player.guess_board Player.encrypted_board
         Player.public_key Player.private_key Player.hits_received
         Player.total_ship_cells] in *.
    rewrite list_insert_insert_eq in Hships.
    do 5 (split; [done|]). split; [lia|]. split; [cbn; f_equal; lia|]. apply Hrest.
Qed.

(** X3: a ship longer than the board cannot be placed: for a ship of more
    than 10 cells the first attempt raises [ValueError], from
    [random.randint(0, 10 - ship.size)] on an empty range, whatever the board
    and the random source. *)
Theorem place_ship_random_too_long fuel p k s g :
  Player.ships p !! k = Some s -> 10 < Ship.size s ->
  Player.place_ship_random (S fuel) p k g = Raise ValueError.
Proof.
  intros Hk Hsize. cbn [Player.place_ship_random].
  rewrite (getitem_lookup _ _ s) by (lia || by rewrite Nat2Z.id).
  rewrite bind_Ok_l. unfold Player.draw_placement, choice, next_raw. cbn [length].
  pose proof (Z.mod_pos_bound (draws g (cursor g)) (Z.of_nat 2) ltac:(lia)) as Hb.
  assert (Z.to_nat (draws g (cursor g) `mod` Z.of_nat 2) = 0%nat \/
          Z.to_nat (draws g (cursor g) `mod` Z.of_nat 2) = 1%nat) as [->| ->] by lia; cbn.
  - destruct (randint_spec 0 9 (mkRandom (draws g) (S (cursor g))) ltac:(lia))
      as (row & -> & Hrow). cbn.
    unfold randint. by rewrite (bool_decide_eq_true_2 (10 - Ship.size s < 0)) by lia.
  - unfold randint. by rewrite (bool_decide_eq_true_2 (10 - Ship.size s < 0)) by lia.
Qed.

(** X4: on a board that has no free run of cells for the ship, in either
    direction, [place_ship_random] never returns and never raises: it is
    still looping after any number of attempts, whatever the random source
    draws. *)
Theorem place_ship_random_no_room fuel : forall p k s g,
  grid10 (Player.board p) -> Player.ships p !! k = Some s -> 1 <= Ship.size s <= 10 ->
  (forall (h : bool) row col, 0 <= row -> 0 <= col ->
     (if h then row <= 9 /\ col + Ship.size s <= 10
      else row + Ship.size s <= 10 /\ col <= 9) ->
     exists i, 0 <= i < Ship.size s /\ cell (Player.board p) (span row col h i) ≠ Some 0) ->
  Player.place_ship_random fuel p k g = OutOfFuel.
Proof.
  induction fuel as [|fuel IH]; intros p k s g Hg Hk Hsize Hfull; [done|].
  destruct (place_ship_random_attempt fuel p k s g Hg Hk Hsize)
    as (h & row & col & Hrow & Hcol & Hfit & _ & Hin & [(Hw & _)|(_ & ->)]).
  - destruct (Hfull h row col Hrow Hcol Hfit) as (i & Hi & Hne). destruct Hne.
    apply Hw. apply list_elem_of_fmap. exists i. split; [done|]. apply elem_of_seqZ. lia.
  - apply (IH _ k (Ship.set_coordinates s (span row col h <$> seqZ 0 (Ship.size s))));
      try done.
    cbn. apply list_lookup_insert_eq. by eapply lookup_lt_Some.
Qed.

(** Placing the ships from position [k] on either runs out of iterations or
    returns. *)
Lemma place_all_run fuel n : forall k p g,
  layout k p -> (k + n <= 5)%nat ->
  Player.place_all fuel p (seq k n) g = OutOfFuel \/
  exists p' g', Player.place_all fuel p (seq k n) g = Ok (p', g') /\
    layout (k + n) p' /\ same_rest p p'.
Proof.
  induction n as [|n IH]; intros k p g Hlay Hk.
  - right. exists p, g. rewrite Nat.add_0_r. split; [done|]. split; [done|apply same_rest_refl].
  - cbn [seq Player.place_all].
    destruct (layout_lookup k p k Hlay ltac:(lia)) as [t Ht].
    destruct (place_ship_random_run fuel p k t g Hlay Ht)
      as [[_ ->]|(_ & p1 & g1 & -> & Hlay1 & Hrest1)]; [by left|].
    rewrite bind_Ok_l. cbv beta iota.
    destruct (IH (S k) p1 g1 Hlay1 ltac:(lia)) as [->|(p' & g' & -> & Hlay' & Hrest')];
      [by left|].
    right. exists p', g'. split; [done|].
    replace (k + S n)%nat with (S k + n)%nat by lia.
    split; [done|]. by eapply same_rest_trans.
Qed.

End more_placement.

(** ** Player.encrypt_board and the order of the protocol steps *)

Section more_encryption.
Context {phe : paillier.Scheme}.
Implicit Types (p : Player.t) (s : Ship.t).

Lemma encrypt_cells_run cs : forall p g p' g',
  Player.encrypt_cells p cs g = Ok (p', g') ->
  p' = Player.set_encrypted_board p (Player.encrypted_board p') /\
  g' = mkRandom (draws g) (length cs + cursor g) /\
  (forall rc, rc ∉ cs -> Player.encrypted_board p' !! rc = Player.encrypted_board p !! rc) /\
  (forall rc, rc ∈ cs -> Forall (fun rc => 0 <= rc.1 /\ 0 <= rc.2) cs ->
     exists pk v nonce ct,
       Player.public_key p = Some pk /\ cell (Player.board p) rc = Some v /\
       Player.encrypted_board p' !! rc = Some ct /\ paillier.encrypt pk v nonce = Ok ct).
Proof.
  induction cs as [|[row col] cs IH]; intros p g p' g' Hrun.
  - injection Hrun as <- <-. split; [by destruct p|]. split; [by destruct g|].
    split; [done|]. by intros rc ?%elem_of_nil.
  - cbn [Player.encrypt_cells] in Hrun.
    apply bind_Ok in Hrun as ([p1 g1] & Hone & Hrun).
    unfold Player.encrypt_cell in Hone.
    apply bind_Ok in Hone as (pk & Hpk & Hone).
    apply bind_Ok in Hone as (v & Hv & Hone). cbn [next_raw] in Hone.
    apply bind_Ok in Hone as (ct & Hct & [= <- <-]).
    assert (Player.public_key p = Some pk) as Hkey
      by (destruct (Player.public_key p); [by injection Hpk as ->|done]).
    destruct (IH _ _ _ _ Hrun) as (Hp' & -> & Hout & Hin).
    cbn [Player.encrypted_board Player.set_encrypted_board Player.public_key
         Player.board draws cursor] in *.
    split; [rewrite Hp'; by destruct p|]. split; [f_equal; cbn; lia|]. split.
    + intros rc Hrc. apply not_elem_of_cons in Hrc as [Hne Hrc].
      rewrite (Hout rc Hrc). by apply lookup_insert_ne.
    + intros rc Hrc Hpos. apply Forall_cons in Hpos as [[Hr Hc] Hpos]. cbn in Hr, Hc.
      destruct (decide (rc ∈ cs)) as [Hcs|Hcs]; [by apply Hin|].
      apply elem_of_cons in Hrc as [->|?]; [|done].
      exists pk, v, (draws g (cursor g)), ct. split; [done|].
      split; [by apply getitem2_Ok_cell|]. split; [|done].
      rewrite (Hout _ Hcs). apply lookup_insert_eq.
Qed.

(** X5: when [encrypt_board] returns, the player is the one before with a
    new dictionary only: entries for keys outside the board are as they
    were, every cell of the board has an entry, and that entry is an
    encryption, under the player's own public key, of the value the plaintext
    board holds at the cell; the call has consumed 100 random draws, one per
    ciphertext. *)
Theorem encrypt_board_writes p g p' g' :
  Player.encrypt_board p g = Ok (p', g') ->
  p' = Player.set_encrypted_board p (Player.encrypted_board p') /\
  g' = mkRandom (draws g) (100 + cursor g) /\
  (forall rc, ~ in_grid rc ->
     Player.encrypted_board p' !! rc = Player.encrypted_board p !! rc) /\
  (forall rc, in_grid rc ->
     exists pk v nonce ct,
       Player.public_key p = Some pk /\ cell (Player.board p) rc = Some v /\
       Player.encrypted_board p' !! rc = Some ct /\ paillier.encrypt pk v nonce = Ok ct).
Proof.
  intros Hrun. destruct (encrypt_cells_run _ _ _ _ _ Hrun) as (Hp' & -> & Hout & Hin).
  split; [done|]. split; [done|]. split.
  - intros rc Hrc. apply Hout. by rewrite elem_of_cells.
  - intros rc Hrc. apply Hin; [by apply elem_of_cells|].
    apply Forall_forall. intros rc' Hrc'%elem_of_cells. unfold in_grid in Hrc'. lia.
Qed.

(** X6: nothing but exceptions enforces the order generate_keys,
    encrypt_board, check_hit_homomorphic.  Without a public key
    [encrypt_board] raises [AttributeError] at the first cell, before it
    reads the board.  A query for a cell that has no entry in the encrypted
    board, as every cell before [encrypt_board] has run, raises [KeyError]
    before a blinding factor is drawn.  With an entry but without a private
    key the query raises [AttributeError] once the blinding factor has been
    drawn and multiplied in. *)
Theorem protocol_steps_out_of_order p (r c : Z) opponent g :
  (Player.public_key p = None -> Player.encrypt_board p g = Raise AttributeError) /\
  (Player.encrypted_board p !! (r, c) = None ->
   Player.check_hit_homomorphic p r c opponent g = Raise KeyError) /\
  (forall ct k g' ct',
     Player.encrypted_board p !! (r, c) = Some ct -> randint 1 999999 g = Ok (k, g') ->
     paillier.mul ct k = Ok ct' -> Player.private_key p = None ->
     Player.check_hit_homomorphic p r c opponent g = Raise AttributeError).
Proof.
  split; [|split].
  - intros Hpk. unfold Player.encrypt_board.
    change Player.cells with ((0, 0) :: tail Player.cells).
    cbn [Player.encrypt_cells]. unfold Player.encrypt_cell. by rewrite Hpk.
  - intros Heb. unfold Player.check_hit_homomorphic, Player.blinded_value. by rewrite Heb.
  - intros ct k g' ct' Heb Hk Hmul Hsk.
    unfold Player.check_hit_homomorphic, Player.blinded_value.
    rewrite Heb. cbn [dict_get]. rewrite bind_Ok_l, Hk, bind_Ok_l. cbv beta iota.
    by rewrite Hmul, bind_Ok_l, Hsk.
Qed.

End more_encryption.

(** ** The game loop *)

Section more_game.
Context {phe : paillier.Scheme}.
Implicit Types (p : Player.t) (s : Main.state).

(** An iteration of the game loop from a state of the game, evaluated. *)
Lemma loop_body_eval s (r c : Z) g :
  in_game s -> grid10 (Player.guess_board (Main.deref s (Main.current_player s))) ->
  in_grid (r, c) ->
  let cur := Main.current_player s in
  let opp := Main.opponent s in
  exists seen, cell (Player.guess_board (Main.deref s cur)) (r, c) = Some seen /\
    ((seen ≠ " "%string /\
      Main.loop_body s (r, c) g = Ok (Main.set_turn s (Main.turn s + 1), g)) \/
     (seen = " "%string /\
      exists result defender gb s',
        Player.check_hit_homomorphic (Main.deref s opp) r c (Main.deref s cur) g
        = Ok (result, defender, Main.deref s cur, mkRandom (draws g) (S (cursor g))) /\
        setitem2 (Player.guess_board (Main.deref s cur)) r c (Main.mark_of result.1) = Ok gb /\
        grid10 gb /\
        (forall rc, in_grid rc ->
           cell gb rc = if decide (rc = (r, c)) then Some (Main.mark_of result.1)
                        else cell (Player.guess_board (Main.deref s cur)) rc) /\
        Main.loop_body s (r, c) g = Ok (s', mkRandom (draws g) (S (cursor g))) /\
        Main.deref s' cur = Player.set_guess_board (Main.deref s cur) gb /\
        Main.deref s' opp = defender /\
        Main.turn s' = Main.turn s + 1 /\
        Main.game_over s' = (if Player.has_lost defender then true else Main.game_over s) /\
        Main.current_player s' = (if Player.has_lost defender then cur else opp) /\
        Main.opponent s' = (if Player.has_lost defender then opp else cur))).
Proof.
  intros Hgame Hgrid Hrc cur opp.
  pose proof (game_roles _ Hgame) as Hroles. fold cur opp in Hroles.
  destruct (cell_is_Some _ (r, c) Hgrid Hrc) as [seen Hseen]. fold cur in Hseen.
  exists seen. split; [done|].
  assert (getitem2 (Player.guess_board (Main.deref s cur)) r c = Ok seen) as Hget
    by (apply getitem2_cell; [apply Hrc..|done]).
  destruct (decide (seen = " "%string)) as [->|Hne].
  - right. split; [done|].
    destruct (game_ready _ Hgame opp) as [seed Hready].
    assert (exists result defender,
      Player.check_hit_homomorphic (Main.deref s opp) r c (Main.deref s cur) g
      = Ok (result, defender, Main.deref s cur, mkRandom (draws g) (S (cursor g))))
      as ([result ship_name] & defender & Hcheck).
    { destruct (check_hit_spec seed _ r c (Main.deref s cur) g Hready Hrc)
        as (k & b & _ & _ & _ & [(_ & E)|(_ & i & t & _ & _ & _ & E)]); eauto. }
    destruct (setitem2_grid (Player.guess_board (Main.deref s cur)) r c
                (Main.mark_of result) Hgrid Hrc) as (gb & Hset & Hg' & Hcell).
    exists (result, ship_name), defender, gb.
    clear Hgame Hready Hgrid Hseen.
    subst cur opp. destruct s as [p1 p2 n over cur opp].
    cbn [Main.current_player Main.opponent] in *.
    unfold Main.loop_body. cbv zeta.
    destruct cur, opp; try done;
      cbn [Main.deref Main.player1 Main.player2 Main.assign Main.current_player
           Main.opponent Main.turn Main.game_over Main.set_turn fst snd] in *.
    all: destruct (Player.has_lost defender) eqn:Hlost; eexists;
      do 4 (split; [done|]);
      (split; [rewrite Hget, bind_Ok_l, bool_decide_eq_false_2 by (intros H; by apply H);
               rewrite Hcheck, bind_Ok_l; cbv beta iota;
               rewrite Hset, bind_Ok_l, Hlost; reflexivity|]); done.
  - left. split; [done|]. subst cur opp. unfold Main.loop_body. cbv zeta.
    cbn [Main.current_player Main.set_turn]. rewrite !deref_set_turn.
    rewrite Hget, bind_Ok_l. by rewrite bool_decide_eq_true_2.
Qed.

Lemma other_roles s : in_game s ->
  Main.opponent s = other (Main.current_player s) /\
  Main.current_player s = other (Main.opponent s).
Proof.
  intros Hgame. pose proof (game_roles _ Hgame).
  by destruct (Main.current_player s), (Main.opponent s).
Qed.

Lemma player_setup_fresh fuel name pk sk g1 g2 g2' g3 p1 p2 :
  let p0 := Player.set_keys (Player.init name) pk sk in
  Player.setup_board fuel p0 g1 = Ok (p1, g2) ->
  Player.encrypt_board p1 g2' = Ok (p2, g3) ->
  Player.name p2 = name /\
  Player.guess_board p2 = replicate 10 (replicate 10 " "%string) /\
  Player.hits_received p2 = 0 /\
  Ship.hits <$> Player.ships p2 = replicate 5 ∅ /\
  (forall rc, is_Some (Player.encrypted_board p2 !! rc) <-> in_grid rc).
Proof.
  intros p0 Hsetup Henc.
  destruct (setup_board_layout fuel p0 g1 p1 g2 eq_refl eq_refl Hsetup)
    as [_ (Hname & Hgb & Heb & _ & _ & Hhr & _ & Hhits)].
  destruct (encrypt_cells_run _ _ _ _ _ Henc) as (-> & _ & Hout & Hin).
  cbn [Player.name Player.guess_board Player.hits_received Player.ships
       Player.set_encrypted_board Player.encrypted_board] in *.
  do 4 (split; [done|]). intros rc. split.
  - intros Hsome. destruct (decide (in_grid rc)) as [|Hno]; [done|].
    rewrite (Hout rc), Heb in Hsome by (by rewrite elem_of_cells). by destruct Hsome.
  - intros Hrc. destruct (Hin rc) as (? & ? & ? & ct & _ & _ & -> & _); [| |by eexists].
    + by apply elem_of_cells.
    + apply Forall_forall. intros rc' Hrc'%elem_of_cells. unfold in_grid in Hrc'. lia.
Qed.

(** The state in which the game loop starts. *)
Lemma setup_start fuel g s g' :
  Main.setup fuel g = Ok (s, g') ->
  Main.turn s = 0 /\ Main.game_over s = false /\
  Main.current_player s = Main.Player1 /\ Main.opponent s = Main.Player2 /\
  Player.name (Main.player1 s) = "Alice"%string /\
  Player.name (Main.player2 s) = "Bob"%string /\
  forall r,
    Player.guess_board (Main.deref s r) = replicate 10 (replicate 10 " "%string) /\
    Player.hits_received (Main.deref s r) = 0 /\
    Ship.hits <$> Player.ships (Main.deref s r) = replicate 5 ∅ /\
    (forall rc, is_Some (Player.encrypted_board (Main.deref s r) !! rc) <-> in_grid rc).
Proof.
  unfold Main.setup. intros H.
  destruct (generate_keys_spec (Player.init "Alice") g) as [seed1 H1].
  rewrite H1 in H. clear H1.
  destruct (generate_keys_spec (Player.init "Bob") (mkRandom (draws g) (S (cursor g))))
    as [seed2 H2]. rewrite H2 in H. clear H2.
  apply bind_Ok in H as ([p1 g1] & Hs1 & H).
  apply bind_Ok in H as ([p2 g2] & Hs2 & H).
  apply bind_Ok in H as ([q1 g3] & He1 & H).
  apply bind_Ok in H as ([q2 g4] & He2 & H).
  injection H as <- <-.
  destruct (player_setup_fresh _ _ _ _ _ _ _ _ _ _ Hs1 He1) as (? & ? & ? & ? & ?).
  destruct (player_setup_fresh _ _ _ _ _ _ _ _ _ _ Hs2 He2) as (? & ? & ? & ? & ?).
  cbn. do 6 (split; [done|]). by intros [|].
Qed.

Lemma hit_cells_insert (ss : list Ship.t) rc : forall i t,
  ss !! i = Some t -> rc ∉ Ship.hits t ->
  foldr Z.add 0 ((fun hits : gset (Z * Z) => Z.of_nat (size hits))
                 <$> (Ship.hits <$> <[i := Ship.add_hit t rc]> ss))
  = foldr Z.add 0 ((fun hits : gset (Z * Z) => Z.of_nat (size hits))
                   <$> (Ship.hits <$> ss)) + 1.
Proof.
  induction ss as [|u ss IH]; intros i t Hi Hnew; [done|]. destruct i as [|i].
  - injection Hi as ->. cbn.
    rewrite size_union, size_singleton by (by apply disjoint_singleton_l). lia.
  - change (<[S i := Ship.add_hit t rc]> (u :: ss))
      with (u :: <[i := Ship.add_hit t rc]> ss).
    rewrite !fmap_cons. cbn [foldr]. rewrite (IH i t Hi Hnew). lia.
Qed.

Lemma tracking_ext s s' a :
  tracking s a ->
  Player.guess_board (Main.deref s' a) = Player.guess_board (Main.deref s a) ->
  Player.encrypted_board (Main.deref s' a) = Player.encrypted_board (Main.deref s a) ->
  Player.ships (Main.deref s' (other a)) = Player.ships (Main.deref s (other a)) ->
  Player.board (Main.deref s' (other a)) = Player.board (Main.deref s (other a)) ->
  Player.hits_received (Main.deref s' (other a))
  = Player.hits_received (Main.deref s (other a)) ->
  tracking s' a.
Proof.
  intros [Tg Tm Th Tmiss Tc Tx Tk] Hgb Heb Hships Hboard Hhr.
  split; unfold hit_cells; rewrite ?Hgb, ?Heb, ?Hships, ?Hboard, ?Hhr; done.
Qed.

Lemma tracking_setup fuel g s g' a : Main.setup fuel g = Ok (s, g') -> tracking s a.
Proof.
  intros (_ & _ & _ & _ & _ & _ & Hall)%setup_start.
  destruct (Hall a) as (Hgb & _ & _ & Hkeys).
  destruct (Hall (other a)) as (_ & Hhr & Hhits & _).
  split; rewrite ?Hgb, ?Hhr; unfold hit_cells; rewrite ?Hhits.
  - split; [done|]. by apply Forall_replicate.
  - intros rc Hrc. left. by apply cell_replicate.
  - intros rc Hrc. rewrite cell_replicate by done. split; [done|].
    intros (i & t & Hi & Hin).
    assert ((Ship.hits <$> Player.ships (Main.deref s (other a))) !! i = Some (Ship.hits t))
      as H by (by rewrite list_lookup_fmap, Hi).
    rewrite Hhits in H. apply lookup_replicate in H as [H _]. rewrite H in Hin.
    by apply elem_of_empty in Hin.
  - intros rc Hrc. by rewrite cell_replicate.
  - cbn. by rewrite size_empty.
  - by vm_compute.
  - done.
Qed.

Lemma mark_of_miss : Main.mark_of "miss" = "O"%string.
Proof. done. Qed.

Lemma mark_of_hit (sunk : bool) (name : string) :
  Main.mark_of (if sunk then ("sunk"%string, Some name) else ("hit"%string, None)).1
  = "X"%string.
Proof. by destruct sunk. Qed.

(** An iteration of the game loop keeps the tracking boards in step with the
    hits the players have recorded. *)
Lemma tracking_step s guess g s' g' a :
  in_game s -> tracking s (Main.current_player s) -> tracking s (Main.opponent s) ->
  in_grid guess -> Main.loop_body s guess g = Ok (s', g') -> tracking s' a.
Proof.
  intros Hgame Tcur Topp Hguess Hrun. destruct guess as [r c].
  destruct (other_roles s Hgame) as [Hopp Hcur].
  assert (a = Main.current_player s \/ a = Main.opponent s) as Ha.
  { rewrite Hopp. destruct a, (Main.current_player s); auto. }
  destruct (loop_body_eval s r c g Hgame (track_grid _ _ Tcur) Hguess)
    as (seen & Hseen & [(_ & E)|(-> & result & defender & gb & s1 & Hcheck & _ & Hg' & Hcell
                                  & E & Hme & Hyou & _)]);
    rewrite E in Hrun; injection Hrun as <- <-.
  { destruct Ha as [-> | ->]; [apply (tracking_ext s)|apply (tracking_ext s)];
      by rewrite ?deref_set_turn. }
  destruct (game_ready _ Hgame (Main.opponent s)) as [seed Hready].
  destruct (check_hit_spec seed _ r c (Main.deref s (Main.current_player s)) g Hready Hguess)
    as (k & b & _ & _ & Hb & Hres).
  destruct Ha as [-> | ->].
  - (* the board of the player who guessed *)
    destruct Tcur as [Tg Tm Th Tmiss Tc Tx Tk].
    rewrite <- Hopp in *.
    destruct Hres as [(-> & E')|(-> & i & t & Hi & Hin & _ & E')];
      rewrite E' in Hcheck; injection Hcheck as <- <-.
    + cbn [fst] in Hcell. rewrite mark_of_miss in Hcell.
      split; rewrite <- ?Hopp, ?Hme, ?Hyou;
        cbn [Player.guess_board Player.set_guess_board Player.encrypted_board]; try done.
      * intros rc Hrc. rewrite Hcell by done. destruct (decide (rc = (r, c))); auto.
      * intros rc Hrc. rewrite Hcell by done. destruct (decide (rc = (r, c))) as [->|]; [|auto].
        split; [done|]. intros Hhit%Th; [congruence|done].
      * intros rc Hrc. rewrite Hcell by done. destruct (decide (rc = (r, c))) as [->|]; auto.
      * rewrite Tx. f_equal. f_equal. apply filter_agree. intros rc Hrc%elem_of_cells.
        rewrite Hcell by done. destruct (decide (rc = (r, c))) as [->|]; [|done].
        rewrite Hseen. split; by intros [=].
    + rewrite mark_of_hit in Hcell.
      assert ((r, c) ∉ Ship.hits t) as Hnew.
      { intros Hold. assert (cell (Player.guess_board (Main.deref s (Main.current_player s)))
                                  (r, c) = Some "X"%string) as HX
          by (apply Th; [done|]; eauto).
        congruence. }
      split; rewrite <- ?Hopp, ?Hme, ?Hyou;
        cbn [Player.guess_board Player.set_guess_board Player.encrypted_board record_hit
             Player.ships Player.set_ships Player.board Player.hits_received
             Player.set_hits_received]; try done.
      * intros rc Hrc. rewrite Hcell by done. destruct (decide (rc = (r, c))); auto.
      * intros rc Hrc. rewrite Hcell by done. destruct (decide (rc = (r, c))) as [->|Hne].
        -- split; [|done]. intros _. exists i, (Ship.add_hit t (r, c)). split.
           ++ apply list_lookup_insert_eq. by eapply lookup_lt_Some.
           ++ cbn. apply elem_of_union_l. by apply elem_of_singleton.
        -- rewrite (Th rc Hrc). split.
           ++ intros (j & u & Hj & Hu).
              destruct (decide (j = i)) as [->|Hji].
              ** exists i, (Ship.add_hit t (r, c)). split.
                 --- apply list_lookup_insert_eq. by eapply lookup_lt_Some.
                 --- cbn. apply elem_of_union_r. congruence.
              ** exists j, u. by rewrite list_lookup_insert_ne.
           ++ intros (j & u' & Hj & Hu).
              destruct (hit_lookup _ _ _ _ _ _ Hi Hj)
                as (u & Hu' & _ & _ & _ & [Hh|(-> & -> & Hh)]); rewrite Hh in Hu.
              ** eauto.
              ** apply elem_of_union in Hu as [->%elem_of_singleton|Hu]; [done|eauto].
      * intros rc Hrc. rewrite Hcell by done. destruct (decide (rc = (r, c))) as [->|]; auto.
        by intros [=].
      * unfold hit_cells, record_hit. cbn [Player.ships Player.set_ships].
        rewrite (hit_cells_insert _ _ _ _ Hi Hnew). unfold hit_cells in Tc. lia.
      * unfold marked in *.
        rewrite (filter_length_flip
                   (fun rc => cell (Player.guess_board (Main.deref s (Main.current_player s))) rc
                              = Some "X"%string)
                   (fun rc => cell gb rc = Some "X"%string) Player.cells (r, c)); [lia|..].
        -- apply NoDup_cells.
        -- by apply elem_of_cells.
        -- by rewrite Hseen.
        -- rewrite Hcell by done. by rewrite decide_True.
        -- intros rc Hrc%elem_of_cells Hne. rewrite Hcell by done. by rewrite decide_False.
  - (* the board of the player who was asked *)
    assert (Player.guess_board defender = Player.guess_board (Main.deref s (Main.opponent s)) /\
            Player.encrypted_board defender
            = Player.encrypted_board (Main.deref s (Main.opponent s))) as [Hgb Heb].
    { destruct Hres as [(_ & E')|(_ & i & t & _ & _ & _ & E')];
        rewrite E' in Hcheck; by injection Hcheck as <- <-. }
    apply (tracking_ext s); rewrite <- ?Hcur, ?Hme, ?Hyou; done.
Qed.

Lemma reachable_tracking s : reachable s -> forall a, tracking s a.
Proof.
  induction 1 as [fuel g s g' Hsetup|s guess g s' g' Hs IH Hover Hguess Hrun]; intros a.
  - by eapply tracking_setup.
  - eapply tracking_step; try done. by apply reachable_in_game.
Qed.

(** An iteration of the game loop on a guess inside the board returns. *)
Lemma loop_body_total s guess g :
  reachable s -> in_grid guess -> exists s' g', Main.loop_body s guess g = Ok (s', g').
Proof.
  intros Hs Hguess. destruct guess as [r c].
  destruct (loop_body_eval s r c g (reachable_in_game s Hs)
              (track_grid _ _ (reachable_tracking s Hs (Main.current_player s))) Hguess)
    as (seen & _ & [(_ & E)|(_ & result & defender & gb & s' & _ & _ & _ & _ & E & _)]);
    eauto.
Qed.

(** A player whose counter is the number of recorded hits has lost exactly
    when each of the ships is sunk. *)
Lemma lost_all_sunk seed p :
  ready seed p -> Player.hits_received p = hit_cells p ->
  (Player.has_lost p = true <-> Forall (fun t => Ship.is_sunk t = true) (Player.ships p)).
Proof.
  intros Hready Hcount.
  unfold Player.has_lost. rewrite (ready_total _ _ Hready), bool_decide_eq_true, Hcount.
  pose proof (layout_sizes _ _ (ready_layout _ _ Hready)) as Hsizes.
  pose proof (fun i t => hits_bounded seed p i t Hready) as Hbound.
  unfold hit_cells.
  destruct (Player.ships p) as [|t0 [|t1 [|t2 [|t3 [|t4 [|t5 ts]]]]]]; try done.
  injection Hsizes as H0 H1 H2 H3 H4.
  pose proof (Hbound 0%nat t0 eq_refl). pose proof (Hbound 1%nat t1 eq_refl).
  pose proof (Hbound 2%nat t2 eq_refl). pose proof (Hbound 3%nat t3 eq_refl).
  pose proof (Hbound 4%nat t4 eq_refl).
  rewrite !Forall_cons, Forall_nil. unfold Ship.is_sunk. rewrite !bool_decide_eq_true.
  cbn [fmap list_fmap foldr]. lia.
Qed.

Lemma getitem_wrap {A} (l : list A) (i : Z) :
  length l = 10%nat -> -10 <= i <= 9 ->
  exists a, l !! Z.to_nat (i mod 10) = Some a /\ getitem l i = Ok a.
Proof.
  intros Hlen Hi.
  destruct (lookup_lt_is_Some_2 l (Z.to_nat (i mod 10))) as [a Ha].
  { pose proof (Z.mod_pos_bound i 10). lia. }
  exists a. split; [done|]. unfold getitem, py_index. rewrite Hlen.
  change (Z.of_nat 10) with 10.
  destruct (decide (0 <= i)) as [Hpos|Hneg].
  - rewrite bool_decide_eq_true_2 by lia. rewrite bind_Ok_l.
    rewrite Z.mod_small in Ha by lia. by rewrite Ha.
  - rewrite bool_decide_eq_false_2, bool_decide_eq_true_2 by lia. rewrite bind_Ok_l.
    replace (i mod 10) with (i + 10) in Ha; [by rewrite Ha|].
    apply (Z.mod_unique i 10 (-1)); lia.
Qed.

Lemma getitem_out_of_range {A} (l : list A) (i : Z) :
  length l = 10%nat -> i < -10 \/ 9 < i -> getitem l i = Raise IndexError.
Proof.
  intros Hlen Hi. unfold getitem, py_index. rewrite Hlen.
  change (Z.of_nat 10) with 10. by rewrite !bool_decide_eq_false_2 by lia.
Qed.

(** How the turn counter bounds the hits of the two players. *)
Lemma reachable_turns s :
  reachable s ->
  let a := Player.hits_received (Main.player2 s) in
  let b := Player.hits_received (Main.player1 s) in
  if Main.game_over s then
    Player.has_lost (Main.deref s (Main.opponent s)) = true /\
    Player.hits_received (Main.deref s (Main.current_player s)) < 16 /\
    match Main.current_player s with
    | Main.Player1 => 31 <= Main.turn s
    | Main.Player2 => 32 <= Main.turn s
    end
  else
    match Main.current_player s with
    | Main.Player1 => 2 * a <= Main.turn s /\ 2 * b <= Main.turn s
    | Main.Player2 => 2 * a - 1 <= Main.turn s /\ 2 * b + 1 <= Main.turn s
    end.
Proof.
  induction 1 as [fuel g s g' Hsetup|s guess g s' g' Hs IH Hover Hguess Hrun]; cbv zeta.
  - apply setup_start in Hsetup as (Hturn & -> & -> & _ & _ & _ & Hall).
    destruct (Hall Main.Player1) as (_ & H1 & _). destruct (Hall Main.Player2) as (_ & H2 & _).
    cbn in H1, H2. lia.
  - cbv zeta in IH. rewrite Hover in IH. destruct guess as [r c].
    pose proof (reachable_in_game s Hs) as Hgame.
    pose proof (reachable_tracking s Hs (Main.current_player s)) as Tcur.
    destruct (other_roles s Hgame) as [Horole _].
    pose proof (game_running _ Hgame Main.Player1 Hover) as Hlt1.
    pose proof (game_running _ Hgame Main.Player2 Hover) as Hlt2.
    cbn [Main.deref] in Hlt1, Hlt2.
    destruct (loop_body_eval s r c g Hgame (track_grid _ _ Tcur) Hguess)
      as (seen & Hseen & [(_ & E)|(-> & result & defender & gb & s1 & Hcheck & _ & _ & _
                                    & E & Hme & Hyou & Hturn & Hover' & Hcur & Hopp)]);
      rewrite E in Hrun; injection Hrun as <- <-.
    { cbn [Main.game_over Main.set_turn Main.current_player Main.player1 Main.player2
           Main.turn]. rewrite Hover. destruct (Main.current_player s); lia. }
    destruct (game_ready _ Hgame (Main.opponent s)) as [seed Hready].
    destruct (check_hit_ready _ _ _ _ _ _ _ _ _ _ Hready Hguess Hcheck) as [Hready' Hhits].
    rewrite Hover', Hcur, Hopp, Hturn, Hover.
    assert (Player.has_lost defender = true <-> 16 <= Player.hits_received defender) as Hlost.
    { unfold Player.has_lost. by rewrite (ready_total _ _ Hready'), bool_decide_eq_true. }
    rewrite Horole in *.
    destruct (Main.current_player s); cbn [other Main.deref] in *;
      destruct (Player.has_lost defender) eqn:Hl;
      cbn [Main.deref]; rewrite ?Hme, ?Hyou;
      cbn [Player.hits_received Player.set_guess_board];
      try (assert (16 <= Player.hits_received defender) by (by apply Hlost));
      try (assert (~ 16 <= Player.hits_received defender)
             by (intros ?; by assert (false = true) by (by apply Hlost)));
      repeat split; try done; lia.
Qed.

Lemma player_setup_run fuel name seed g :
  let p0 := Player.set_keys (Player.init name)
              (paillier.generate_paillier_keypair seed).1
              (paillier.generate_paillier_keypair seed).2 in
  Player.setup_board fuel p0 g = OutOfFuel \/
  exists p1 g1, Player.setup_board fuel p0 g = Ok (p1, g1) /\
    forall g', exists p2 g2, Player.encrypt_board p1 g' = Ok (p2, g2).
Proof.
  intros p0. unfold Player.setup_board. change (length (Player.ships p0)) with 5%nat.
  destruct (place_all_run fuel 5 0 p0 g (layout_fresh p0 eq_refl eq_refl) ltac:(lia))
    as [->|(p1 & g1 & -> & Hlay & Hrest)]; [by left|].
  right. exists p1, g1. split; [done|]. intros g'.
  destruct Hrest as (_ & _ & _ & Hpk & Hsk & _ & Htot & Hhits).
  destruct (encrypt_board_ready seed p1 g') as (p2 & g2 & -> & _); [| | | |by eauto].
  - split; [by rewrite Hpk|by rewrite Hsk].
  - done.
  - intros t [i Hi]%list_elem_of_lookup.
    assert ((Ship.hits <$> Player.ships p1) !! i = Some (Ship.hits t)) as H
      by (by rewrite list_lookup_fmap, Hi).
    rewrite Hhits in H. cbn in H.
    do 5 (destruct i as [|i]; [by injection H as <-|]). done.
  - by rewrite Htot.
Qed.

(** The setup phase either runs out of iterations in a placement loop or
    returns. *)
Lemma setup_runs fuel g :
  Main.setup fuel g = OutOfFuel \/ exists s g', Main.setup fuel g = Ok (s, g').
Proof.
  unfold Main.setup.
  destruct (generate_keys_spec (Player.init "Alice") g) as [seed1 ->]. cbv zeta beta iota.
  destruct (generate_keys_spec (Player.init "Bob") (mkRandom (draws g) (S (cursor g))))
    as [seed2 ->]. cbv beta iota. cbn [draws cursor].
  destruct (player_setup_run fuel "Alice" seed1 (mkRandom (draws g) (S (S (cursor g)))))
    as [->|(p1 & g1 & -> & Henc1)]; [by left|].
  rewrite bind_Ok_l. cbv beta iota.
  destruct (player_setup_run fuel "Bob" seed2 g1) as [->|(p2 & g2 & -> & Henc2)];
    [by left|].
  rewrite bind_Ok_l. cbv beta iota.
  destruct (Henc1 g2) as (q1 & g3 & ->). rewrite bind_Ok_l. cbv beta iota.
  destruct (Henc2 g3) as (q2 & g4 & ->). rewrite bind_Ok_l. right. eauto.
Qed.

End more_game.

Section more_claims.
Context {phe : paillier.Scheme}.
Implicit Types (p : Player.t) (s : Main.state).

(** X7: [check_hit_homomorphic] has no memory of the cells it was asked
    about: a query for a cell that is already in the hit set of a ship
    returns "sunk" with the ship's name if that ship is sunk and "hit"
    otherwise, adds 1 to [hits_received] once more, and leaves the ships as
    they are, the hit set being a set.  Only the guess-board check of the game
    loop keeps the counter equal to the number of cells hit. *)
Theorem check_hit_counts_repeats s ref (r c : Z) opponent g i t :
  reachable s -> in_grid (r, c) ->
  Player.ships (Main.deref s ref) !! i = Some t -> (r, c) ∈ Ship.hits t ->
  Player.check_hit_homomorphic (Main.deref s ref) r c opponent g
  = Ok (if Ship.is_sunk t then ("sunk"%string, Some (Ship.name t)) else ("hit"%string, None),
        Player.set_hits_received (Main.deref s ref)
          (Player.hits_received (Main.deref s ref) + 1),
        opponent, mkRandom (draws g) (S (cursor g))).
Proof.
  intros Hs Hrc Hi Hhit. destruct (reachable_ready s ref Hs) as [seed Hready].
  set (p := Main.deref s ref) in *.
  pose proof (ready_layout _ _ Hready) as Hlay.
  assert ((r, c) ∈ Ship.coordinates t) as Hin by (by eapply (ready_hits _ _ Hready)).
  destruct (fleet_size p i t (layout_sizes _ _ Hlay) Hi) as [_ Hi5].
  assert (cell (Player.board p) (r, c) = Some 1) as Hb
    by (apply (layout_occupied _ _ Hlay); [done|]; eauto).
  destruct (check_hit_spec seed p r c opponent g Hready Hrc)
    as (k & b & _ & _ & Hb' & [(-> & _)|(_ & i0 & t0 & Hi0 & _ & Huniq & ->)]);
    [congruence|].
  assert (i = i0) as <- by (by eapply Huniq).
  assert (t0 = t) as -> by congruence.
  assert (Ship.add_hit t (r, c) = t) as Hsame.
  { unfold Ship.add_hit.
    assert ({[(r, c)]} ∪ Ship.hits t = Ship.hits t) as ->
      by (by apply subseteq_union_1_L, singleton_subseteq_l).
    by destruct t. }
  unfold record_hit. by rewrite Hsame, list_insert_id by done.
Qed.

(** X8: from a state of the game, an iteration of the game loop on a guess
    inside the board never raises: it returns, with the turn counter
    advanced by one and at most one random number drawn, and either the same
    player is to move (the guess was a repeat, or it ended the game) or the
    two players have changed roles, which happens only on a guess at a blank
    entry after which the player who was asked has not lost. *)
Theorem loop_body_never_raises s guess g :
  reachable s -> in_grid guess ->
  exists s' g',
    Main.loop_body s guess g = Ok (s', g') /\
    Main.turn s' = Main.turn s + 1 /\
    (g' = g \/ g' = mkRandom (draws g) (S (cursor g))) /\
    ((Main.current_player s' = Main.current_player s /\
      Main.opponent s' = Main.opponent s) \/
     (Main.current_player s' = Main.opponent s /\
      Main.opponent s' = Main.current_player s /\
      Main.game_over s' = Main.game_over s /\
      cell (Player.guess_board (Main.deref s (Main.current_player s))) guess
      = Some " "%string /\
      Player.has_lost (Main.deref s' (Main.current_player s')) = false)).
Proof.
  intros Hs Hguess. destruct guess as [r c].
  pose proof (reachable_in_game s Hs) as Hgame.
  pose proof (reachable_tracking s Hs (Main.current_player s)) as Tcur.
  destruct (loop_body_eval s r c g Hgame (track_grid _ _ Tcur) Hguess)
    as (seen & Hseen & [(_ & E)|(-> & result & defender & gb & s' & _ & _ & _ & _
                                  & E & _ & Hyou & Hturn & Hover & Hcur & Hopp)]).
  - eexists _, _. split; [done|]. split; [done|]. split; [by left|]. by left.
  - exists s', (mkRandom (draws g) (S (cursor g))).
    split; [done|]. split; [done|]. split; [by right|].
    rewrite Hover, Hcur, Hopp. destruct (Player.has_lost defender) eqn:Hlost; [by left|].
    right. by rewrite Hyou.
Qed.

(** X9: what the range check of [get_player_guess] prevents.  For a
    coordinate outside the board, [check_hit_homomorphic] raises [KeyError]:
    the encrypted board is a dictionary, which has no entry for it, negative
    indices included.  An iteration of the game loop on such a guess raises
    [IndexError] when a coordinate is below -10 or above 9; when both are
    within -10 .. 9 the guess board, a list of lists, accepts the negative
    index and reads the entry it wraps to: if that entry is blank the
    iteration raises [KeyError], and if it is marked the guess is taken for a
    repeat. *)
Theorem guess_outside_the_board s (r c : Z) opponent g ref :
  reachable s -> ~ in_grid (r, c) ->
  Player.check_hit_homomorphic (Main.deref s ref) r c opponent g = Raise KeyError /\
  (r < -10 \/ 9 < r \/ c < -10 \/ 9 < c -> Main.loop_body s (r, c) g = Raise IndexError) /\
  (-10 <= r <= 9 -> -10 <= c <= 9 ->
   (cell (Player.guess_board (Main.deref s (Main.current_player s))) (r mod 10, c mod 10)
    = Some " "%string ->
    Main.loop_body s (r, c) g = Raise KeyError) /\
   (cell (Player.guess_board (Main.deref s (Main.current_player s))) (r mod 10, c mod 10)
    ≠ Some " "%string ->
    Main.loop_body s (r, c) g = Ok (Main.set_turn s (Main.turn s + 1), g))).
Proof.
  intros Hs Hout.
  assert (forall ref opponent,
    Player.check_hit_homomorphic (Main.deref s ref) r c opponent g = Raise KeyError) as Hkey.
  { intros ref' opponent'.
    pose proof (track_keys _ _ (reachable_tracking s Hs ref') (r, c)) as Hk.
    unfold Player.check_hit_homomorphic, Player.blinded_value.
    destruct (Player.encrypted_board (Main.deref s ref') !! (r, c)) eqn:E; [|done].
    destruct Hout. apply Hk. by eexists. }
  split; [apply Hkey|].
  destruct (track_grid _ _ (reachable_tracking s Hs (Main.current_player s))) as [Hlen Hrows].
  unfold Main.loop_body. cbv zeta. cbn [Main.current_player Main.set_turn Main.opponent].
  rewrite !deref_set_turn. unfold getitem2.
  set (gb := Player.guess_board (Main.deref s (Main.current_player s))) in *.
  split.
  - intros Hfar. destruct (decide (r < -10 \/ 9 < r)) as [Hr|Hr].
    + by rewrite getitem_out_of_range.
    + destruct (getitem_wrap gb r Hlen ltac:(lia)) as (row & Hrow & ->).
      rewrite bind_Ok_l. cbv beta. rewrite getitem_out_of_range; [done| |lia].
      by apply (Forall_lookup_1 _ _ _ _ Hrows Hrow).
  - intros Hr Hc.
    destruct (getitem_wrap gb r Hlen Hr) as (row & Hrow & ->).
    assert (length row = 10%nat) as Hlen' by (by apply (Forall_lookup_1 _ _ _ _ Hrows Hrow)).
    rewrite bind_Ok_l. cbv beta.
    destruct (getitem_wrap row c Hlen' Hc) as (seen & Hseen & ->).
    rewrite !bind_Ok_l. unfold cell. cbn [fst snd]. rewrite Hrow. cbn. rewrite Hseen.
    split.
    + intros [= ->]. rewrite bool_decide_eq_false_2 by (intros H; by apply H).
      by rewrite Hkey.
    + intros Hne. rewrite bool_decide_eq_true_2; [done|]. by intros ->.
Qed.

(** X10: in every state of the game the guess board of a player tells the
    truth about the other player.  Each entry is blank, "X" or "O"; an entry
    is "X" exactly when the cell is in the hit set of one of the other
    player's ships, and then the other player's board holds a ship there; an
    entry "O" lies on water of the other player's board; and the other
    player's [hits_received] is the number of entries marked "X", which is
    the number of cells in the hit sets of the other player's ships. *)
Theorem tracking_board_truthful s a rc :
  reachable s -> in_grid rc ->
  let gb := Player.guess_board (Main.deref s a) in
  let defender := Main.deref s (other a) in
  (cell gb rc = Some " "%string \/ cell gb rc = Some "X"%string \/
   cell gb rc = Some "O"%string) /\
  (cell gb rc = Some "X"%string <->
   exists i t, Player.ships defender !! i = Some t /\ rc ∈ Ship.hits t) /\
  (cell gb rc = Some "X"%string -> cell (Player.board defender) rc = Some 1) /\
  (cell gb rc = Some "O"%string -> cell (Player.board defender) rc = Some 0) /\
  Player.hits_received defender = Z.of_nat (length (marked "X" gb)) /\
  Player.hits_received defender = hit_cells defender.
Proof.
  intros Hs Hrc gb defender.
  destruct (reachable_tracking s Hs a) as [Tg Tm Th Tmiss Tc Tx Tk].
  destruct (reachable_ready s (other a) Hs) as [seed Hready].
  split; [by apply Tm|]. split; [by apply Th|]. split; [|by auto].
  intros (i & t & Hi & Hin)%Th; [|done].
  pose proof (ready_layout _ _ Hready) as Hlay.
  destruct (fleet_size _ i t (layout_sizes _ _ Hlay) Hi) as [_ Hi5].
  apply (layout_occupied _ _ Hlay); [done|]. exists i, t. split; [done|]. split; [done|].
  by eapply (ready_hits _ _ Hready).
Qed.

(** X11: in every state of the game [has_lost], which compares the counter
    [hits_received] with the number of ship cells, holds exactly when every
    ship of the player is sunk, as the method's docstring says. *)
Theorem has_lost_iff_all_sunk s ref :
  reachable s ->
  (Player.has_lost (Main.deref s ref) = true <->
   Forall (fun t => Ship.is_sunk t = true) (Player.ships (Main.deref s ref))).
Proof.
  intros Hs. destruct (reachable_ready s ref Hs) as [seed Hready].
  apply (lost_all_sunk seed); [done|].
  pose proof (track_count _ _ (reachable_tracking s Hs (other ref))) as Hcount.
  by destruct ref.
Qed.

(** X12: when the game is over, the player in [current_player] is the
    winner: the player in [opponent] has lost, with exactly 16 hits received
    and every ship sunk, the winner has not lost, and the winner's guess board
    shows 16 entries marked "X".  The turn counter, which [main] prints as
    the total number of turns, is at least 31, and at least 32 when the second
    player has won. *)
Theorem game_over_winner s :
  reachable s -> Main.game_over s = true ->
  Player.has_lost (Main.deref s (Main.opponent s)) = true /\
  Player.has_lost (Main.deref s (Main.current_player s)) = false /\
  Player.hits_received (Main.deref s (Main.opponent s)) = 16 /\
  Forall (fun t => Ship.is_sunk t = true) (Player.ships (Main.deref s (Main.opponent s))) /\
  length (marked "X" (Player.guess_board (Main.deref s (Main.current_player s)))) = 16%nat /\
  31 <= Main.turn s /\
  (Main.current_player s = Main.Player2 -> 32 <= Main.turn s).
Proof.
  intros Hs Hover. pose proof (reachable_turns s Hs) as H. cbv zeta in H.
  rewrite Hover in H. destruct H as (Hlost & Hlt & Hturn).
  pose proof (reachable_in_game s Hs) as Hgame.
  destruct (other_roles s Hgame) as [Hopp _].
  destruct (reachable_ready s (Main.current_player s) Hs) as [seed Hready].
  destruct (reachable_ready s (Main.opponent s) Hs) as [seed' Hready'].
  pose proof (reachable_tracking s Hs (Main.current_player s)) as Tcur.
  assert (Player.hits_received (Main.deref s (Main.opponent s)) = 16) as H16.
  { pose proof (game_hits _ Hgame (Main.opponent s)) as Hle.
    unfold Player.has_lost in Hlost. rewrite (ready_total _ _ Hready') in Hlost.
    apply bool_decide_eq_true in Hlost. lia. }
  split; [done|]. split.
  { unfold Player.has_lost. rewrite (ready_total _ _ Hready).
    by apply bool_decide_eq_false_2, Z.lt_nge. }
  split; [done|]. split.
  { apply (lost_all_sunk seed'); [done| |done].
    pose proof (track_count _ _ Tcur) as Hcount. by rewrite <- Hopp in Hcount. }
  split.
  { pose proof (track_marked _ _ Tcur) as Hx. rewrite <- Hopp in Hx. lia. }
  destruct (Main.current_player s); split; (lia || done).
Qed.

(** X13: while the game is not over, the player to move has a cell left to
    guess that wins ground: some cell holds a ship on the opponent's board
    and is still blank on the guess board of the player to move. *)
Theorem unguessed_ship_cell s :
  reachable s -> Main.game_over s = false ->
  exists rc, in_grid rc /\
    cell (Player.board (Main.deref s (Main.opponent s))) rc = Some 1 /\
    cell (Player.guess_board (Main.deref s (Main.current_player s))) rc = Some " "%string.
Proof.
  intros Hs Hover. pose proof (reachable_in_game s Hs) as Hgame.
  destruct (other_roles s Hgame) as [Hopp _].
  destruct (reachable_tracking s Hs (Main.current_player s)) as [_ Tm _ Tmiss _ Tx _].
  rewrite <- Hopp in *.
  destruct (reachable_ready s (Main.opponent s) Hs) as [seed Hready].
  pose proof (game_running _ Hgame (Main.opponent s) Hover) as Hlt.
  set (gb := Player.guess_board (Main.deref s (Main.current_player s))) in *.
  set (b := Player.board (Main.deref s (Main.opponent s))) in *.
  assert (length (occupied b) = 16%nat) as Hocc.
  { unfold b. rewrite (layout_count _ _ (ready_layout _ _ Hready)).
    rewrite (layout_sizes _ _ (ready_layout _ _ Hready)). by vm_compute. }
  destruct (decide (Forall (fun rc => rc ∈ marked "X" gb) (occupied b))) as [Hall|Hnot].
  { assert (occupied b ⊆+ marked "X" gb) as Hsub.
    { apply NoDup_submseteq; [apply NoDup_filter, NoDup_cells|].
      by apply Forall_forall. }
    apply submseteq_length in Hsub. lia. }
  apply not_Forall_Exists in Hnot; [|apply _].
  apply Exists_exists in Hnot as (rc & Hin & Hno).
  apply list_elem_of_filter in Hin as [Hship Hrc%elem_of_cells].
  exists rc. split; [done|]. split; [done|].
  destruct (Tm rc Hrc) as [H|[H|H]]; [done| |].
  - destruct Hno. apply list_elem_of_filter. split; [done|]. by apply elem_of_cells.
  - apply Tmiss in H; [|done]. fold b in H. congruence.
Qed.

(** X14: the setup phase of [main] never raises.  Either one of the ten
    placement loops is still running when its iterations are used up, or the
    phase returns, and then the game starts at turn 0 with the game not over,
    Alice to move and Bob as opponent, both guess boards blank, no hit
    received and no hit recorded on any ship. *)
Theorem setup_never_raises fuel g :
  Main.setup fuel g = OutOfFuel \/
  exists s g',
    Main.setup fuel g = Ok (s, g') /\
    Main.turn s = 0 /\ Main.game_over s = false /\
    Main.current_player s = Main.Player1 /\ Main.opponent s = Main.Player2 /\
    Player.name (Main.player1 s) = "Alice"%string /\
    Player.name (Main.player2 s) = "Bob"%string /\
    forall r,
      Player.guess_board (Main.deref s r) = replicate 10 (replicate 10 " "%string) /\
      Player.hits_received (Main.deref s r) = 0 /\
      Forall (fun t => Ship.hits t = ∅) (Player.ships (Main.deref s r)).
Proof.
  destruct (setup_runs fuel g) as [?|(s & g' & Hrun)]; [by left|].
  right. exists s, g'. split; [done|].
  destruct (setup_start _ _ _ _ Hrun) as (? & ? & ? & ? & ? & ? & Hall).
  do 6 (split; [done|]). intros r. destruct (Hall r) as (? & ? & Hhits & _).
  split; [done|]. split; [done|]. apply Forall_lookup. intros i t Hi.
  assert ((Ship.hits <$> Player.ships (Main.deref s r)) !! i = Some (Ship.hits t)) as Ht
    by (by rewrite list_lookup_fmap, Hi).
  rewrite Hhits in Ht. by apply lookup_replicate in Ht as [-> _].
Qed.

End more_claims.

(** ** get_player_guess and main *)

Section more_input.
Context {text : builtins.Text}.

(** The lines a pass of the input loop accepts. *)
Lemma read_guess_Some line row col :
  read_guess line = Some (row, col) <->
  exists a b, builtins.split (builtins.strip line) = [a; b] /\
    builtins.int a = Some row /\ builtins.int b = Some col /\ in_grid (row, col).
Proof.
  unfold read_guess, in_grid. cbn [fst snd].
  destruct (builtins.split (builtins.strip line)) as [|a [|b [|c parts]]];
    try (split; [done|by intros (? & ? & [=] & _)]).
  cbn [length lookup list_lookup]. rewrite bool_decide_eq_false_2 by (by intros H).
  cbn [mbind option_bind].
  split.
  - intros H. exists a, b. split; [done|].
    destruct (builtins.int a) as [row'|]; [|done]. cbn in H.
    destruct (builtins.int b) as [col'|]; [|done]. cbn in H.
    case_bool_decide; [|done]. by injection H as -> ->.
  - intros (a' & b' & [= <- <-] & -> & -> & Hgrid). cbn.
    by rewrite bool_decide_eq_true_2.
Qed.

(** X15: [get_player_guess] returns only coordinates of the board.  It
    skips every line that does not split into exactly two parts, both
    integer literals, with both values in 0 .. 9, and returns the pair read
    from the first line that does, leaving the lines after it unread; when no
    line of the input is acceptable it ends in the [EOFError] of [input()]. *)
Theorem get_player_guess_returns stdin :
  match get_player_guess stdin with
  | Some (row, col, rest) =>
      in_grid (row, col) /\
      exists skipped line,
        stdin = skipped ++ line :: rest /\
        Forall (fun l => read_guess l = None) skipped /\
        exists a b, builtins.split (builtins.strip line) = [a; b] /\
          builtins.int a = Some row /\ builtins.int b = Some col
  | None => Forall (fun l => read_guess l = None) stdin
  end.
Proof.
  induction stdin as [|line stdin IH]; [by apply Forall_nil|]. cbn [get_player_guess].
  destruct (read_guess line) as [[row col]|] eqn:Hline.
  - apply read_guess_Some in Hline as (a & b & Hparts & Ha & Hb & Hgrid).
    split; [done|]. exists [], line. split; [done|]. split; [by apply Forall_nil|]. eauto.
  - destruct (get_player_guess stdin) as [[[row col] rest]|].
    + destruct IH as (Hgrid & skipped & line' & -> & Hskip & Hline').
      split; [done|]. exists (line :: skipped), line'. split; [done|]. split; [|done].
      by apply Forall_cons.
    + by apply Forall_cons.
Qed.

Lemma get_player_guess_Some stdin row col rest :
  get_player_guess stdin = Some (row, col, rest) ->
  in_grid (row, col) /\ (length rest < length stdin)%nat.
Proof.
  induction stdin as [|line stdin IH]; [done|]. cbn [get_player_guess].
  destruct (read_guess line) as [[row' col']|] eqn:Hline.
  - intros [= -> -> ->]. apply read_guess_Some in Hline as (_ & _ & _ & _ & _ & Hgrid).
    split; [done|]. cbn. lia.
  - intros [Hgrid Hlen]%IH. split; [done|]. cbn. lia.
Qed.

Context {phe : paillier.Scheme}.
Implicit Types (s : Main.state).

(** An iteration with its input is the iteration on the guess that was read;
    what is left of the input is what [get_player_guess] left, less the line
    the prompt reads when the players change roles. *)
Lemma loop_iteration_body s stdin g row col rest :
  get_player_guess stdin = Some (row, col, rest) ->
  exists out : option (list string),
    Main.loop_iteration s stdin g
    = ('(s', g') ← Main.loop_body s (row, col) g; Ok (s', out, g')) /\
    (out = Some rest \/
     (forall s' g', Main.loop_body s (row, col) g = Ok (s', g') ->
        Main.game_over s' = Main.game_over s /\
        Main.current_player s' = Main.opponent s /\
        out = match rest with [] => None | _ :: rest => Some rest end)).
Proof.
  intros Hguess. unfold Main.loop_iteration, Main.loop_body. rewrite Hguess. cbv zeta.
  destruct (getitem2 _ row col) as [seen| |]; cbn [mbind res_bind];
    [|by exists (Some rest); auto..].
  case_bool_decide.
  { exists (Some rest). auto. }
  destruct (Player.check_hit_homomorphic _ _ _ _ _)
    as [[[[[result ship_name] defender] attacker] g1]| |]; cbn [mbind res_bind];
    [|by exists (Some rest); auto..].
  destruct (setitem2 _ _ _ _) as [gb| |]; cbn [mbind res_bind];
    [|by exists (Some rest); auto..].
  destruct (Player.has_lost _).
  { exists (Some rest). auto. }
  exists (match rest with [] => None | _ :: rest => Some rest end).
  split; [by destruct rest|]. right. intros s' g' [= <- <-].
  cbn [Main.game_over Main.switch_players Main.current_player].
  by rewrite !assign_game_over, !assign_opponent.
Qed.

(** The game loop on any input, from a state of the game: with one iteration
    allowed per line and one more, it ends with the game over or in the
    [EOFError] of [input()]. *)
Lemma main_loop_runs fuel : forall s stdin g,
  reachable s -> (length stdin < fuel)%nat ->
  exists s' out g',
    Main.main_loop fuel s stdin g = Ok (s', out, g') /\
    match out with
    | Some rest => Main.game_over s' = true /\ reachable s'
    | None => Main.game_over s' = false
    end.
Proof.
  induction fuel as [|fuel IH]; intros s stdin g Hs Hfuel; [lia|].
  cbn [Main.main_loop]. destruct (Main.game_over s) eqn:Hover.
  { by exists s, (Some stdin), g. }
  destruct (get_player_guess stdin) as [[[row col] rest]|] eqn:Hguess.
  - destruct (get_player_guess_Some _ _ _ _ Hguess) as [Hgrid Hlen].
    destruct (loop_body_total s (row, col) g Hs Hgrid) as (s1 & g1 & Hrun).
    destruct (loop_iteration_body s stdin g row col rest Hguess) as (out & -> & Hout).
    rewrite Hrun, !bind_Ok_l. cbv beta iota.
    assert (reachable s1) as Hs1 by (by eapply reach_turn).
    destruct Hout as [-> | Hout]; [apply IH; [done|lia]|].
    destruct (Hout s1 g1 Hrun) as (Hover1 & _ & ->). destruct rest as [|line rest].
    + exists s1, None, g1. split; [done|]. congruence.
    + apply IH; [done|]. cbn in Hlen. lia.
  - unfold Main.loop_iteration. rewrite Hguess. rewrite bind_Ok_l. cbv beta iota.
    by exists (Main.set_turn s (Main.turn s + 1)), None, g.
Qed.

(** X16: [main] never raises an exception of its own, whatever the players
    type.  With one iteration of the game loop allowed per line of input and
    one more, either a placement loop of the setup phase is still running when
    its iterations are used up, or [main] comes to an end: with the game over,
    in a state of the game, or, when the input runs out while the game is
    still on, in the [EOFError] of [input()].  No [IndexError], [KeyError],
    [ValueError], [AttributeError] or [OverflowError] escapes. *)
Theorem main_never_raises placing turns stdin g :
  (length stdin < turns)%nat ->
  (Main.setup placing g = OutOfFuel /\ Main.main placing turns stdin g = OutOfFuel) \/
  exists s' out g',
    Main.main placing turns stdin g = Ok (s', out, g') /\
    match out with
    | Some rest => Main.game_over s' = true /\ reachable s'
    | None => Main.game_over s' = false
    end.
Proof.
  intros Hturns. unfold Main.main.
  destruct (setup_runs placing g) as [->|(s & g' & Hsetup)]; [by left|].
  right. rewrite Hsetup, bind_Ok_l. cbv beta iota.
  apply main_loop_runs; [|done]. by eapply reach_setup.
Qed.

End more_input.

(** ** The two displays *)

Lemma join_chars_get (ms : list ascii) : forall j : nat,
  String.get (2 * j) (String.concat " " (char_string <$> ms)) = ms !! j.
Proof.
  induction ms as [|m [|m' ms] IH]; intros j.
  - by destruct j.
  - destruct j as [|j]; [done|]. cbn. by destruct (j + S (j + 0))%nat.
  - destruct j as [|j]; [done|].
    replace (2 * S j)%nat with (S (S (2 * j))) by lia. apply (IH j).
Qed.

Lemma join_chars_length (ms : list ascii) :
  String.length (String.concat " " (char_string <$> ms)) = (2 * length ms - 1)%nat.
Proof.
  induction ms as [|m [|m' ms] IH]; [done..|].
  change (S (S (String.length (String.concat " " (char_string <$> m' :: ms))))
          = (2 * length (m :: m' :: ms) - 1)%nat).
  rewrite IH. cbn [length]. lia.
Qed.

Lemma pretty_digit (n : nat) :
  (n < 10)%nat -> pretty n = char_string (ascii_of_nat (48 + n)).
Proof. intros Hn. do 10 (destruct n as [|n]; [by vm_compute|]). lia. Qed.

(** A line of a board display: the label, two blanks, the cells. *)
Lemma display_line (n : nat) (ms : list ascii) (j : nat) :
  (n < 10)%nat ->
  let line := (pretty n +:+ "  " +:+ String.concat " " (char_string <$> ms))%string in
  String.get 0 line = Some (ascii_of_nat (48 + n)) /\
  String.get (3 + 2 * j) line = ms !! j /\
  String.length line = (3 + (2 * length ms - 1))%nat.
Proof.
  intros Hn line. unfold line. rewrite (pretty_digit n Hn).
  split; [done|]. split.
  - apply (join_chars_get ms j).
  - change (S (S (S (String.length (String.concat " " (char_string <$> ms)))))
            = (3 + (2 * length ms - 1))%nat).
    by rewrite join_chars_length.
Qed.

Lemma lookup_after_two {A} (a b : A) (l : list A) (n : nat) x :
  l !! n = Some x -> ([a] ++ [b] ++ l) !! (2 + n)%nat = Some x.
Proof. done. Qed.

Section more_display.
Context {phe : paillier.Scheme}.

Lemma display_header :
  ("   " +:+ String.concat " " (pretty <$> seqZ 0 10))%string
  = "   0 1 2 3 4 5 6 7 8 9"%string.
Proof. by vm_compute. Qed.

(** X17: [display_own_board] prints two lines and then one line per row
    of the board; the second line numbers the columns.  For a row with a
    one-digit index the line starts with that digit, and the character at
    position 3 + 2c is "S" when the board holds 1 at column c and "~" when it
    holds anything else: the display shows a ship exactly on the cells
    marked 1. *)
Theorem display_own_board_shows (p : Player.t) (r c : Z) v :
  0 <= r <= 9 -> 0 <= c -> cell (Player.board p) (r, c) = Some v ->
  length (Player.display_own_board p) = (2 + length (Player.board p))%nat /\
  Player.display_own_board p !! 1%nat = Some "   0 1 2 3 4 5 6 7 8 9"%string /\
  exists row line,
    Player.board p !! Z.to_nat r = Some row /\
    Player.display_own_board p !! (2 + Z.to_nat r)%nat = Some line /\
    String.length line = (3 + (2 * length row - 1))%nat /\
    String.get 0 line = Some (ascii_of_nat (48 + Z.to_nat r)) /\
    String.get (3 + 2 * Z.to_nat c) line
    = Some (if bool_decide (v = 1) then "S" else "~")%char.
Proof.
  intros Hr Hc Hcell. unfold Player.display_own_board. rewrite display_header.
  split; [by rewrite !length_app, length_imap|]. split; [done|].
  unfold cell in Hcell. cbn [fst snd] in Hcell.
  destruct (Player.board p !! Z.to_nat r) as [row|] eqn:Hrow; [|done]. cbn in Hcell.
  set (mark := fun x : Z => (if bool_decide (x = 1) then "S" else "~")%char).
  eexists row, _. split; [done|]. split.
  { apply lookup_after_two. rewrite list_lookup_imap, Hrow. reflexivity. }
  cbv beta zeta.
  assert ((fun cell : Z => if bool_decide (cell = 1) then "S"%string else "~"%string) <$> row
          = char_string <$> (mark <$> row)) as ->.
  { rewrite <- list_fmap_compose. apply list_fmap_ext. intros _ x _. cbn. unfold mark.
    by case_bool_decide. }
  destruct (display_line (Z.to_nat r) (mark <$> row) (Z.to_nat c) ltac:(lia))
    as (H0 & Hget & Hlen).
  split; [by rewrite Hlen, length_fmap|]. split; [done|].
  rewrite Hget, list_lookup_fmap, Hcell. done.
Qed.

(** X18: in every state of the game [display_guess_board] prints twelve
    lines, and the line of row r, 22 characters long, starts with the digit
    of r and shows at position 3 + 2c the one-character mark the guess board
    holds at (r, c): a blank, "X" or "O".  The "X" is shown exactly when
    the cell is in the hit set of one of the other player's ships, and an "O"
    only on water of the other player's board. *)
Theorem display_guess_board_shows s a (r c : Z) :
  reachable s -> in_grid (r, c) ->
  length (Player.display_guess_board (Main.deref s a)) = 12%nat /\
  exists line m,
    Player.display_guess_board (Main.deref s a) !! (2 + Z.to_nat r)%nat = Some line /\
    String.length line = 22%nat /\
    String.get 0 line = Some (ascii_of_nat (48 + Z.to_nat r)) /\
    String.get (3 + 2 * Z.to_nat c) line = Some m /\
    cell (Player.guess_board (Main.deref s a)) (r, c) = Some (String m EmptyString) /\
    (m = " " \/ m = "X" \/ m = "O")%char /\
    (m = "X"%char <->
     exists i t, Player.ships (Main.deref s (other a)) !! i = Some t /\ (r, c) ∈ Ship.hits t) /\
    (m = "O"%char -> cell (Player.board (Main.deref s (other a))) (r, c) = Some 0).
Proof.
  intros Hs Hrc. destruct (reachable_tracking s Hs a) as [Tg Tm Th Tmiss _ _ _].
  pose proof Hrc as [Hr Hc]. cbn in Hr, Hc.
  set (gb := Player.guess_board (Main.deref s a)) in *.
  unfold Player.display_guess_board. fold gb. destruct Tg as [Hlen Hrows].
  split; [by rewrite !length_app, length_imap, Hlen|].
  destruct (grid10_row gb r (conj Hlen Hrows) (proj1 Hrc)) as (row & Hrow & Hlen').
  assert (exists ms, row = char_string <$> ms /\
            Forall (fun m => m = " " \/ m = "X" \/ m = "O")%char ms) as (ms & -> & Hms).
  { exists ((fun m => default " "%char (String.get 0 m)) <$> row). split.
    - rewrite <- list_fmap_compose. rewrite <- (list_fmap_id row) at 1.
      apply list_fmap_ext. intros j m Hj.
      assert (cell gb (r, Z.of_nat j) = Some m) as Hm
        by (unfold cell; cbn; by rewrite Hrow, Nat2Z.id).
      apply lookup_lt_Some in Hj as Hlt.
      destruct (Tm (r, Z.of_nat j)) as [H|[H|H]]; [split; cbn; lia| | |];
        rewrite Hm in H; by injection H as ->.
    - apply Forall_fmap, Forall_lookup. intros j m Hj.
      assert (cell gb (r, Z.of_nat j) = Some m) as Hm
        by (unfold cell; cbn; by rewrite Hrow, Nat2Z.id).
      apply lookup_lt_Some in Hj as Hlt.
      destruct (Tm (r, Z.of_nat j)) as [H|[H|H]]; [split; cbn; lia| | |];
        rewrite Hm in H; injection H as ->; cbn; auto. }
  rewrite length_fmap in Hlen'.
  destruct (lookup_lt_is_Some_2 ms (Z.to_nat c)) as [m Hm]; [lia|].
  destruct (display_line (Z.to_nat r) ms (Z.to_nat c)) as (H0 & Hget & Hlen'');
    [lia|].
  assert (cell gb (r, c) = Some (String m EmptyString)) as Hcell
    by (unfold cell; cbn [fst snd]; rewrite Hrow; cbn [mbind option_bind];
        by rewrite list_lookup_fmap, Hm).
  eexists _, m. split.
  { apply lookup_after_two. rewrite list_lookup_imap, Hrow. reflexivity. }
  cbv beta. split; [rewrite Hlen'', Hlen'; done|]. split; [done|].
  split; [by rewrite Hget|]. split; [done|].
  split; [by apply (Forall_lookup_1 _ _ _ _ Hms Hm)|]. split.
  - rewrite <- (Th (r, c) Hrc), Hcell. split; [by intros ->|by intros [= ->]].
  - intros ->. by apply Tmiss.
Qed.

End more_display.

(** * A game on the integer Paillier scheme *)

(** Results are evaluated through these: [is_Ok] computes to a boolean, and a
    result that is [Ok] is [Ok] of its own value. *)
Definition is_Ok {A} (m : res A) : bool :=
  match m with Ok _ => true | _ => false end.

Definition value {A} (d : A) (m : res A) : A :=
  match m with Ok a => a | _ => d end.

Lemma Ok_value {A B} (d : A * B) (m : res (A * B)) :
  is_Ok m = true -> m = Ok ((value d m).1, (value d m).2).
Proof. by destruct m as [[? ?]| |]. Qed.

Lemma Some_default {A} (d : A) (o : option A) :
  bool_decide (is_Some o) = true -> o = Some (default d o).
Proof. intros [a ->]%bool_decide_eq_true. done. Qed.

(** The generator of the game below. *)
Definition demo_generator : Random := mkRandom (fun i => Z.of_nat i * 7919 + 13) 0.

(** Two constant generators: [randint 1 999999] draws 1 from the first and 2
    from the second. *)
Definition draws_zero : Random := mkRandom (fun _ => 0) 0.

Definition draws_one : Random := mkRandom (fun _ => 1) 0.

(** What [value] falls back on; the runs below are all [Ok]. *)
Definition no_state : Main.state * Random :=
  (Main.mk (Player.init "nobody") (Player.init "nobody") 0 true Main.Player1 Main.Player2,
   demo_generator).

(** The state after the setup phase, Alice to play. *)
Definition demo_start : Main.state := (value no_state (Main.setup 50 demo_generator)).1.

(** The boards and the ships the setup phase produced. *)
Example demo_start_alice :
  Player.board (Main.player1 demo_start)
  = [[0; 0; 0; 0; 0; 0; 0; 0; 0; 0]; [1; 1; 1; 0; 0; 0; 0; 0; 0; 0];
     [0; 0; 0; 0; 0; 0; 0; 0; 0; 0]; [0; 0; 0; 1; 0; 0; 0; 0; 0; 0];
     [0; 0; 0; 1; 0; 0; 0; 0; 0; 1]; [0; 0; 0; 1; 0; 0; 0; 0; 0; 1];
     [0; 0; 0; 1; 0; 0; 0; 0; 0; 1]; [0; 0; 0; 0; 0; 0; 0; 1; 0; 1];
     [0; 0; 0; 0; 0; 0; 0; 1; 0; 1]; [0; 0; 0; 0; 0; 0; 1; 1; 0; 0]] /\
  Ship.coordinates <$> Player.ships (Main.player1 demo_start)
  = [[(4, 9); (5, 9); (6, 9); (7, 9); (8, 9)]; [(3, 3); (4, 3); (5, 3); (6, 3)];
     [(1, 0); (1, 1); (1, 2)]; [(7, 7); (8, 7)]; [(9, 6); (9, 7)]].
Proof. by vm_compute. Qed.

Example demo_start_bob :
  Player.board (Main.player2 demo_start)
  = [[0; 0; 0; 0; 0; 0; 0; 0; 0; 0]; [0; 0; 0; 1; 0; 0; 0; 0; 0; 0];
     [0; 0; 0; 1; 0; 0; 0; 0; 0; 0]; [0; 0; 0; 0; 0; 1; 1; 1; 1; 0];
     [0; 0; 0; 0; 0; 1; 0; 0; 0; 1]; [0; 0; 0; 0; 0; 1; 0; 0; 0; 1];
     [0; 0; 0; 0; 0; 1; 0; 0; 0; 1]; [0; 0; 0; 1; 1; 1; 0; 0; 0; 0];
     [0; 0; 0; 0; 0; 1; 0; 0; 0; 0]; [0; 0; 0; 0; 0; 0; 0; 0; 0; 0]] /\
  Ship.coordinates <$> Player.ships (Main.player2 demo_start)
  = [[(4, 5); (5, 5); (6, 5); (7, 5); (8, 5)]; [(3, 5); (3, 6); (3, 7); (3, 8)];
     [(4, 9); (5, 9); (6, 9)]; [(7, 3); (7, 4)]; [(1, 3); (2, 3)]].
Proof. by vm_compute. Qed.

(** Alice has guessed (1, 3), a cell of Bob's Destroyer. *)
Definition demo_turn1 : Main.state :=
  (value no_state (Main.loop_body demo_start (1, 3) draws_zero)).1.

Lemma demo_start_reachable : reachable demo_start.
Proof.
  apply (reach_setup 50 demo_generator _
           (value no_state (Main.setup 50 demo_generator)).2).
  apply (Ok_value no_state (Main.setup 50 demo_generator)). by vm_compute.
Qed.

Lemma demo_turn1_reachable : reachable demo_turn1.
Proof.
  apply (reach_turn demo_start (1, 3) draws_zero _
           (value no_state (Main.loop_body demo_start (1, 3) draws_zero)).2).
  - apply demo_start_reachable.
  - by vm_compute.
  - by vm_compute.
  - apply (Ok_value no_state (Main.loop_body demo_start (1, 3) draws_zero)).
    by vm_compute.
Qed.

Lemma hit_check_matches_board_witness :
  1 <= 1 <= 999999 /\
  exists b result self',
    cell (Player.board (Main.deref demo_start Main.Player2)) (1, 3) = Some b /\
    (b = 0 \/ b = 1) /\
    Player.blinded_value (Main.deref demo_start Main.Player2) 1 3 draws_zero
    = Ok (1, 1 * b, mkRandom (fun _ => 0) 1) /\
    (1 * b = 0 <-> b = 0) /\
    Player.check_hit_homomorphic (Main.deref demo_start Main.Player2) 1 3
      (Main.deref demo_start Main.Player1) draws_zero
    = Ok (result, self', Main.deref demo_start Main.Player1, mkRandom (fun _ => 0) 1) /\
    (result.1 = "miss"%string <-> b = 0) /\
    (result.1 = "hit"%string \/ result.1 = "sunk"%string <-> b = 1).
Proof.
  apply (hit_check_matches_board demo_start Main.Player2 1 3
           (Main.deref demo_start Main.Player1) draws_zero 1 (mkRandom (fun _ => 0) 1)).
  - exact demo_start_reachable.
  - by vm_compute.
  - reflexivity.
Defined.

Lemma encrypted_board_decrypts_to_board_witness :
  (exists sk ct b,
     Player.private_key (Main.deref demo_turn1 Main.Player2) = Some sk /\
     Player.encrypted_board (Main.deref demo_turn1 Main.Player2) !! (1, 3) = Some ct /\
     cell (Player.board (Main.deref demo_turn1 Main.Player2)) (1, 3) = Some b /\
     paillier.decrypt sk ct = Ok b) /\
  (forall r c opponent g result self' opponent' g',
     Player.check_hit_homomorphic (Main.deref demo_turn1 Main.Player2) r c opponent g
     = Ok (result, self', opponent', g') ->
     Player.encrypted_board self'
     = Player.encrypted_board (Main.deref demo_turn1 Main.Player2) /\
     Player.board self' = Player.board (Main.deref demo_turn1 Main.Player2) /\
     Player.public_key self' = Player.public_key (Main.deref demo_turn1 Main.Player2) /\
     Player.private_key self' = Player.private_key (Main.deref demo_turn1 Main.Player2)).
Proof.
  apply (encrypted_board_decrypts_to_board demo_turn1 Main.Player2 (1, 3)).
  - exact demo_turn1_reachable.
  - by vm_compute.
Defined.

(** Alice's board when [setup_board] has run. *)
Definition demo_placed : Player.t * Random :=
  value (Player.init "nobody", demo_generator)
        (Player.setup_board 50 (Player.init "Alice") demo_generator).

Lemma setup_board_placement_valid_witness :
  (forall i j t u rc,
     Player.ships demo_placed.1 !! i = Some t -> Player.ships demo_placed.1 !! j = Some u ->
     rc ∈ Ship.coordinates t -> rc ∈ Ship.coordinates u -> i = j) /\
  (forall t, t ∈ Player.ships demo_placed.1 ->
     Z.of_nat (length (Ship.coordinates t)) = Ship.size t /\
     Forall in_grid (Ship.coordinates t)) /\
  Ship.size <$> Player.ships demo_placed.1 = [5; 4; 3; 2; 2] /\
  length (occupied (Player.board demo_placed.1)) = 16%nat.
Proof.
  apply (setup_board_placement_valid 50 (Player.init "Alice") demo_generator
           demo_placed.1 demo_placed.2).
  - reflexivity.
  - reflexivity.
  - apply (Ok_value (Player.init "nobody", demo_generator)
             (Player.setup_board 50 (Player.init "Alice") demo_generator)).
    by vm_compute.
Defined.

Lemma check_hit_outcome_witness :
  exists k v g',
    Player.blinded_value (Main.deref demo_start Main.Player2) 1 3 draws_zero
    = Ok (k, v, g') /\
    (v ≠ 0 ->
     exists i ship self',
       Player.ships (Main.deref demo_start Main.Player2) !! i = Some ship /\
       (1, 3) ∈ Ship.coordinates ship /\
       (forall j t, Player.ships (Main.deref demo_start Main.Player2) !! j = Some t ->
                    (1, 3) ∈ Ship.coordinates t -> j = i) /\
       Player.check_hit_homomorphic (Main.deref demo_start Main.Player2) 1 3
         (Main.deref demo_start Main.Player1) draws_zero
       = Ok (if bool_decide (Z.of_nat (size ({[(1, 3)]} ∪ Ship.hits ship)) = Ship.size ship)
             then ("sunk"%string, Some (Ship.name ship)) else ("hit"%string, None),
             self', Main.deref demo_start Main.Player1, g') /\
       Player.hits_received self'
       = Player.hits_received (Main.deref demo_start Main.Player2) + 1 /\
       Player.ships self'
       = <[i := Ship.add_hit ship (1, 3)]> (Player.ships (Main.deref demo_start Main.Player2)) /\
       Ship.hits (Ship.add_hit ship (1, 3)) = {[(1, 3)]} ∪ Ship.hits ship) /\
    (v = 0 ->
     Player.check_hit_homomorphic (Main.deref demo_start Main.Player2) 1 3
       (Main.deref demo_start Main.Player1) draws_zero
     = Ok (("miss"%string, None), Main.deref demo_start Main.Player2,
           Main.deref demo_start Main.Player1, g')).
Proof.
  apply (check_hit_outcome demo_start Main.Player2 1 3
           (Main.deref demo_start Main.Player1) draws_zero).
  - exact demo_start_reachable.
  - by vm_compute.
Defined.

(** C5, counterexample: (0, 0) is water on Bob's board; the blinding factors
    1 and 2 both decrypt to 0 there. *)
Lemma blinded_values_equal_on_water :
  ~ blinded_values_differ (Main.deref demo_start Main.Player2) 0 0.
Proof.
  intros H.
  apply (H draws_zero draws_one 1 2 0 0 (mkRandom (fun _ => 0) 1) (mkRandom (fun _ => 1) 1)).
  - by vm_compute.
  - by vm_compute.
  - done.
  - done.
Qed.

Lemma blinding_independence_witness :
  (1 ≠ 2 <-> cell (Player.board (Main.deref demo_start Main.Player2)) (1, 3) = Some 1) /\
  (cell (Player.board (Main.deref demo_start Main.Player2)) (1, 3) = Some 0 ->
   1 = 0 /\ 2 = 0) /\
  exists result self',
    Player.check_hit_homomorphic (Main.deref demo_start Main.Player2) 1 3
      (Main.deref demo_start Main.Player1) draws_zero
    = Ok (result, self', Main.deref demo_start Main.Player1, mkRandom (fun _ => 0) 1) /\
    Player.check_hit_homomorphic (Main.deref demo_start Main.Player2) 1 3
      (Main.deref demo_start Main.Player1) draws_one
    = Ok (result, self', Main.deref demo_start Main.Player1, mkRandom (fun _ => 1) 1).
Proof.
  apply (blinding_independence demo_start Main.Player2 1 3 draws_zero draws_one 1 2 1 2).
  - exact demo_start_reachable.
  - by vm_compute.
  - by vm_compute.
  - by vm_compute.
  - done.
Defined.

(** Bob's Destroyer after Alice's first guess. *)
Definition demo_destroyer : Ship.t :=
  default (Ship.init "none" 0) (Player.ships (Main.deref demo_turn1 Main.Player2) !! 4%nat).

Lemma ship_hits_and_sinking_witness :
  (forall rc, rc ∈ Ship.hits demo_destroyer -> rc ∈ Ship.coordinates demo_destroyer) /\
  (Ship.is_sunk demo_destroyer = true <->
   Z.of_nat (size (Ship.hits demo_destroyer)) = Ship.size demo_destroyer) /\
  (forall r c opponent g result self' opponent' g' ship',
     in_grid (r, c) ->
     Player.check_hit_homomorphic (Main.deref demo_turn1 Main.Player2) r c opponent g
     = Ok (result, self', opponent', g') ->
     Player.ships self' !! 4%nat = Some ship' ->
     (Ship.is_sunk demo_destroyer = true -> Ship.is_sunk ship' = true) /\
     ((Ship.is_sunk demo_destroyer = false /\ Ship.is_sunk ship' = true) <->
      ((r, c) ∈ Ship.coordinates demo_destroyer /\ ((r, c) ∉ Ship.hits demo_destroyer) /\
       Z.of_nat (size (Ship.hits demo_destroyer)) + 1 = Ship.size demo_destroyer)) /\
     (Ship.is_sunk demo_destroyer = false -> Ship.is_sunk ship' = true ->
      result = ("sunk"%string, Some (Ship.name demo_destroyer)) /\
      Ship.hits ship' = {[(r, c)]} ∪ Ship.hits demo_destroyer)).
Proof.
  apply (ship_hits_and_sinking demo_turn1 Main.Player2 4 demo_destroyer).
  - exact demo_turn1_reachable.
  - apply (Some_default (Ship.init "none" 0)
             (Player.ships (Main.deref demo_turn1 Main.Player2) !! 4%nat)).
    by vm_compute.
Defined.

Lemma has_lost_threshold_witness :
  Player.total_ship_cells (Main.deref demo_turn1 Main.Player2) = 16 /\
  (Player.has_lost (Main.deref demo_turn1 Main.Player2) = true <->
   16 <= Player.hits_received (Main.deref demo_turn1 Main.Player2)) /\
  (Player.has_lost (Main.deref demo_turn1 Main.Player2) = true <->
   Player.hits_received (Main.deref demo_turn1 Main.Player2) = 16) /\
  (forall r c opponent g result self' opponent' g',
     Player.check_hit_homomorphic (Main.deref demo_turn1 Main.Player2) r c opponent g
     = Ok (result, self', opponent', g') ->
     Player.has_lost (Main.deref demo_turn1 Main.Player2) = false ->
     Player.has_lost self' = true ->
     Player.hits_received self' = 16).
Proof.
  apply (has_lost_threshold demo_turn1 Main.Player2). exact demo_turn1_reachable.
Defined.

(** Bob has answered with (0, 0), water on Alice's board; it is Alice's turn
    again, and her guess board is marked at (1, 3). *)
Definition demo_turn2 : Main.state :=
  (value no_state (Main.loop_body demo_turn1 (0, 0) draws_one)).1.

Lemma demo_turn2_reachable : reachable demo_turn2.
Proof.
  apply (reach_turn demo_turn1 (0, 0) draws_one _
           (value no_state (Main.loop_body demo_turn1 (0, 0) draws_one)).2).
  - apply demo_turn1_reachable.
  - by vm_compute.
  - by vm_compute.
  - apply (Ok_value no_state (Main.loop_body demo_turn1 (0, 0) draws_one)).
    by vm_compute.
Qed.

Lemma repeated_guess_rejected_witness :
  (Main.loop_body demo_turn2 (1, 3) demo_generator
   = Ok (Main.set_turn demo_turn2 (Main.turn demo_turn2 + 1), demo_generator) /\
   (forall ref, Main.deref (Main.set_turn demo_turn2 (Main.turn demo_turn2 + 1)) ref
                = Main.deref demo_turn2 ref) /\
   Main.current_player (Main.set_turn demo_turn2 (Main.turn demo_turn2 + 1))
   = Main.current_player demo_turn2 /\
   Main.opponent (Main.set_turn demo_turn2 (Main.turn demo_turn2 + 1))
   = Main.opponent demo_turn2 /\
   Main.game_over (Main.set_turn demo_turn2 (Main.turn demo_turn2 + 1))
   = Main.game_over demo_turn2) /\
  (forall s0 guess g0 s' g' ref rc,
     reachable s0 -> in_grid guess -> in_grid rc ->
     Main.loop_body s0 guess g0 = Ok (s', g') ->
     (cell (Player.guess_board (Main.deref s0 ref)) rc ≠ Some " "%string ->
      cell (Player.guess_board (Main.deref s' ref)) rc
      = cell (Player.guess_board (Main.deref s0 ref)) rc) /\
     (cell (Player.guess_board (Main.deref s' ref)) rc
      ≠ cell (Player.guess_board (Main.deref s0 ref)) rc ->
      ref = Main.current_player s0 /\ rc = guess /\
      cell (Player.guess_board (Main.deref s0 ref)) rc = Some " "%string /\
      (cell (Player.guess_board (Main.deref s' ref)) rc = Some "X"%string \/
       cell (Player.guess_board (Main.deref s' ref)) rc = Some "O"%string))) /\
  (forall s0 guess g0 s' g',
     reachable s0 -> in_grid guess ->
     cell (Player.guess_board (Main.deref s0 (Main.current_player s0))) guess
     = Some " "%string ->
     Main.loop_body s0 guess g0 = Ok (s', g') ->
     exists b,
       cell (Player.board (Main.deref s0 (Main.opponent s0))) guess = Some b /\
       (b = 0 \/ b = 1) /\
       cell (Player.guess_board (Main.deref s' (Main.current_player s0))) guess
       = Some (if bool_decide (b = 1) then "X"%string else "O"%string) /\
       cell (Player.guess_board (Main.deref s' (Main.current_player s0))) guess
       ≠ Some " "%string).
Proof.
  apply (repeated_guess_rejected demo_turn2 1 3 demo_generator "X").
  - exact demo_turn2_reachable.
  - by vm_compute.
  - by vm_compute.
  - done.
Defined.

(** A board without water: no run of cells is free, for any ship. *)
Definition crowded_player : Player.t :=
  Player.set_board (Player.init "Alice") (replicate 10 (replicate 10 1)).

Lemma crowded_no_room (size : Z) (h : bool) (row col : Z) :
  1 <= size -> 0 <= row -> 0 <= col ->
  (if h then row <= 9 /\ col + size <= 10 else row + size <= 10 /\ col <= 9) ->
  exists i, 0 <= i < size /\ cell (Player.board crowded_player) (span row col h i) ≠ Some 0.
Proof.
  intros Hsize Hrow Hcol Hfit. exists 0. split; [lia|].
  cbn [crowded_player Player.board Player.set_board].
  rewrite cell_replicate; [done|]. unfold span, in_grid. destruct h; cbn; lia.
Qed.

(** C9, counterexample: on the board without water no placement of the
    Carrier can succeed, and [place_ship_random] does not end in an error
    after some number of attempts: for no number of attempts and no random
    source has it returned or raised. *)
Lemma place_ship_random_never_gives_up :
  ~ exists fuel g, Player.place_ship_random fuel crowded_player 0 g ≠ OutOfFuel.
Proof.
  intros (fuel & g & Hstop). apply Hstop.
  destruct (place_ship_random_outcome fuel crowded_player 0 (Ship.init "Carrier" 5) g)
    as [[_ Hout]|[Hnot _]]; [| |cbn; lia|done|].
  - apply (bool_decide_unpack _). by vm_compute.
  - reflexivity.
  - destruct Hnot. apply no_room_blocked; [cbn; lia|].
    intros h row col. apply crowded_no_room. cbn. lia.
Qed.

(** The Carrier on Alice's empty board. *)
Lemma place_ship_random_retries_witness :
  (forall e, Player.place_ship_random 50 (Player.init "Alice") 0 demo_generator ≠ Raise e) /\
  (Player.place_ship_random 50 (Player.init "Alice") 0 demo_generator = OutOfFuel <->
   blocked 50 (Player.board (Player.init "Alice")) (Ship.size (Ship.init "Carrier" 5))
           demo_generator) /\
  (~ blocked 50 (Player.board (Player.init "Alice")) (Ship.size (Ship.init "Carrier" 5))
             demo_generator ->
   exists p' g',
     Player.place_ship_random 50 (Player.init "Alice") 0 demo_generator = Ok (p', g')) /\
  ((forall (h : bool) row col, 0 <= row -> 0 <= col ->
      (if h then row <= 9 /\ col + Ship.size (Ship.init "Carrier" 5) <= 10
       else row + Ship.size (Ship.init "Carrier" 5) <= 10 /\ col <= 9) ->
      exists i, 0 <= i < Ship.size (Ship.init "Carrier" 5) /\
                cell (Player.board (Player.init "Alice")) (span row col h i) ≠ Some 0) ->
   forall fuel' g',
     Player.place_ship_random fuel' (Player.init "Alice") 0 g' = OutOfFuel).
Proof.
  apply (place_ship_random_retries 50 (Player.init "Alice") 0 (Ship.init "Carrier" 5)
           demo_generator).
  - apply (bool_decide_unpack _). by vm_compute.
  - reflexivity.
  - cbn. lia.
Defined.

(** ** A single Destroyer at (0,0)-(0,1) *)

(** A player whose only ship is a Destroyer, placed horizontally at (0, 0),
    with keys and an encrypted board. *)
Definition destroyer_player : Player.t :=
  let '(ship, coords) := Ship.place (Ship.init "Destroyer" 2) 0 0 true in
  let p := Player.mk "Alice" (value [] (Player.mark_cells (Player.board (Player.init "nobody")) coords))
             (Player.guess_board (Player.init "nobody")) [ship] ∅ None None 0 2 in
  (value (p, draws_zero) (Player.encrypt_board (Player.generate_keys p draws_zero).1 draws_zero)).1.

(** The result and the defender after a query. *)
Definition query (p : Player.t) (r c : Z) : (string * option string) * Player.t :=
  match Player.check_hit_homomorphic p r c (Player.init "Bob") demo_generator with
  | Ok (result, p', _, _) => (result, p')
  | _ => (("error"%string, None), p)
  end.

Example destroyer_hit : (query destroyer_player 0 0).1 = ("hit"%string, None).
Proof. by vm_compute. Qed.

Example destroyer_sunk :
  (query (query destroyer_player 0 0).2 0 1).1 = ("sunk"%string, Some "Destroyer"%string).
Proof. by vm_compute. Qed.

Example destroyer_miss : (query destroyer_player 5 5).1 = ("miss"%string, None).
Proof. by vm_compute. Qed.

Example destroyer_lost :
  Player.has_lost (query destroyer_player 0 0).2 = false /\
  Player.has_lost (query (query destroyer_player 0 0).2 0 1).2 = true.
Proof. by vm_compute. Qed.

(** A first guess that hits, and the same guess made again two turns later. *)
Example first_guess_marks :
  cell (Player.guess_board (Main.player1 demo_start)) (1, 3) = Some " "%string /\
  cell (Player.guess_board (Main.player1 demo_turn1)) (1, 3) = Some "X"%string /\
  Player.hits_received (Main.player2 demo_turn1) = 1 /\
  Main.current_player demo_turn1 = Main.Player2.
Proof. by vm_compute. Qed.


(** ** A game played to the end *)

(** Alice's guesses, the sixteen cells of Bob's ships, and Bob's, fifteen
    cells of the first two rows. *)
Definition alice_guesses : list (Z * Z) :=
  [(4, 5); (5, 5); (6, 5); (7, 5); (8, 5); (3, 5); (3, 6); (3, 7); (3, 8);
   (4, 9); (5, 9); (6, 9); (7, 3); (7, 4); (1, 3); (2, 3)].

Definition bob_guesses : list (Z * Z) :=
  [(0, 0); (0, 1); (0, 2); (0, 3); (0, 4); (0, 5); (0, 6); (0, 7); (0, 8); (0, 9);
   (1, 0); (1, 1); (1, 2); (1, 3); (1, 4)].

(** The guesses in the order of play. *)
Fixpoint interleave {A} (l k : list A) : list A :=
  match l, k with
  | x :: l, y :: k => x :: y :: interleave l k
  | l, [] => l
  | [], k => k
  end.

Definition demo_guesses : list (Z * Z) := interleave alice_guesses bob_guesses.

(** The state after the 31 guesses. *)
Definition demo_final : Main.state :=
  (value no_state (Main.game_loop demo_start demo_guesses draws_zero)).1.

Lemma demo_final_reachable : reachable demo_final.
Proof.
  apply (game_loop_reachable demo_guesses demo_start draws_zero _
           (value no_state (Main.game_loop demo_start demo_guesses draws_zero)).2).
  - exact demo_start_reachable.
  - cbv [demo_guesses alice_guesses bob_guesses interleave].
    repeat (apply Forall_cons_2; [by vm_compute|]). apply Forall_nil_2.
  - apply (Ok_value no_state (Main.game_loop demo_start demo_guesses draws_zero)).
    by vm_compute.
Qed.

(** Alice wins at turn 31, the earliest turn at which a game can end. *)
Example demo_final_state :
  Main.game_over demo_final = true /\ Main.turn demo_final = 31 /\
  Main.current_player demo_final = Main.Player1 /\
  Player.hits_received (Main.player2 demo_final) = 16 /\
  Player.hits_received (Main.player1 demo_final) = 3.
Proof. by vm_compute. Qed.

(** The same game typed in: a line with the guess, and a line for the prompt
    after each turn. *)
Definition demo_lines : list string :=
  foldr (fun rc acc => (pretty rc.1 +:+ " " +:+ pretty rc.2)%string :: "go"%string :: acc)
        [] demo_guesses.

Example demo_main :
  match Main.main 50 100 demo_lines demo_generator with
  | Ok (s, out, _) =>
      Main.game_over s = true /\ Main.turn s = 31 /\ out = Some ["go"%string]
  | _ => False
  end.
Proof. by vm_compute. Qed.

(** Lines the input loop rejects and accepts on ASCII text. *)
Example demo_input :
  get_player_guess ["a b"; "1 2 3"; "10 3"; "1__0 3"; "_1 3"; "7"; " "; "+1_0 3";
                    "  -0   0_9 "; "left"]%string
  = Some (0, 9, ["left"%string]).
Proof. by vm_compute. Qed.

(** Bob's board as Bob sees it, and Alice's tracking board after her first
    guess. *)
Example demo_display_own :
  Player.display_own_board (Main.player2 demo_start)
  = [ (String "010"%char EmptyString +:+ "Bob's Board:")%string;
      "   0 1 2 3 4 5 6 7 8 9"; "0  ~ ~ ~ ~ ~ ~ ~ ~ ~ ~"; "1  ~ ~ ~ S ~ ~ ~ ~ ~ ~";
      "2  ~ ~ ~ S ~ ~ ~ ~ ~ ~"; "3  ~ ~ ~ ~ ~ S S S S ~"; "4  ~ ~ ~ ~ ~ S ~ ~ ~ S";
      "5  ~ ~ ~ ~ ~ S ~ ~ ~ S"; "6  ~ ~ ~ ~ ~ S ~ ~ ~ S"; "7  ~ ~ ~ S S S ~ ~ ~ ~";
      "8  ~ ~ ~ ~ ~ S ~ ~ ~ ~"; "9  ~ ~ ~ ~ ~ ~ ~ ~ ~ ~" ]%string.
Proof. by vm_compute. Qed.

Example demo_display_guess :
  Player.display_guess_board (Main.player1 demo_turn1)
  = [ (String "010"%char EmptyString +:+ "Alice's Tracking Board (Your Guesses):")%string;
      "   0 1 2 3 4 5 6 7 8 9"; "0                     "; "1        X            ";
      "2                     "; "3                     "; "4                     ";
      "5                     "; "6                     "; "7                     ";
      "8                     "; "9                     " ]%string.
Proof. by vm_compute. Qed.

(** ** The further properties on the example games *)

(** The Carrier placed on Alice's empty board. *)
Definition demo_carrier : Player.t * Random :=
  value (Player.init "nobody", demo_generator)
        (Player.place_ship_random 50 (Player.init "Alice") 0 demo_generator).

Lemma place_ship_random_effect_witness :
  exists h row col n,
    let cs := span row col h <$> seqZ 0 5 in
    Player.ships demo_carrier.1
    = <[0%nat := Ship.set_coordinates (Ship.init "Carrier" 5) cs]>
        (Player.ships (Player.init "Alice")) /\
    Forall in_grid cs /\
    (forall rc, rc ∈ cs -> cell (Player.board (Player.init "Alice")) rc = Some 0) /\
    grid10 (Player.board demo_carrier.1) /\
    (forall rc, in_grid rc ->
       cell (Player.board demo_carrier.1) rc
       = if decide (rc ∈ cs) then Some 1 else cell (Player.board (Player.init "Alice")) rc) /\
    (1 <= n <= 50)%nat /\
    demo_carrier.2 = mkRandom (draws demo_generator) (3 * n + cursor demo_generator) /\
    Player.name demo_carrier.1 = Player.name (Player.init "Alice") /\
    Player.guess_board demo_carrier.1 = Player.guess_board (Player.init "Alice") /\
    Player.encrypted_board demo_carrier.1 = Player.encrypted_board (Player.init "Alice") /\
    Player.public_key demo_carrier.1 = Player.public_key (Player.init "Alice") /\
    Player.private_key demo_carrier.1 = Player.private_key (Player.init "Alice") /\
    Player.hits_received demo_carrier.1 = Player.hits_received (Player.init "Alice") /\
    Player.total_ship_cells demo_carrier.1 = Player.total_ship_cells (Player.init "Alice").
Proof.
  apply (place_ship_random_effect 50 (Player.init "Alice") 0 (Ship.init "Carrier" 5)
           demo_generator demo_carrier.1 demo_carrier.2).
  - apply (bool_decide_unpack _). by vm_compute.
  - reflexivity.
  - cbn. lia.
  - apply (Ok_value (Player.init "nobody", demo_generator)
             (Player.place_ship_random 50 (Player.init "Alice") 0 demo_generator)).
    by vm_compute.
Defined.

(** A fleet with a ship of eleven cells. *)
Definition liner_player : Player.t :=
  Player.set_ships (Player.init "Alice") [Ship.init "Liner" 11].

Lemma place_ship_random_too_long_witness :
  Player.place_ship_random 1 liner_player 0 demo_generator = Raise ValueError.
Proof.
  apply (place_ship_random_too_long 0 liner_player 0 (Ship.init "Liner" 11) demo_generator).
  - reflexivity.
  - cbn. lia.
Defined.

Lemma place_ship_random_no_room_witness :
  Player.place_ship_random 7 crowded_player 0 demo_generator = OutOfFuel.
Proof.
  apply (place_ship_random_no_room 7 crowded_player 0 (Ship.init "Carrier" 5) demo_generator).
  - apply (bool_decide_unpack _). by vm_compute.
  - reflexivity.
  - cbn. lia.
  - intros h row col Hrow Hcol Hfit. exists 0. split; [cbn; lia|].
    cbn [crowded_player Player.board Player.set_board].
    rewrite cell_replicate; [done|]. cbn in Hfit. unfold span, in_grid.
    destruct h; cbn; lia.
Defined.

(** Alice's board encrypted once more. *)
Definition demo_reencrypted : Player.t * Random :=
  value (Player.init "nobody", demo_generator)
        (Player.encrypt_board (Main.player1 demo_start) demo_generator).

Lemma encrypt_board_writes_witness :
  demo_reencrypted.1
  = Player.set_encrypted_board (Main.player1 demo_start)
      (Player.encrypted_board demo_reencrypted.1) /\
  demo_reencrypted.2 = mkRandom (draws demo_generator) (100 + cursor demo_generator) /\
  (forall rc, ~ in_grid rc ->
     Player.encrypted_board demo_reencrypted.1 !! rc
     = Player.encrypted_board (Main.player1 demo_start) !! rc) /\
  (forall rc, in_grid rc ->
     exists pk v nonce ct,
       Player.public_key (Main.player1 demo_start) = Some pk /\
       cell (Player.board (Main.player1 demo_start)) rc = Some v /\
       Player.encrypted_board demo_reencrypted.1 !! rc = Some ct /\
       paillier.encrypt pk v nonce = Ok ct).
Proof.
  apply (encrypt_board_writes (Main.player1 demo_start) demo_generator
           demo_reencrypted.1 demo_reencrypted.2).
  apply (Ok_value (Player.init "nobody", demo_generator)
           (Player.encrypt_board (Main.player1 demo_start) demo_generator)).
  by vm_compute.
Defined.

Lemma check_hit_counts_repeats_witness :
  Player.check_hit_homomorphic (Main.deref demo_turn1 Main.Player2) 1 3
    (Main.deref demo_turn1 Main.Player1) draws_one
  = Ok (if Ship.is_sunk demo_destroyer
        then ("sunk"%string, Some (Ship.name demo_destroyer)) else ("hit"%string, None),
        Player.set_hits_received (Main.deref demo_turn1 Main.Player2)
          (Player.hits_received (Main.deref demo_turn1 Main.Player2) + 1),
        Main.deref demo_turn1 Main.Player1, mkRandom (draws draws_one) (S (cursor draws_one))).
Proof.
  apply (check_hit_counts_repeats demo_turn1 Main.Player2 1 3
           (Main.deref demo_turn1 Main.Player1) draws_one 4 demo_destroyer).
  - exact demo_turn1_reachable.
  - by vm_compute.
  - apply (Some_default (Ship.init "none" 0)
             (Player.ships (Main.deref demo_turn1 Main.Player2) !! 4%nat)).
    by vm_compute.
  - apply (bool_decide_unpack _). by vm_compute.
Defined.

Lemma loop_body_never_raises_witness :
  exists s' g',
    Main.loop_body demo_start (1, 3) draws_zero = Ok (s', g') /\
    Main.turn s' = Main.turn demo_start + 1 /\
    (g' = draws_zero \/ g' = mkRandom (draws draws_zero) (S (cursor draws_zero))) /\
    ((Main.current_player s' = Main.current_player demo_start /\
      Main.opponent s' = Main.opponent demo_start) \/
     (Main.current_player s' = Main.opponent demo_start /\
      Main.opponent s' = Main.current_player demo_start /\
      Main.game_over s' = Main.game_over demo_start /\
      cell (Player.guess_board (Main.deref demo_start (Main.current_player demo_start))) (1, 3)
      = Some " "%string /\
      Player.has_lost (Main.deref s' (Main.current_player s')) = false)).
Proof.
  apply (loop_body_never_raises demo_start (1, 3) draws_zero).
  - exact demo_start_reachable.
  - by vm_compute.
Defined.

Lemma guess_outside_the_board_witness :
  Player.check_hit_homomorphic (Main.deref demo_start Main.Player2) (-1) 0
    (Main.deref demo_start Main.Player1) draws_zero = Raise KeyError /\
  (-1 < -10 \/ 9 < -1 \/ 0 < -10 \/ 9 < 0 ->
   Main.loop_body demo_start (-1, 0) draws_zero = Raise IndexError) /\
  (-10 <= -1 <= 9 -> -10 <= 0 <= 9 ->
   (cell (Player.guess_board (Main.deref demo_start (Main.current_player demo_start)))
         (-1 mod 10, 0 mod 10) = Some " "%string ->
    Main.loop_body demo_start (-1, 0) draws_zero = Raise KeyError) /\
   (cell (Player.guess_board (Main.deref demo_start (Main.current_player demo_start)))
         (-1 mod 10, 0 mod 10) ≠ Some " "%string ->
    Main.loop_body demo_start (-1, 0) draws_zero
    = Ok (Main.set_turn demo_start (Main.turn demo_start + 1), draws_zero))).
Proof.
  apply (guess_outside_the_board demo_start (-1) 0 (Main.deref demo_start Main.Player1)
           draws_zero Main.Player2).
  - exact demo_start_reachable.
  - unfold in_grid. cbn. lia.
Defined.

Lemma tracking_board_truthful_witness :
  let gb := Player.guess_board (Main.deref demo_turn1 Main.Player1) in
  let defender := Main.deref demo_turn1 (other Main.Player1) in
  (cell gb (1, 3) = Some " "%string \/ cell gb (1, 3) = Some "X"%string \/
   cell gb (1, 3) = Some "O"%string) /\
  (cell gb (1, 3) = Some "X"%string <->
   exists i t, Player.ships defender !! i = Some t /\ (1, 3) ∈ Ship.hits t) /\
  (cell gb (1, 3) = Some "X"%string -> cell (Player.board defender) (1, 3) = Some 1) /\
  (cell gb (1, 3) = Some "O"%string -> cell (Player.board defender) (1, 3) = Some 0) /\
  Player.hits_received defender = Z.of_nat (length (marked "X" gb)) /\
  Player.hits_received defender = hit_cells defender.
Proof.
  apply (tracking_board_truthful demo_turn1 Main.Player1 (1, 3)).
  - exact demo_turn1_reachable.
  - by vm_compute.
Defined.

Lemma has_lost_iff_all_sunk_witness :
  Player.has_lost (Main.deref demo_final Main.Player2) = true <->
  Forall (fun t => Ship.is_sunk t = true) (Player.ships (Main.deref demo_final Main.Player2)).
Proof.
  apply (has_lost_iff_all_sunk demo_final Main.Player2). exact demo_final_reachable.
Defined.

Lemma game_over_winner_witness :
  Player.has_lost (Main.deref demo_final (Main.opponent demo_final)) = true /\
  Player.has_lost (Main.deref demo_final (Main.current_player demo_final)) = false /\
  Player.hits_received (Main.deref demo_final (Main.opponent demo_final)) = 16 /\
  Forall (fun t => Ship.is_sunk t = true)
         (Player.ships (Main.deref demo_final (Main.opponent demo_final))) /\
  length (marked "X" (Player.guess_board
                        (Main.deref demo_final (Main.current_player demo_final)))) = 16%nat /\
  31 <= Main.turn demo_final /\
  (Main.current_player demo_final = Main.Player2 -> 32 <= Main.turn demo_final).
Proof.
  apply (game_over_winner demo_final).
  - exact demo_final_reachable.
  - by vm_compute.
Defined.

Lemma unguessed_ship_cell_witness :
  exists rc, in_grid rc /\
    cell (Player.board (Main.deref demo_turn1 (Main.opponent demo_turn1))) rc = Some 1 /\
    cell (Player.guess_board (Main.deref demo_turn1 (Main.current_player demo_turn1))) rc
    = Some " "%string.
Proof.
  apply (unguessed_ship_cell demo_turn1).
  - exact demo_turn1_reachable.
  - by vm_compute.
Defined.

Lemma main_never_raises_witness :
  (Main.setup 50 demo_generator = OutOfFuel /\
   Main.main 50 100 demo_lines demo_generator = OutOfFuel) \/
  exists s' out g',
    Main.main 50 100 demo_lines demo_generator = Ok (s', out, g') /\
    match out with
    | Some rest => Main.game_over s' = true /\ reachable s'
    | None => Main.game_over s' = false
    end.
Proof.
  apply (main_never_raises 50 100 demo_lines demo_generator). vm_compute. lia.
Defined.

Lemma display_own_board_shows_witness :
  length (Player.display_own_board (Main.player2 demo_start))
  = (2 + length (Player.board (Main.player2 demo_start)))%nat /\
  Player.display_own_board (Main.player2 demo_start) !! 1%nat
  = Some "   0 1 2 3 4 5 6 7 8 9"%string /\
  exists row line,
    Player.board (Main.player2 demo_start) !! Z.to_nat 1 = Some row /\
    Player.display_own_board (Main.player2 demo_start) !! (2 + Z.to_nat 1)%nat = Some line /\
    String.length line = (3 + (2 * length row - 1))%nat /\
    String.get 0 line = Some (ascii_of_nat (48 + Z.to_nat 1)) /\
    String.get (3 + 2 * Z.to_nat 3) line = Some (if bool_decide (1 = 1) then "S" else "~")%char.
Proof.
  apply (display_own_board_shows (Main.player2 demo_start) 1 3 1).
  - lia.
  - lia.
  - by vm_compute.
Defined.

Lemma display_guess_board_shows_witness :
  length (Player.display_guess_board (Main.deref demo_turn1 Main.Player1)) = 12%nat /\
  exists line m,
    Player.display_guess_board (Main.deref demo_turn1 Main.Player1) !! (2 + Z.to_nat 1)%nat
    = Some line /\
    String.length line = 22%nat /\
    String.get 0 line = Some (ascii_of_nat (48 + Z.to_nat 1)) /\
    String.get (3 + 2 * Z.to_nat 3) line = Some m /\
    cell (Player.guess_board (Main.deref demo_turn1 Main.Player1)) (1, 3)
    = Some (String m EmptyString) /\
    (m = " " \/ m = "X" \/ m = "O")%char /\
    (m = "X"%char <->
     exists i t, Player.ships (Main.deref demo_turn1 (other Main.Player1)) !! i = Some t /\
                 (1, 3) ∈ Ship.hits t) /\
    (m = "O"%char ->
     cell (Player.board (Main.deref demo_turn1 (other Main.Player1))) (1, 3) = Some 0).
Proof.
  apply (display_guess_board_shows demo_turn1 Main.Player1 1 3).
  - exact demo_turn1_reachable.
  - by vm_compute.
Defined.
